(** * Trifle: the browser-side content-addressable store

    A shallow embedding of the IndexedDB layer of the Trifle editor
    ([web/js/db.js], exported as [TrifleDB]) and of the editor's save path
    ([saveCurrentFile] in [web/js/editor.js]).

    Conventions of the embedding.
    - A JavaScript string is the list of its UTF-16 code units.
    - A JavaScript value that can be a payload is a [jsval]: [null],
      [undefined], booleans, numbers, strings, arrays and plain objects.
      A number is an integer, written in decimal, which is how
      [JSON.stringify] writes the integers up to 2^53 in magnitude; how it
      writes larger doubles, fractions, [NaN], the infinities, [BigInt],
      functions, symbols and arrays with holes are left out.  An object is
      the list of its own enumerable properties in the order in which they
      were added; that JavaScript enumerates integer-like keys before the
      others is left out, and [canonicalJSON] sorts the keys.  A
      well-formed object has no repeated key.
    - An IndexedDB object store is a finite map from primary key to record;
      a cursor or [getAll] walks the records in the order of their keys.
      What is stored is a copy, and values here are immutable.
    - An [async] function is a function from the database to the outcome
      of its promise and the database it leaves behind: the call awaited,
      with no transaction of another call between its own.  [updateTrifle]
      and [updateUser] are first given transaction by transaction, as
      [task]s, so that calls that overlap can be interleaved.  What
      [Date.now()] returns and what [crypto.getRandomValues] writes are
      arguments.
    - Storage requests succeed, except [add] on a key that is taken.
    - [logical_clock] is a number that holds an integer, and [increment] is
      [++] on it: one more below 2^53, the nearest double from there on.
      The timestamps are integers. *)

From Stdlib Require Import NArith ZArith Ascii String List Lia.
From stdpp Require Import base option list sorting gmap pretty.

Local Open Scope N_scope.

(** ** JavaScript strings, arrays and the platform functions the code calls *)
Module JS.

(** A string is its sequence of UTF-16 code units. *)
Definition jstring : Type := list N.

(** The code units of an ASCII literal. *)
Definition js (s : string) : jstring :=
  N_of_ascii <$> list_ascii_of_string s.

(** [a < b] on strings and the default comparison of
    [Array.prototype.sort]: code units compared left to right, a proper
    prefix first.  [str_le a b] is "a is not after b". *)
Fixpoint str_le (a b : jstring) : bool :=
  match a, b with
  | [], _ => true
  | _ :: _, [] => false
  | x :: a', y :: b' =>
      if x <? y then true else if y <? x then false else str_le a' b'
  end.

(** [Array.prototype.sort]: a stable sort.  [le x y] says that the
    comparator does not put [y] before [x] (its result on [(x, y)] is not
    positive).  An element is inserted in front of the sorted rest, before
    the first element it does not have to follow. *)
Fixpoint sort_insert {A} (le : A → A → bool) (x : A) (l : list A) : list A :=
  match l with
  | [] => [x]
  | y :: l' => if le x y then x :: y :: l' else y :: sort_insert le x l'
  end.

Fixpoint sort {A} (le : A → A → bool) (l : list A) : list A :=
  match l with
  | [] => []
  | x :: l' => sort_insert le x (sort le l')
  end.

(** [Array.prototype.join] on an array whose elements are strings or
    [undefined]: an [undefined] element contributes the empty string. *)
Fixpoint join (sep : jstring) (l : list (option jstring)) : jstring :=
  match l with
  | [] => []
  | [x] => default [] x
  | x :: l' => default [] x ++ sep ++ join sep l'
  end.

(** [Array.prototype.slice(start)] with one argument: a negative [start]
    counts from the end. *)
Definition slice {A} (l : list A) (start : Z) : list A :=
  if (start <? 0)%Z
  then drop (Z.to_nat (Z.max (Z.of_nat (length l) + start) 0)) l
  else drop (Z.to_nat start) l.

(** The Number value of the integer [m]: the double nearest to it, the one
    with the even significand when two are as near.  Every integer up to
    2^53 in magnitude is a double; above, the doubles are 2, 4, 8, ...
    apart.  Integers past the largest double, which round to an infinity,
    are left out; no double plus one is among them. *)
Definition number_value (m : Z) : Z :=
  let a := Z.abs m in
  if (a <? 2 ^ 53)%Z then m
  else
    let ulp := (2 ^ (Z.log2 a - 52))%Z in
    let q := (a / ulp)%Z in
    let r := (a mod ulp)%Z in
    let q' :=
      if (2 * r <? ulp)%Z then q
      else if (ulp <? 2 * r)%Z then (q + 1)%Z
      else if Z.even q then q else (q + 1)%Z in
    (Z.sgn m * (q' * ulp))%Z.

(** [n++] and [n + 1] on a number that holds an integer. *)
Definition increment (n : Z) : Z := number_value (n + 1).

(** One lowercase hexadecimal digit. *)
Definition hex_digit (d : N) : N :=
  if d <? 10 then 48 + d else 87 + d.

(** [Number.prototype.toString(16)] on a non-negative integer. *)
Fixpoint to_hex_go (fuel : nat) (n : N) (acc : jstring) : jstring :=
  match fuel with
  | O => acc
  | S fuel' =>
      let acc' := hex_digit (n mod 16) :: acc in
      if n / 16 =? 0 then acc' else to_hex_go fuel' (n / 16) acc'
  end.

Definition toString16 (n : N) : jstring :=
  to_hex_go (S (N.to_nat (N.log2 n))) n [].

(** [String.prototype.padStart(len, '0')]. *)
Definition padStart0 (len : nat) (s : jstring) : jstring :=
  replicate (len - length s)%nat 48 ++ s.

(** [b => b.toString(16).padStart(2, '0')], then [join('')]. *)
Definition hex_of_bytes (bytes : list N) : jstring :=
  join [] ((λ b, Some (padStart0 2 (toString16 b))) <$> bytes).

Definition is_lead_surrogate (c : N) : bool := (0xD800 <=? c) && (c <=? 0xDBFF).
Definition is_trail_surrogate (c : N) : bool := (0xDC00 <=? c) && (c <=? 0xDFFF).

(** [\uXXXX]: four lowercase hexadecimal digits. *)
Definition unicode_escape (c : N) : jstring :=
  js "\u" ++ padStart0 4 (toString16 c).

(** [JSON.stringify] on a string (QuoteJSONString): the short escapes,
    [\uXXXX] for the other control characters and for a surrogate that
    is not part of a pair; everything else is copied. *)
Definition quote_unit (c : N) : jstring :=
  if c =? 0x08 then js "\b"
  else if c =? 0x09 then js "\t"
  else if c =? 0x0A then js "\n"
  else if c =? 0x0C then js "\f"
  else if c =? 0x0D then js "\r"
  else if c =? 0x22 then [0x5C; 0x22]
  else if c =? 0x5C then [0x5C; 0x5C]
  else if c <? 0x20 then unicode_escape c
  else [c].

Fixpoint quote_units (s : jstring) : jstring :=
  match s with
  | [] => []
  | c :: rest =>
      if is_lead_surrogate c then
        match rest with
        | d :: rest' =>
            if is_trail_surrogate d then c :: d :: quote_units rest'
            else unicode_escape c ++ quote_units rest
        | [] => unicode_escape c
        end
      else if is_trail_surrogate c then unicode_escape c ++ quote_units rest
      else quote_unit c ++ quote_units rest
  end.

Definition quote (s : jstring) : jstring := [0x22] ++ quote_units s ++ [0x22].

(** UTF-8 for one code point. *)
Definition utf8_code_point (cp : N) : list N :=
  if cp <? 0x80 then [cp]
  else if cp <? 0x800 then
    [N.lor 0xC0 (N.shiftr cp 6); N.lor 0x80 (N.land cp 0x3F)]
  else if cp <? 0x10000 then
    [N.lor 0xE0 (N.shiftr cp 12);
     N.lor 0x80 (N.land (N.shiftr cp 6) 0x3F);
     N.lor 0x80 (N.land cp 0x3F)]
  else
    [N.lor 0xF0 (N.land (N.shiftr cp 18) 0x07);
     N.lor 0x80 (N.land (N.shiftr cp 12) 0x3F);
     N.lor 0x80 (N.land (N.shiftr cp 6) 0x3F);
     N.lor 0x80 (N.land cp 0x3F)].

(** [new TextEncoder().encode(s)]: a surrogate pair is one code point, a
    surrogate on its own becomes U+FFFD. *)
Fixpoint utf8_encode (s : jstring) : list N :=
  match s with
  | [] => []
  | c :: rest =>
      if is_lead_surrogate c then
        match rest with
        | d :: rest' =>
            if is_trail_surrogate d
            then utf8_code_point
                   (0x10000 + (c - 0xD800) * 0x400 + (d - 0xDC00))
                 ++ utf8_encode rest'
            else utf8_code_point 0xFFFD ++ utf8_encode rest
        | [] => utf8_code_point 0xFFFD
        end
      else if is_trail_surrogate c
      then utf8_code_point 0xFFFD ++ utf8_encode rest
      else utf8_code_point c ++ utf8_encode rest
  end.

End JS.

(** ** SHA-256, as [crypto.subtle.digest('SHA-256', data)] computes it *)
Module SHA256.

Definition add32 (x y : N) : N := (x + y) mod 2 ^ 32.
Definition rotr (n x : N) : N :=
  N.lor (N.shiftr x n) (N.shiftl x (32 - n) mod 2 ^ 32).
Definition shr (n x : N) : N := N.shiftr x n.
Definition not32 (x : N) : N := N.lxor x 0xFFFFFFFF.

Definition Ch (x y z : N) : N := N.lxor (N.land x y) (N.land (not32 x) z).
Definition Maj (x y z : N) : N :=
  N.lxor (N.lxor (N.land x y) (N.land x z)) (N.land y z).
Definition Sigma0 (x : N) : N := N.lxor (N.lxor (rotr 2 x) (rotr 13 x)) (rotr 22 x).
Definition Sigma1 (x : N) : N := N.lxor (N.lxor (rotr 6 x) (rotr 11 x)) (rotr 25 x).
Definition sigma0 (x : N) : N := N.lxor (N.lxor (rotr 7 x) (rotr 18 x)) (shr 3 x).
Definition sigma1 (x : N) : N := N.lxor (N.lxor (rotr 17 x) (rotr 19 x)) (shr 10 x).

(** The first sixty-four primes. *)
Definition primes : list N :=
  [2; 3; 5; 7; 11; 13; 17; 19; 23; 29; 31; 37; 41; 43; 47; 53; 59; 61; 67;
   71; 73; 79; 83; 89; 97; 101; 103; 107; 109; 113; 127; 131; 137; 139; 149;
   151; 157; 163; 167; 173; 179; 181; 191; 193; 197; 199; 211; 223; 227; 229;
   233; 239; 241; 251; 257; 263; 269; 271; 277; 281; 283; 293; 307; 311].

(** The integer cube root, one bit at a time from bit [bits - 1] down. *)
Fixpoint cube_root_bits (bits : nat) (n r : N) : N :=
  match bits with
  | O => r
  | S bits' =>
      let r' := r + 2 ^ N.of_nat bits' in
      cube_root_bits bits' n (if r' * r' * r' <=? n then r' else r)
  end.

Definition cube_root (n : N) : N := cube_root_bits 40 n 0.

(** The round constants: the first thirty-two bits of the fractional part
    of the cube root of each prime. *)
Definition K : list N :=
  Eval vm_compute in (λ p, cube_root (p * 2 ^ 96) mod 2 ^ 32) <$> primes.

(** The eight working variables, and the chaining value. *)
Record regs := Regs { ra : N; rb : N; rc : N; rd : N;
                      re : N; rf : N; rg : N; rh : N }.

(** The initial value: the first thirty-two bits of the fractional part of
    the square root of each of the first eight primes. *)
Definition root_bits (p : N) : N := N.sqrt (p * 2 ^ 64) mod 2 ^ 32.

Definition H0 : regs :=
  Eval vm_compute in
    Regs (root_bits 2) (root_bits 3) (root_bits 5) (root_bits 7)
         (root_bits 11) (root_bits 13) (root_bits 17) (root_bits 19).

(** The [count] low bytes of [n], most significant first. *)
Definition be_bytes (count : nat) (n : N) : list N :=
  (λ i, N.shiftr n (8 * N.of_nat (count - 1 - i)) mod 256) <$> seq 0 count.

(** Padding: a one bit, zeros up to 56 modulo 64 bytes, then the length in
    bits on eight bytes. *)
Definition pad (msg : list N) : list N :=
  let len := N.of_nat (length msg) in
  let zeros := N.to_nat ((64 + 55 - len mod 64) mod 64) in
  msg ++ [0x80] ++ replicate zeros 0 ++ be_bytes 8 (8 * len).

Fixpoint words_of_bytes (bs : list N) : list N :=
  match bs with
  | b0 :: b1 :: b2 :: b3 :: rest =>
      (N.shiftl (b0 mod 256) 24 + N.shiftl (b1 mod 256) 16
       + N.shiftl (b2 mod 256) 8 + b3 mod 256) :: words_of_bytes rest
  | _ => []
  end.

(** The message schedule: sixteen words of the block, then forty-eight
    derived ones. *)
Fixpoint extend (n : nat) (w : list N) : list N :=
  match n with
  | O => w
  | S n' =>
      let t := length w in
      let at_ (k : nat) := nth (t - k) w 0 in
      extend n' (w ++ [add32 (add32 (sigma1 (at_ 2%nat)) (at_ 7%nat))
                             (add32 (sigma0 (at_ 15%nat)) (at_ 16%nat))])
  end.

Definition round (r : regs) (kw : N * N) : regs :=
  let t1 := add32 (add32 (add32 (add32 (rh r) (Sigma1 (re r)))
                                (Ch (re r) (rf r) (rg r))) kw.1) kw.2 in
  let t2 := add32 (Sigma0 (ra r)) (Maj (ra r) (rb r) (rc r)) in
  Regs (add32 t1 t2) (ra r) (rb r) (rc r) (add32 (rd r) t1) (re r) (rf r) (rg r).

Definition compress (hv : regs) (block : list N) : regs :=
  let r := fold_left round (zip K (extend 48 block)) hv in
  Regs (add32 (ra hv) (ra r)) (add32 (rb hv) (rb r))
       (add32 (rc hv) (rc r)) (add32 (rd hv) (rd r))
       (add32 (re hv) (re r)) (add32 (rf hv) (rf r))
       (add32 (rg hv) (rg r)) (add32 (rh hv) (rh r)).

Fixpoint blocks (n : nat) (ws : list N) : list (list N) :=
  match n with
  | O => []
  | S n' => take 16 ws :: blocks n' (drop 16 ws)
  end.

Definition digest_regs (msg : list N) : regs :=
  let ws := words_of_bytes (pad msg) in
  fold_left compress (blocks (length ws / 16) ws) H0.

Definition bytes_of_regs (r : regs) : list N :=
  be_bytes 4 (ra r) ++ be_bytes 4 (rb r) ++ be_bytes 4 (rc r)
  ++ be_bytes 4 (rd r) ++ be_bytes 4 (re r) ++ be_bytes 4 (rf r)
  ++ be_bytes 4 (rg r) ++ be_bytes 4 (rh r).

(** The 32 bytes of the digest. *)
Definition digest (msg : list N) : list N := bytes_of_regs (digest_regs msg).

End SHA256.

(** ** The database layer: [web/js/db.js] *)
Module TrifleDB.
Import JS.

(** *** Payloads *)

#[local] Unset Elimination Schemes.
Inductive jsval : Type :=
| JNull
| JUndefined
| JBool (b : bool)
| JNum (n : Z)
| JStr (s : jstring)
| JArr (items : list jsval)
| JObj (fields : list (jstring * jsval)).
#[local] Set Elimination Schemes.

(** [Object.keys(obj)]: the keys, before they are sorted. *)
Definition Object_keys {A} (fields : list (jstring * A)) : list jstring :=
  fields.*1.

(** The own property stored under [key], when there is one. *)
Fixpoint prop_get {A} (fields : list (jstring * A)) (key : jstring) : option A :=
  match fields with
  | [] => None
  | (k, v) :: rest => if decide (k = key) then Some v else prop_get rest key
  end.

(** [obj[key]]: a missing property reads as [undefined]. *)
Definition obj_get (fields : list (jstring * jsval)) (key : jstring) : jsval :=
  default JUndefined (prop_get fields key).

(** A payload is well formed when no object in it repeats a key. *)
Fixpoint well_formed (v : jsval) : bool :=
  match v with
  | JArr items => forallb well_formed items
  | JObj fields =>
      bool_decide (NoDup (Object_keys fields))
      && forallb (λ '(_, x), well_formed x) fields
  | _ => true
  end.

(** [JSON.stringify] where [canonicalJSON] calls it on a value: on a
    boolean, a number or a string. *)
Definition JSON_stringify (v : jsval) : option jstring :=
  match v with
  | JBool true => Some (js "true")
  | JBool false => Some (js "false")
  | JNum n => Some (js (pretty n))
  | JStr s => Some (quote s)
  | _ => None
  end.

(** *** Hashing *)

(** [canonicalJSON(obj)]; [None] is the result [undefined].  The values of
    an object are serialized once each, and [obj[key]] is read from that
    table: see [canonicalJSON_object] for the equation in the shape of the
    source. *)
Fixpoint canonicalJSON (obj : jsval) : option jstring :=
  match obj with
  | JNull => Some (js "null")
  | JUndefined => None
  | JBool _ | JNum _ | JStr _ => JSON_stringify obj
  | JArr arr =>
      let items := canonicalJSON <$> arr in
      Some (js "[" ++ join (js ",") items ++ js "]")
  | JObj fields =>
      let serialized := (λ '(k, v), (k, canonicalJSON v)) <$> fields in
      let keys := sort str_le (Object_keys fields) in
      let pairs :=
        filter (λ pair, pair ≠ None)
          ((λ key,
              match mjoin (prop_get serialized key) with
              | None => None
              | Some value => Some (quote key ++ js ":" ++ value)
              end) <$> keys) in
      Some (js "{" ++ join (js ",") pairs ++ js "}")
  end.

(** The text that [computeHash] encodes: a string as it is, anything else
    canonicalized.  [encode(undefined)] encodes the empty string. *)
Definition hash_text (content : jsval) : jstring :=
  match content with
  | JStr s => s
  | _ => default [] (canonicalJSON content)
  end.

Definition computeHash (content : jsval) : jstring :=
  let text := hash_text content in
  let data := utf8_encode text in
  let hashBuffer := SHA256.digest data in
  hex_of_bytes hashBuffer.

(** [generateId(prefix, length)]: [random] is the array of [length / 2]
    bytes after [crypto.getRandomValues] has filled it. *)
Definition generateId (prefix : jstring) (random : list N) : jstring :=
  prefix ++ js "_" ++ hex_of_bytes random.

(** *** The object stores *)

(** [type] of a content record and [label] of a version. *)
Inductive content_type := TypeUser | TypeTrifle | TypeFile.
Inductive version_label := Session | Checkpoint.

#[export] Instance content_type_eq_dec : EqDecision content_type.
Proof. solve_decision. Defined.
#[export] Instance version_label_eq_dec : EqDecision version_label.
Proof. solve_decision. Defined.

(** A store with [keyPath] maps the value of that field to the other
    fields of the record; the record read back carries its key again. *)
Module Content.
Record t := Make { data : jsval; type : content_type }.
End Content.

Module User.
Record t := Make {
  email : option jstring;
  current_hash : jstring;
  last_modified : Z;
  logical_clock : Z }.
End User.

Module Trifle.
Record t := Make {
  owner_id : jstring;
  current_hash : jstring;
  last_modified : Z;
  logical_clock : Z }.
End Trifle.

Module Version.
Record t := Make {
  trifle_id : jstring;
  hash : jstring;
  timestamp : Z;
  label : version_label }.
End Version.

#[export] Instance version_eq_dec : EqDecision Version.t.
Proof. solve_decision. Defined.

(** The database: four object stores and the key generator of
    [versions] ([autoIncrement]), which hands out 1, 2, 3, ... and never
    reuses a key. *)
Record DB := MkDB {
  users : gmap jstring User.t;
  trifles : gmap jstring Trifle.t;
  content : gmap jstring Content.t;
  versions : gmap N Version.t;
  versions_next_key : N }.

Definition empty_db : DB := MkDB ∅ ∅ ∅ ∅ 1.

Definition with_users (f : gmap jstring User.t → gmap jstring User.t) (db : DB) : DB :=
  MkDB (f (users db)) (trifles db) (content db) (versions db) (versions_next_key db).
Definition with_trifles (f : gmap jstring Trifle.t → gmap jstring Trifle.t) (db : DB) : DB :=
  MkDB (users db) (f (trifles db)) (content db) (versions db) (versions_next_key db).
Definition with_content (f : gmap jstring Content.t → gmap jstring Content.t) (db : DB) : DB :=
  MkDB (users db) (trifles db) (f (content db)) (versions db) (versions_next_key db).
Definition with_versions (f : gmap N Version.t → gmap N Version.t) (db : DB) : DB :=
  MkDB (users db) (trifles db) (content db) (f (versions db)) (versions_next_key db).

(** *** Promises *)

(** What a promise is rejected with: an [Error] with a message, a
    [TypeError], or [null]. *)
Inductive error :=
| Error (message : jstring)
| TypeError
| Null.

Inductive outcome (A : Type) :=
| Resolved (a : A)
| Rejected (e : error).
Arguments Resolved {A} a.
Arguments Rejected {A} e.

(** An [async] function: the promise's outcome and the database after. *)
Definition async (A : Type) : Type := DB → outcome A * DB.

#[export] Instance async_ret : MRet async := λ A a db, (Resolved a, db).
#[export] Instance async_bind : MBind async := λ A B k m db,
  match m db with
  | (Resolved a, db') => k a db'
  | (Rejected e, db') => (Rejected e, db')
  end.

Definition throw {A} (e : error) : async A := λ db, (Rejected e, db).
Definition read {A} (f : DB → A) : async A := λ db, (Resolved (f db), db).
Definition write (f : DB → DB) : async () := λ db, (Resolved (), f db).

(** [store.add(record)] on a store whose key is in the record, in a
    transaction with [tx.oncomplete = () => resolve(...)] and
    [tx.onerror = () => reject(tx.error)].  When the key is taken the
    request fails and nothing is written.  Its [error] event bubbles to the
    transaction, whose handler reads [tx.error]; the transaction gets its
    error only when it aborts, after the event has been dispatched, so the
    promise is rejected with [null]. *)
Definition add {V} (get : DB → gmap jstring V)
    (set : (gmap jstring V → gmap jstring V) → DB → DB)
    (key : jstring) (record : V) : async () := λ db,
  match get db !! key with
  | Some _ => (Rejected Null, db)
  | None => (Resolved (), set (insert key record) db)
  end.

(** *** Calls in progress

    An [async] function runs up to an [await] and goes on when the awaited
    request has settled; transactions of other calls run in between.  A
    [task] is a call in progress: settled, or waiting for its next
    transaction, which runs in one piece and gives the rest of the call. *)
#[local] Unset Elimination Schemes.
Inductive task (A : Type) :=
| Settled (result : outcome A)
| Await (transaction : DB → task A * DB).
#[local] Set Elimination Schemes.
Arguments Settled {A} result.
Arguments Await {A} transaction.

(** [const b = await m; ...]: a rejection of [m] is thrown, which rejects
    the promise of the function. *)
Definition await {A B} (m : async B) (k : B → task A) : task A :=
  Await (λ db, match m db with
               | (Resolved b, db') => (k b, db')
               | (Rejected e, db') => (Settled (Rejected e), db')
               end).


(** The call awaited, with no transaction of another call between its
    own. *)
Fixpoint complete {A} (t : task A) (db : DB) : outcome A * DB :=
  match t with
  | Settled result => (result, db)
  | Await transaction => let '(t', db') := transaction db in complete t' db'
  end.


(** The records of a store in the order of their keys, as a cursor or
    [getAll] walks them. *)
Definition key_le {V} (a b : N * V) : bool := a.1 <=? b.1.

Definition records {V} (store : gmap N V) : list (N * V) :=
  sort key_le (map_to_list store).

(** [index.getAll(IDBKeyRange.only(trifleId))] on the [trifle_id] index of
    [versions]. *)
Definition versions_of (trifleId : jstring) (store : gmap N Version.t)
    : list (N * Version.t) :=
  filter (λ r, Version.trifle_id r.2 = trifleId) (records store).

(** *** Content *)

Definition storeContent (data : jsval) (type : content_type) : async jstring :=
  let hash := computeHash data in
  _ ← write (with_content (insert hash (Content.Make data type)));
  mret hash.

Definition getContent (hash : jstring) : async jsval :=
  record ← read (λ db, content db !! hash);
  mret (match record with
        | Some record => Content.data record
        | None => JNull
        end).

(** *** Users *)

Definition createUser (random : list N) (now : Z) (displayName : jsval)
    : async (jstring * User.t) :=
  let id := generateId (js "user") random in
  let userData :=
    JObj [(js "display_name", displayName);
          (js "avatar", JNull);
          (js "settings",
           JObj [(js "auto_sync", JBool false);
                 (js "theme", JStr (js "dark"));
                 (js "auto_save_interval", JNum 60)])] in
  hash ← storeContent userData TypeUser;
  let user := User.Make None hash now 1 in
  _ ← add users with_users id user;
  mret (id, user).

Definition getUser (userId : jstring) : async (option User.t) :=
  read (λ db, users db !! userId).

(** [updateUser], transaction by transaction: [getUser] reads the record,
    [storeContent] puts the blob, and the last transaction puts the record
    that was read, with the new hash, the time and its clock incremented.
    [now] is what [Date.now()] returns before the last transaction. *)
Definition updateUser_task (userId : jstring) (userData : jsval) (now : Z)
    : task (jstring * User.t) :=
  await (getUser userId) (λ user,
    match user with
    | None => Settled (Rejected (Error (js "User not found")))
    | Some user =>
        await (storeContent userData TypeUser) (λ hash,
          let user := User.Make (User.email user) hash now
                                (increment (User.logical_clock user)) in
          await (write (with_users (insert userId user))) (λ _,
            Settled (Resolved (userId, user))))
    end).

(** [await updateUser(userId, userData)] with no other call in between. *)
Definition updateUser (userId : jstring) (userData : jsval) (now : Z)
    : async (jstring * User.t) :=
  complete (updateUser_task userId userData now).

Definition getUserData (userId : jstring) : async jsval :=
  user ← getUser userId;
  match user with
  | None => mret JNull
  | Some user => getContent (User.current_hash user)
  end.

(** *** Trifles *)

(** [description] defaults to the empty string. *)

Definition createTrifle (random : list N) (now : Z)
    (ownerId : jstring) (name description : jsval)
    : async (jstring * Trifle.t) :=
  let description :=
    match description with JUndefined => JStr [] | _ => description end in
  let id := generateId (js "trifle") random in
  let mainPyContent :=
    js "# Welcome to Trifle!" ++ [10] ++ js "print(" ++ [34]
    ++ js "Hello, world!" ++ [34] ++ js ")" ++ [10] in
  mainPyHash ← storeContent (JStr mainPyContent) TypeFile;
  let trifleData :=
    JObj [(js "name", name);
          (js "description", description);
          (js "files",
           JArr [JObj [(js "path", JStr (js "main.py"));
                       (js "hash", JStr mainPyHash)]])] in
  hash ← storeContent trifleData TypeTrifle;
  let trifle := Trifle.Make ownerId hash now 1 in
  _ ← add trifles with_trifles id trifle;
  mret (id, trifle).

Definition getTrifle (trifleId : jstring) : async (option Trifle.t) :=
  read (λ db, trifles db !! trifleId).

Definition getTrifleData (trifleId : jstring) : async jsval :=
  trifle ← getTrifle trifleId;
  match trifle with
  | None => mret JNull
  | Some trifle => getContent (Trifle.current_hash trifle)
  end.

(** [updateTrifle], transaction by transaction, as [updateUser]. *)
Definition updateTrifle_task (trifleId : jstring) (trifleData : jsval)
    (now : Z) : task (jstring * Trifle.t) :=
  await (getTrifle trifleId) (λ trifle,
    match trifle with
    | None => Settled (Rejected (Error (js "Trifle not found")))
    | Some trifle =>
        await (storeContent trifleData TypeTrifle) (λ hash,
          let trifle := Trifle.Make (Trifle.owner_id trifle) hash now
                                    (increment (Trifle.logical_clock trifle)) in
          await (write (with_trifles (insert trifleId trifle))) (λ _,
            Settled (Resolved (trifleId, trifle))))
    end).

(** [await updateTrifle(trifleId, trifleData)] with no other call in
    between. *)
Definition updateTrifle (trifleId : jstring) (trifleData : jsval) (now : Z)
    : async (jstring * Trifle.t) :=
  complete (updateTrifle_task trifleId trifleData now).

(** One transaction: the trifle goes, then a cursor over the versions of
    [trifleId] deletes the record it stands on and moves on. *)
Definition deleteTrifle (trifleId : jstring) : async () :=
  _ ← write (with_trifles (delete trifleId));
  cursor ← read (λ db, versions_of trifleId (versions db));
  write (with_versions (λ store, foldl (λ st r, delete r.1 st) store cursor)).

(** *** Versions *)

(** [label] defaults to ['session'].  The key generator gives the new
    record its [id]. *)
Definition createVersion (trifleId hash : jstring)
    (label : option version_label) (now : Z) : async (N * Version.t) :=
  let label := default Session label in
  let version := Version.Make trifleId hash now label in
  id ← read versions_next_key;
  _ ← write (λ db, MkDB (users db) (trifles db) (content db)
                        (<[id := version]> (versions db)) (id + 1));
  mret (id, version).

(** The comparator [(a, b) => b.timestamp - a.timestamp] leaves [a]
    before [b] when its result is not positive: newest first. *)
Definition newer_first (a b : N * Version.t) : bool :=
  (Version.timestamp b.2 - Version.timestamp a.2 <=? 0)%Z.

Definition getVersions (trifleId : jstring) : async (list (N * Version.t)) :=
  result ← read (λ db, versions_of trifleId (versions db));
  mret (sort newer_first result).

(** [keepCount] defaults to 10. *)
Definition cleanupVersions (trifleId : jstring) (keepCount : option Z)
    : async nat :=
  let keepCount := default 10%Z keepCount in
  versions ← getVersions trifleId;
  let sessionVersions :=
    filter (λ v, Version.label v.2 = Session) versions in
  let toDelete := slice sessionVersions keepCount in
  if decide (length toDelete = 0%nat) then mret 0%nat
  else
    _ ← write (with_versions
                 (λ store, foldl (λ st v, delete v.1 st) store toDelete));
    mret (length toDelete).

End TrifleDB.

(** ** The save path of the editor: [web/js/editor.js] *)
Module Editor.
Import JS TrifleDB.

(** An entry of [state.files]. *)
Record file := File { path : jstring; hash : jstring; content : jstring }.

(** The part of the global [state] that saving reads and writes;
    [editorValue] is [state.editor.getValue()] and [savingIndicator] the
    status last passed to [updateSavingIndicator]. *)
Record state := State {
  trifleId : jstring;
  currentFile : option file;
  isDirty : bool;
  editorValue : jstring;
  savingIndicator : jstring }.

(** [obj[key] = value] on an own property: replaced in place, or added
    after the others. *)
Fixpoint obj_set (fields : list (jstring * jsval)) (key : jstring) (value : jsval)
    : list (jstring * jsval) :=
  match fields with
  | [] => [(key, value)]
  | (k, v) :: rest =>
      if decide (k = key) then (k, value) :: rest
      else (k, v) :: obj_set rest key value
  end.

(** [files.findIndex(f => f.path === path)], counting from [i]; [-1] when
    no element matches.  Reading [path] off [null] or [undefined] throws. *)
Fixpoint findIndex_path (files : list jsval) (path : jstring) (i : Z)
    : outcome Z :=
  match files with
  | [] => Resolved (-1)%Z
  | f :: rest =>
      match f with
      | JNull | JUndefined => Rejected TypeError
      | JObj fields =>
          match obj_get fields (js "path") with
          | JStr p =>
              if decide (p = path) then Resolved i
              else findIndex_path rest path (i + 1)
          | _ => findIndex_path rest path (i + 1)
          end
      | _ => findIndex_path rest path (i + 1)
      end
  end.

(** [trifleData.files[fileIndex].hash = newHash], when [fileIndex >= 0]. *)
Definition set_file_hash (trifleData : jsval) (path newHash : jstring)
    : async jsval :=
  match trifleData with
  | JObj fields =>
      match obj_get fields (js "files") with
      | JArr files =>
          match findIndex_path files path 0 with
          | Rejected e => throw e
          | Resolved fileIndex =>
              if (0 <=? fileIndex)%Z then
                let files :=
                  alter (λ f, match f with
                              | JObj ff => JObj (obj_set ff (js "hash") (JStr newHash))
                              | _ => f
                              end) (Z.to_nat fileIndex) files in
                mret (JObj (obj_set fields (js "files") (JArr files)))
              else mret trifleData
          end
      | _ => throw TypeError
      end
  | _ => throw TypeError
  end.

(** The body of the [try] block. *)
Definition save_content (st : state) (f : file) (content : jstring) (now : Z)
    : async jstring :=
  newHash ← storeContent (JStr content) TypeFile;
  trifleData ← getTrifleData (trifleId st);
  trifleData ← set_file_hash trifleData (path f) newHash;
  _ ← updateTrifle (trifleId st) trifleData now;
  mret newHash.

Definition saveCurrentFile (now : Z) (st : state) (db : DB) : state * DB :=
  match currentFile st with
  | None => (st, db)
  | Some f =>
      if negb (isDirty st) then (st, db)
      else
        let content := editorValue st in
        let f := File (path f) (hash f) content in
        match save_content st f content now db with
        | (Resolved newHash, db') =>
            (State (trifleId st) (Some (File (path f) newHash content))
                   false (editorValue st) (js "saved"), db')
        | (Rejected _, db') =>
            (State (trifleId st) (Some f) (isDirty st) (editorValue st)
                   (js "error"), db')
        end
  end.

End Editor.

(** ** The canonical serialization and the hash as the specification words them *)
Module Spec.
Import JS TrifleDB.

Definition is_undefined (v : jsval) : bool :=
  match v with JUndefined => true | _ => false end.

(** Strings put one after the other with a separator between them. *)
Fixpoint separated (sep : jstring) (l : list jstring) : jstring :=
  match l with
  | [] => []
  | [x] => x
  | x :: l' => x ++ sep ++ separated sep l'
  end.

(** Object keys sorted lexicographically, recursively; arrays keep their
    order; [null] is the literal [null]; a field whose value is
    [undefined] is left out.  The specification gives no serialization to
    [undefined] itself, at the top or as an element of an array: there the
    reference is [None].  Each field comes with the serialization of its
    value, then the fields are filtered, sorted and written. *)
Fixpoint canonicalize (v : jsval) : option jstring :=
  match v with
  | JNull => Some (js "null")
  | JUndefined => None
  | JBool _ | JNum _ | JStr _ => JSON_stringify v
  | JArr items =>
      texts ← mapM canonicalize items;
      Some (js "[" ++ separated (js ",") texts ++ js "]")
  | JObj fields =>
      let with_text := (λ '(k, x), (k, (is_undefined x, canonicalize x))) <$> fields in
      let present := filter (λ f, f.2.1 = false) with_text in
      let ordered := sort (λ f g, str_le f.1 g.1) present in
      members ← mapM (λ f, text ← f.2.2; Some (quote f.1 ++ js ":" ++ text)) ordered;
      Some (js "{" ++ separated (js ",") members ++ js "}")
  end.

(** The payloads the words above cover: [undefined] occurs only as the
    value of an object field. *)
Fixpoint covered (v : jsval) : bool :=
  match v with
  | JUndefined => false
  | JArr items => forallb covered items
  | JObj fields => forallb (λ '(_, x), is_undefined x || covered x) fields
  | _ => true
  end.

(** Two lowercase hexadecimal digits for each byte. *)
Definition lower_hex (bytes : list N) : jstring :=
  b ← bytes; [hex_digit (b / 16); hex_digit (b mod 16)].

(** [hash = SHA256(canonicalize(payload))]: the canonical text, or the
    payload itself when it is a string, encoded in UTF-8, hashed, in
    lowercase hexadecimal. *)
Definition hash (payload : jsval) : option jstring :=
  text ← match payload with
         | JStr s => Some s
         | _ => canonicalize payload
         end;
  Some (lower_hex (SHA256.digest (utf8_encode text))).

(** A lowercase hexadecimal digit: [0-9a-f]. *)
Definition is_lower_hex (c : N) : Prop :=
  (48 <= c <= 57) ∨ (97 <= c <= 102).

(** The field of an object that counts for its content: present, with a
    value that is not [undefined]. *)
Definition field (fields : list (jstring * jsval)) (key : jstring) : option jsval :=
  match prop_get fields key with
  | Some JUndefined => None
  | o => o
  end.

(** Equal up to the order of object keys and up to the presence of fields
    whose value is [undefined], at every depth. *)
#[local] Unset Elimination Schemes.
Inductive same_payload : jsval → jsval → Prop :=
| same_null : same_payload JNull JNull
| same_undefined : same_payload JUndefined JUndefined
| same_bool b : same_payload (JBool b) (JBool b)
| same_num n : same_payload (JNum n) (JNum n)
| same_str s : same_payload (JStr s) (JStr s)
| same_arr l1 l2 :
    Forall2 same_payload l1 l2 → same_payload (JArr l1) (JArr l2)
| same_obj o1 o2 :
    (∀ key, option_Forall2 same_payload (field o1 key) (field o2 key)) →
    same_payload (JObj o1) (JObj o2).
#[local] Set Elimination Schemes.

End Spec.

(** ** Sequences of local operations *)
Module Trace.
Import JS TrifleDB.

(** A call of a function of [TrifleDB] that writes, with its arguments
    and what the clock and the random source gave it.  The calls of a
    sequence run one after the other: each is awaited before the next is
    made. *)
Inductive call :=
| StoreContent (data : jsval) (type : content_type)
| CreateUser (random : list N) (now : Z) (displayName : jsval)
| UpdateUser (userId : jstring) (userData : jsval) (now : Z)
| CreateTrifle (random : list N) (now : Z) (ownerId : jstring)
               (name description : jsval)
| UpdateTrifle (trifleId : jstring) (trifleData : jsval) (now : Z)
| DeleteTrifle (trifleId : jstring)
| CreateVersion (trifleId hash : jstring) (label : option version_label) (now : Z)
| CleanupVersions (trifleId : jstring) (keepCount : option Z).

(** The database after the call, whether its promise resolved or not. *)
Definition perform (db : DB) (c : call) : DB :=
  match c with
  | StoreContent data type => (storeContent data type db).2
  | CreateUser random now displayName => (createUser random now displayName db).2
  | UpdateUser userId userData now => (updateUser userId userData now db).2
  | CreateTrifle random now ownerId name description =>
      (createTrifle random now ownerId name description db).2
  | UpdateTrifle trifleId trifleData now => (updateTrifle trifleId trifleData now db).2
  | DeleteTrifle trifleId => (deleteTrifle trifleId db).2
  | CreateVersion trifleId hash label now => (createVersion trifleId hash label now db).2
  | CleanupVersions trifleId keepCount => (cleanupVersions trifleId keepCount db).2
  end.

Definition run (db : DB) (calls : list call) : DB := foldl perform db calls.

(** A database that local operations build from the empty one. *)
Definition reachable (db : DB) : Prop := ∃ calls, db = run empty_db calls.

Definition deletes (trifleId : jstring) (c : call) : Prop :=
  c = DeleteTrifle trifleId.

End Trace.

Import JS TrifleDB.

(** ** Notions used in the statements *)

(** [x] may stay before [y] under the comparison [le]. *)
Definition precedes {A} (le : A → A → bool) : relation A :=
  λ x y, le x y = true.

(** The member that [canonicalJSON] writes for [key], when it writes one:
    the body of the function mapped over the sorted keys. *)
Definition member (fields : list (jstring * jsval)) (key : jstring)
    : option jstring :=
  match canonicalJSON (obj_get fields key) with
  | None => None
  | Some value => Some (quote key ++ js ":" ++ value)
  end.

(** The records of an object store that have a given key. *)
Definition records_with_key `{Countable K} {V} (store : gmap K V) (key : K)
    : list (K * V) :=
  filter (λ r, r.1 = key) (map_to_list store).




(** An operation that leaves the [versions] store and its key generator
    alone. *)
Definition keeps_versions {A} (m : async A) : Prop :=
  ∀ db, versions (m db).2 = versions db
        ∧ versions_next_key (m db).2 = versions_next_key db.

(** A version with label ['session'] that records [hash] for [trifleId] and
    that is in the log [after] and was not [before]. *)
Definition snapshot_recorded (trifleId hash : jstring) (before after : DB)
    : Prop :=
  ∃ key version,
    versions before !! key = None
    ∧ versions after !! key = Some version
    ∧ Version.trifle_id version = trifleId
    ∧ Version.hash version = hash
    ∧ Version.label version = Session.

(** ** Examples *)

Definition example_payload : jsval :=
  JObj [(js "b", JNum 1);
        (js "a", JUndefined);
        (js "A", JArr [JNull; JStr (js "x")])].

Definition example_reordered : jsval :=
  JObj [(js "A", JArr [JNull; JStr (js "x")]);
        (js "c", JUndefined);
        (js "b", JNum 1)].

Definition example_calls : list Trace.call :=
  [Trace.CreateUser [1; 2; 3; 4; 5; 255] 1000 (JStr (js "Zed"));
   Trace.CreateTrifle [0; 0; 0; 0; 0; 1] 1001 (js "user_0102030405ff")
     (JStr (js "sketch")) (JStr []);
   Trace.UpdateTrifle (js "trifle_000000000001") (JObj []) 1002;
   Trace.UpdateTrifle (js "trifle_000000000001") (JObj []) 1003].

Definition example_versions : DB :=
  Trace.run empty_db
    [Trace.CreateVersion (js "trifle_1") (js "h1") None 5;
     Trace.CreateVersion (js "trifle_1") (js "h2") (Some Checkpoint) 7;
     Trace.CreateVersion (js "trifle_1") (js "h3") None 7;
     Trace.CreateVersion (js "trifle_2") (js "h3") None 9;
     Trace.CreateVersion (js "trifle_1") (js "h4") None 3].

Definition example_db : DB := Trace.run empty_db (take 2 example_calls).

Definition example_state : Editor.state :=
  Editor.State (js "trifle_000000000001")
    (Some (Editor.File (js "main.py") [] []))
    true (js "x = 1") [].

(** ** The read side of the database layer: [web/js/db.js] *)
Module Queries.
Import JS TrifleDB.

(** The order of the keys of a store whose keys are strings: IndexedDB
    compares strings by their code units. *)
Definition id_le {V} (a b : jstring * V) : bool := str_le a.1 b.1.

(** The records of such a store as a cursor or an index walks them. *)
Definition records_by_id {V} (store : gmap jstring V) : list (jstring * V) :=
  sort id_le (map_to_list store).

(** [getCurrentUser()]: the record under the first cursor position, or
    [null]. *)
Definition getCurrentUser : async (option (jstring * User.t)) :=
  read (λ db, head (records_by_id (users db))).

(** [getTriflesByOwner(ownerId)]: [getAll] on the [owner_id] index. *)
Definition getTriflesByOwner (ownerId : jstring)
    : async (list (jstring * Trifle.t)) :=
  read (λ db, filter (λ r, Trifle.owner_id r.2 = ownerId)
                (records_by_id (trifles db))).

(** A trifle record as the object that is read back from the store. *)
Definition trifle_object (r : jstring * Trifle.t) : list (jstring * jsval) :=
  [(js "id", JStr r.1);
   (js "owner_id", JStr (Trifle.owner_id r.2));
   (js "current_hash", JStr (Trifle.current_hash r.2));
   (js "last_modified", JNum (Trifle.last_modified r.2));
   (js "logical_clock", JNum (Trifle.logical_clock r.2))].

(** [{ ...a, ...b }]: the properties of [a], then each property of [b]
    assigned in turn. *)
Definition spread (a b : list (jstring * jsval)) : list (jstring * jsval) :=
  foldl (λ o f, Editor.obj_set o f.1 f.2) a b.

(** The body of the loop of [findTriflesByName]: [trifleData] is truthy and
    its [name] is the string [name] exactly when it is an object with that
    property. *)
Definition name_matches (trifleData : jsval) (name : jstring) : bool :=
  match trifleData with
  | JObj fields =>
      match obj_get fields (js "name") with
      | JStr n => bool_decide (n = name)
      | _ => false
      end
  | _ => false
  end.

Fixpoint find_loop (trifles : list (jstring * Trifle.t)) (name : jstring)
    (matches : list jsval) : async (list jsval) :=
  match trifles with
  | [] => mret matches
  | trifle :: rest =>
      trifleData ← getContent (Trifle.current_hash trifle.2);
      if name_matches trifleData name then
        match trifleData with
        | JObj fields =>
            find_loop rest name
              (matches ++ [JObj (spread (trifle_object trifle) fields)])
        | _ => find_loop rest name matches
        end
      else find_loop rest name matches
  end.

Definition findTriflesByName (ownerId name : jstring) : async (list jsval) :=
  trifles ← getTriflesByOwner ownerId;
  find_loop trifles name [].

(** The blob that [createUser] stores. *)
Definition new_user_data (displayName : jsval) : jsval :=
  JObj [(js "display_name", displayName);
        (js "avatar", JNull);
        (js "settings",
         JObj [(js "auto_sync", JBool false);
               (js "theme", JStr (js "dark"));
               (js "auto_save_interval", JNum 60)])].

(** The text of the [main.py] that [createTrifle] stores, and its blob. *)
Definition mainPyContent : jstring :=
  js "# Welcome to Trifle!" ++ [10] ++ js "print(" ++ [34]
  ++ js "Hello, world!" ++ [34] ++ js ")" ++ [10].

Definition new_trifle_data (name description : jsval) : jsval :=
  JObj [(js "name", name);
        (js "description",
         match description with JUndefined => JStr [] | _ => description end);
        (js "files",
         JArr [JObj [(js "path", JStr (js "main.py"));
                     (js "hash", JStr (computeHash (JStr mainPyContent)))]])].

End Queries.

(** ** Invariants of the database *)

(** Every content record is stored under the hash of its data. *)
Definition content_addressed (db : DB) : Prop :=
  ∀ hash record,
    content db !! hash = Some record →
    hash = computeHash (Content.data record).

(** The hash of every pointer has a content record. *)
Definition pointers_resolve (db : DB) : Prop :=
  (∀ id user, users db !! id = Some user →
              is_Some (content db !! User.current_hash user))
  ∧ (∀ id trifle, trifles db !! id = Some trifle →
                  is_Some (content db !! Trifle.current_hash trifle)).

(** The key generator is past every key in use. *)
Definition keys_below_next (db : DB) : Prop :=
  ∀ key, is_Some (versions db !! key) → key < versions_next_key db.

(** One write to an object store, as the functions of [TrifleDB] make
    them: [put] of a content record under the hash of its data, [put] or
    [add] of a pointer whose blob is stored, [delete] of a trifle, [delete]
    of versions by key, [add] of a version under the next key. *)
Inductive write : DB → DB → Prop :=
| write_content db data type :
    write db (with_content
                (insert (computeHash data) (Content.Make data type)) db)
| write_user db id user :
    is_Some (content db !! User.current_hash user) →
    write db (with_users (insert id user) db)
| write_trifle db id trifle :
    is_Some (content db !! Trifle.current_hash trifle) →
    write db (with_trifles (insert id trifle) db)
| write_delete_trifle db id :
    write db (with_trifles (delete id) db)
| write_delete_versions db (deleted : list (N * Version.t)) :
    write db (with_versions
                (λ store, foldl (λ st v, delete v.1 st) store deleted) db)
| write_add_version db version :
    write db (MkDB (users db) (trifles db) (content db)
                (<[versions_next_key db := version]> (versions db))
                (versions_next_key db + 1)).

(** What [findTriflesByName] pushes for one trifle of the owner, if it
    pushes anything. *)
Definition found (db : DB) (name : jstring) (trifle : jstring * Trifle.t)
    : option jsval :=
  match content db !! Trifle.current_hash trifle.2 with
  | Some record =>
      match Content.data record with
      | JObj fields =>
          if Queries.name_matches (JObj fields) name
          then Some (JObj (Queries.spread (Queries.trifle_object trifle) fields))
          else None
      | _ => None
      end
  | None => None
  end.

(** The data of every content record is a well-formed payload. *)
Definition content_well_formed (db : DB) : Prop :=
  ∀ hash record,
    content db !! hash = Some record →
    well_formed (Content.data record) = true.

(** * The files of the open trifle *)

(** [state.files] holds file objects and [state.currentFile] is one of them
    or [null], so a write through [state.currentFile] shows in
    [state.files].  [objects] is the store of the file objects made so far;
    a reference is a position in it.  The worker, the terminal and the
    page are left out. *)
Module Workspace.
Import JS TrifleDB.

Record state := State {
  trifleId : jstring;
  objects : list Editor.file;
  files : list nat;
  currentFile : option nat;
  isDirty : bool;
  editorValue : jstring;
  savingIndicator : jstring }.

Definition set_objects (objs : list Editor.file) (st : state) : state :=
  State (trifleId st) objs (files st) (currentFile st) (isDirty st)
        (editorValue st) (savingIndicator st).

Definition set_files (refs : list nat) (st : state) : state :=
  State (trifleId st) (objects st) refs (currentFile st) (isDirty st)
        (editorValue st) (savingIndicator st).

Definition set_currentFile (ref : option nat) (st : state) : state :=
  State (trifleId st) (objects st) (files st) ref (isDirty st)
        (editorValue st) (savingIndicator st).

Definition set_isDirty (dirty : bool) (st : state) : state :=
  State (trifleId st) (objects st) (files st) (currentFile st) dirty
        (editorValue st) (savingIndicator st).

Definition set_editorValue (text : jstring) (st : state) : state :=
  State (trifleId st) (objects st) (files st) (currentFile st) (isDirty st)
        text (savingIndicator st).

Definition updateSavingIndicator (status : jstring) (st : state) : state :=
  State (trifleId st) (objects st) (files st) (currentFile st) (isDirty st)
        (editorValue st) status.

(** The object [state.currentFile] refers to. *)
Definition current_object (st : state) : option Editor.file :=
  ref ← currentFile st; objects st !! ref.

(** The path of the object behind [ref]. *)
Definition path_of (st : state) (ref : nat) : option jstring :=
  Editor.path <$> objects st !! ref.

(** The [change] listener of the editor session: the state becomes dirty
    and [debouncedSave] clears the indicator.  The save it schedules is a
    later call of [saveCurrentFile]. *)
Definition on_change (st : state) : state :=
  updateSavingIndicator [] (set_isDirty true st).

(** [state.editor.setValue(text, -1)]; [changed] tells whether the session
    reports a change. *)
Definition setValue (text : jstring) (changed : bool) (st : state) : state :=
  let st := set_editorValue text st in
  if changed then on_change st else st.

(** *** [saveCurrentFile]

    The function runs up to its first [await] when it is called, and the
    rest when the awaited promises settle.  [saveCurrentFile_start] is the
    first part; it gives the text that the rest will store, or nothing when
    the function returns at once. *)
Definition saveCurrentFile_start (st : state) : option jstring * state :=
  match currentFile st with
  | None => (None, st)
  | Some ref =>
      if negb (isDirty st) then (None, st)
      else
        let content := editorValue st in
        let objs :=
          alter (λ f, Editor.File (Editor.path f) (Editor.hash f) content)
                ref (objects st) in
        (Some content, updateSavingIndicator (js "saving") (set_objects objs st))
  end.

(** The body of the [try] block, reading [state.currentFile] when it
    runs.  With [state.currentFile] null the callback of [findIndex] throws
    on the first element, and the assignment to [state.currentFile.hash]
    throws after the update. *)
Definition save_body (st : state) (content : jstring) (now : Z)
    : async jstring :=
  newHash ← storeContent (JStr content) TypeFile;
  trifleData ← getTrifleData (trifleId st);
  match current_object st with
  | Some f =>
      trifleData ← Editor.set_file_hash trifleData (Editor.path f) newHash;
      _ ← updateTrifle (trifleId st) trifleData now;
      mret newHash
  | None =>
      match trifleData with
      | JObj fields =>
          match obj_get fields (js "files") with
          | JArr [] =>
              _ ← updateTrifle (trifleId st) trifleData now;
              throw TypeError
          | _ => throw TypeError
          end
      | _ => throw TypeError
      end
  end.

(** The rest of [saveCurrentFile], run with no other event in between. *)
Definition saveCurrentFile_resume (content : jstring) (now : Z)
    (st : state) (db : DB) : state * DB :=
  match save_body st content now db with
  | (Resolved newHash, db') =>
      let objs :=
        match currentFile st with
        | Some ref =>
            alter (λ f, Editor.File (Editor.path f) newHash (Editor.content f))
                  ref (objects st)
        | None => objects st
        end in
      (updateSavingIndicator (js "saved")
         (set_isDirty false (set_objects objs st)), db')
  | (Rejected _, db') => (updateSavingIndicator (js "error") st, db')
  end.

(** [await saveCurrentFile()]. *)
Definition saveCurrentFile (now : Z) (st : state) (db : DB) : state * DB :=
  match saveCurrentFile_start st with
  | (Some content, st) => saveCurrentFile_resume content now st db
  | (None, st) => (st, db)
  end.

(** *** [openFile]

    The save of a dirty file is started and not awaited: [openFile] gives
    back the text of the pending save, and the state in which the rest of
    the save will run. *)
Definition openFile (ref : nat) (changed : bool) (st : state)
    : option jstring * state :=
  let '(pending, st) :=
    if isDirty st && bool_decide (is_Some (currentFile st))
    then saveCurrentFile_start st else (None, st) in
  let st := set_currentFile (Some ref) st in
  let st :=
    setValue (default [] (Editor.content <$> objects st !! ref)) changed st in
  (pending, set_isDirty false st).

(** *** [createFile] *)

(** [trifleData.files.push({ path, hash })]. *)
Definition push_file (trifleData : jsval) (path hash : jstring)
    : async jsval :=
  match trifleData with
  | JObj fields =>
      match obj_get fields (js "files") with
      | JArr entries =>
          let entry := JObj [(js "path", JStr path); (js "hash", JStr hash)] in
          mret (JObj (Editor.obj_set fields (js "files")
                        (JArr (entries ++ [entry]))))
      | _ => throw TypeError
      end
  | _ => throw TypeError
  end.

(** The awaited calls of the [try] block. *)
Definition create_content (st : state) (path content : jstring) (now : Z)
    : async jstring :=
  hash ← storeContent (JStr content) TypeFile;
  trifleData ← getTrifleData (trifleId st);
  trifleData ← push_file trifleData path hash;
  _ ← updateTrifle (trifleId st) trifleData now;
  mret hash.

Definition createFile (path content : jstring) (now : Z) (changed : bool)
    (st : state) (db : DB) : option jstring * state * DB :=
  match create_content st path content now db with
  | (Resolved hash, db') =>
      let newFile := length (objects st) in
      let st := set_objects (objects st ++ [Editor.File path hash content]) st in
      let st := set_files (files st ++ [newFile]) st in
      (openFile newFile changed st, db')
  | (Rejected _, db') => ((None, st), db')
  end.

(** *** [deleteFile] *)

(** [entries.filter(f => f.path !== path)]: reading [path] off [null] or
    [undefined] throws; an entry without a string [path] equal to [path]
    is kept. *)
Fixpoint filter_not_path (entries : list jsval) (path : jstring)
    : outcome (list jsval) :=
  match entries with
  | [] => Resolved []
  | f :: rest =>
      match f with
      | JNull | JUndefined => Rejected TypeError
      | _ =>
          let keep :=
            match f with
            | JObj fields =>
                match obj_get fields (js "path") with
                | JStr p => bool_decide (p ≠ path)
                | _ => true
                end
            | _ => true
            end in
          match filter_not_path rest path with
          | Resolved kept => Resolved (if keep then f :: kept else kept)
          | Rejected e => Rejected e
          end
      end
  end.

(** [trifleData.files = trifleData.files.filter(f => f.path !== path)]. *)
Definition remove_file (trifleData : jsval) (path : jstring) : async jsval :=
  match trifleData with
  | JObj fields =>
      match obj_get fields (js "files") with
      | JArr entries =>
          match filter_not_path entries path with
          | Resolved kept =>
              mret (JObj (Editor.obj_set fields (js "files") (JArr kept)))
          | Rejected e => throw e
          end
      | _ => throw TypeError
      end
  | _ => throw TypeError
  end.

(** The awaited calls of the [try] block. *)
Definition delete_content (st : state) (path : jstring) (now : Z)
    : async () :=
  trifleData ← getTrifleData (trifleId st);
  trifleData ← remove_file trifleData path;
  _ ← updateTrifle (trifleId st) trifleData now;
  mret ().

(** [confirmed] is the answer to [confirm]; [changed] is for the
    [setValue] that follows. *)
Definition deleteFile (file : Editor.file) (confirmed : bool) (now : Z)
    (changed : bool) (st : state) (db : DB) : option jstring * state * DB :=
  if negb confirmed then ((None, st), db)
  else
    match delete_content st (Editor.path file) now db with
    | (Resolved _, db') =>
        let st :=
          set_files
            (filter (λ ref, path_of st ref ≠ Some (Editor.path file))
                    (files st)) st in
        match current_object st with
        | Some current =>
            if decide (Editor.path current = Editor.path file) then
              let st := set_currentFile None st in
              match files st with
              | first :: _ => (openFile first changed st, db')
              | [] => ((None, setValue [] changed st), db')
              end
            else ((None, st), db')
        | None => ((None, st), db')
        end
    | (Rejected _, db') => ((None, st), db')
    end.

End Workspace.

(** The view of a workspace that [Editor.saveCurrentFile] works on. *)
Definition editor_view (st : Workspace.state) : Editor.state :=
  Editor.State (Workspace.trifleId st) (Workspace.current_object st)
    (Workspace.isDirty st) (Workspace.editorValue st)
    (Workspace.savingIndicator st).

(** Every reference of the state is to an object of the store. *)
Definition references_valid (st : Workspace.state) : Prop :=
  (∀ ref, Workspace.currentFile st = Some ref →
          is_Some (Workspace.objects st !! ref))
  ∧ (∀ ref, ref ∈ Workspace.files st →
            is_Some (Workspace.objects st !! ref)).

(** An entry of [trifleData.files] for [path]: an object whose [path] is
    this string. *)
Definition names_path (path : jstring) (entry : jsval) : bool :=
  match entry with
  | JObj fields =>
      match obj_get fields (js "path") with
      | JStr p => bool_decide (p = path)
      | _ => false
      end
  | _ => false
  end.

(** The entry that [createFile] and [syncFilesFromWorker] push. *)
Definition file_entry (path hash : jstring) : jsval :=
  JObj [(js "path", JStr path); (js "hash", JStr hash)].

(** The canonical JSON of the data of the example trifle, and the editor
    with this text typed into [main.py]. *)
Definition example_json : jstring :=
  match getTrifleData (js "trifle_000000000001") example_db with
  | (Resolved trifleData, _) => default [] (canonicalJSON trifleData)
  | (Rejected _, _) => []
  end.

Definition example_json_state : Editor.state :=
  Editor.State (js "trifle_000000000001")
    (Some (Editor.File (js "main.py") [] []))
    true example_json [].

Definition example_workspace : Workspace.state :=
  Workspace.State (js "trifle_000000000001")
    [Editor.File (js "main.py") [] (js "x = 0");
     Editor.File (js "util.py") [] (js "y = 0")]
    [0; 1]%nat (Some 0%nat) true (js "x = 1") [].

(** * The profile page: [web/js/python-env.js] *)

(** The page keeps the user it works for in the global [currentUser].
    [displayName] is what [generateName()] gives. *)
Module Profile.
Import JS TrifleDB Queries.

Definition state := option (jstring * User.t).

(** [userData.display_name]: reading off [null] throws, and a value that
    is not an object has no such property. *)
Definition display_name (userData : jsval) : outcome jsval :=
  match userData with
  | JNull | JUndefined => Rejected TypeError
  | JObj fields => Resolved (obj_get fields (js "display_name"))
  | _ => Resolved JUndefined
  end.

(** [initUser()]; the result is the name passed to [updateUserDisplay]. *)
Definition initUser (random : list N) (now : Z) (displayName : jsval)
    (currentUser : state) (db : DB) : outcome jsval * state * DB :=
  match getCurrentUser db with
  | (Rejected e, db) => (Rejected e, currentUser, db)
  | (Resolved currentUser, db) =>
      let created :=
        match currentUser with
        | Some user => (Resolved user, db)
        | None => createUser random now displayName db
        end in
      match created with
      | (Rejected e, db) => (Rejected e, currentUser, db)
      | (Resolved user, db) =>
          match getUserData user.1 db with
          | (Rejected e, db) => (Rejected e, Some user, db)
          | (Resolved userData, db) =>
              (display_name userData, Some user, db)
          end
      end
  end.

End Profile.

(** * The terminal: class [Terminal] of [web/js/editor.js] *)

(** The terminal is its list of line elements and the styles that stay in
    force from one write to the next.  The input line, the callbacks and
    the scrolling are left out. *)
Module Terminal.
Import JS TrifleDB.

(** A line element holds markup, set through [innerHTML], or text, set
    through [textContent]. *)
Inductive body :=
| InnerHTML (markup : jstring)
| TextContent (text : jstring).

Record line := Line { classes : list jstring; content : body }.

Record t := Make { lines : list line; currentStyles : list jstring }.

(** [new Terminal(...)] and [clear()] leave no line and no style. *)
Definition empty : t := Make [] [].
Definition clear (term : t) : t := Make [] [].

(** [escapeHtml(text)]: what [innerHTML] gives for an element whose
    [textContent] is [text]. *)
Definition escape_unit (c : N) : jstring :=
  if c =? 38 then js "&amp;"
  else if c =? 60 then js "&lt;"
  else if c =? 62 then js "&gt;"
  else if c =? 160 then js "&nbsp;"
  else [c].

Definition escapeHtml (text : jstring) : jstring :=
  flat_map escape_unit text.

(** [s.split(sep)] for a separator of one code unit. *)
Fixpoint split (sep : N) (s : jstring) : list jstring :=
  match s with
  | [] => [[]]
  | c :: rest =>
      if c =? sep then [] :: split sep rest
      else
        match split sep rest with
        | first :: others => (c :: first) :: others
        | [] => [[c]]
        end
  end.

Fixpoint startsWith (s prefix : jstring) : bool :=
  match prefix, s with
  | [], _ => true
  | p :: prefix, c :: s => (c =? p) && startsWith s prefix
  | _ :: _, [] => false
  end.

Definition styleMap : list (jstring * jstring) :=
  [(js "1", js "font-weight: bold");
   (js "2", js "opacity: 0.5");
   (js "3", js "font-style: italic");
   (js "4", js "text-decoration: underline");
   (js "9", js "text-decoration: line-through");
   (js "30", js "color: #000000");
   (js "31", js "color: #cd3131");
   (js "32", js "color: #0dbc79");
   (js "33", js "color: #e5e510");
   (js "34", js "color: #2472c8");
   (js "35", js "color: #bc3fbc");
   (js "36", js "color: #11a8cd");
   (js "37", js "color: #e5e5e5");
   (js "40", js "background-color: #000000");
   (js "41", js "background-color: #cd3131");
   (js "42", js "background-color: #0dbc79");
   (js "43", js "background-color: #e5e510");
   (js "44", js "background-color: #2472c8");
   (js "45", js "background-color: #bc3fbc");
   (js "46", js "background-color: #11a8cd");
   (js "47", js "background-color: #e5e5e5");
   (js "49", js "background-color: transparent")].

(** The opening tag for the styles in force. *)
Definition span_open (styles : list jstring) : jstring :=
  js "<span style=" ++ [34] ++ join (js "; ") (Some <$> styles)
  ++ [34] ++ js ">".

Definition span_close : jstring := js "</span>".

(** The styles that the code [code] replaces. *)
Definition conflicts (code : jstring) (style : jstring) : bool :=
  if startsWith code (js "4") && negb (bool_decide (code = js "4")) then
    startsWith style (js "background-color")
  else if startsWith code (js "3") && negb (bool_decide (code = js "3")) then
    startsWith style (js "color")
  else if bool_decide (code = js "1") || bool_decide (code = js "2") then
    startsWith style (js "font-weight") || startsWith style (js "opacity")
  else if bool_decide (code = js "3") then
    startsWith style (js "font-style")
  else if bool_decide (code = js "4") || bool_decide (code = js "9") then
    startsWith style (js "text-decoration")
  else false.

(** One round of [codes.forEach]. *)
Definition apply_code (styles : list jstring) (code : jstring)
    : list jstring :=
  if bool_decide (code = []) || bool_decide (code = js "0") then []
  else
    match prop_get styleMap code with
    | Some style =>
        filter (λ s, conflicts code s = false) styles ++ [style]
    | None => styles
    end.

Inductive parser_state := STATE_NORMAL | STATE_ESCAPE | STATE_CSI.

(** The variables of the loop of [writeWithAnsi]. *)
Record loop := Loop {
  term : t;
  currentLine : jstring;
  inSpan : bool;
  state : parser_state;
  escapeBuffer : jstring }.

Definition line_start (styles : list jstring) : jstring :=
  match styles with [] => [] | _ => span_open styles end.

Definition has_styles (styles : list jstring) : bool :=
  match styles with [] => false | _ => true end.

Definition emit (markup : jstring) (term : t) : t :=
  Make (lines term ++ [Line [js "terminal-line"] (InnerHTML markup)])
       (currentStyles term).

(** The body of the loop for the code unit [c]. *)
Definition step (l : loop) (c : N) : loop :=
  match state l with
  | STATE_NORMAL =>
      if c =? 27 then Loop (term l) (currentLine l) (inSpan l) STATE_ESCAPE []
      else if c =? 10 then
        let closed :=
          if inSpan l then currentLine l ++ span_close else currentLine l in
        let styles := currentStyles (term l) in
        Loop (emit closed (term l)) (line_start styles) (has_styles styles)
             STATE_NORMAL (escapeBuffer l)
      else
        Loop (term l) (currentLine l ++ escapeHtml [c]) (inSpan l)
             STATE_NORMAL (escapeBuffer l)
  | STATE_ESCAPE =>
      if c =? 91 then Loop (term l) (currentLine l) (inSpan l) STATE_CSI []
      else
        Loop (term l) (currentLine l ++ escapeHtml [27; c]) (inSpan l)
             STATE_NORMAL (escapeBuffer l)
  | STATE_CSI =>
      if (48 <=? c) && (c <=? 57) || (c =? 59) then
        Loop (term l) (currentLine l) (inSpan l) STATE_CSI
             (escapeBuffer l ++ [c])
      else if c =? 109 then
        let closed :=
          if inSpan l then currentLine l ++ span_close else currentLine l in
        let codes :=
          match escapeBuffer l with
          | [] => [js "0"]
          | buffer => split 59 buffer
          end in
        let styles := foldl apply_code (currentStyles (term l)) codes in
        Loop (Make (lines (term l)) styles) (closed ++ line_start styles)
             (has_styles styles) STATE_NORMAL (escapeBuffer l)
      else
        Loop (term l) (currentLine l) (inSpan l) STATE_NORMAL (escapeBuffer l)
  end.

(** The lines after the loop. *)
Definition flush (l : loop) : t :=
  if negb (bool_decide (currentLine l = [])) || inSpan l then
    emit (if inSpan l then currentLine l ++ span_close else currentLine l)
         (term l)
  else term l.

Definition writeWithAnsi (text : jstring) (term : t) : t :=
  let styles := currentStyles term in
  flush (foldl step
           (Loop term (line_start styles) (has_styles styles) STATE_NORMAL [])
           text).

(** The lines of [write] for a type other than ['output']: the last piece
    is left out when it is empty. *)
Definition text_lines (text : jstring) : list jstring :=
  let pieces := split 10 text in
  match last pieces with
  | Some [] => removelast pieces
  | _ => pieces
  end.

Definition line_classes (type : jstring) : list jstring :=
  js "terminal-line"
  :: (if bool_decide (type = js "error") then [js "terminal-error"]
      else if bool_decide (type = js "info") then [js "terminal-info"]
      else []).

(** [write(text, type)]. *)
Definition write (text type : jstring) (term : t) : t :=
  match text with
  | [] => term
  | _ =>
      if bool_decide (type = js "output") then writeWithAnsi text term
      else
        Make (lines term
              ++ map (λ piece, Line (line_classes type) (TextContent piece))
                     (text_lines text))
             (currentStyles term)
  end.

End Terminal.

(** The CSS properties that one style of the terminal sets, as the groups
    in which a new style replaces an old one. *)
Inductive style_group :=
| Background | Foreground | Weight | Slant | Decoration.

#[export] Instance style_group_eq_dec : EqDecision style_group.
Proof. solve_decision. Defined.

Definition group_of (style : jstring) : option style_group :=
  if Terminal.startsWith style (js "background-color") then Some Background
  else if Terminal.startsWith style (js "color") then Some Foreground
  else if Terminal.startsWith style (js "font-weight")
          || Terminal.startsWith style (js "opacity") then Some Weight
  else if Terminal.startsWith style (js "font-style") then Some Slant
  else if Terminal.startsWith style (js "text-decoration") then Some Decoration
  else None.

(** Styles of the table, at most one of each group. *)
Definition well_styled (styles : list jstring) : Prop :=
  Forall (λ style, style ∈ Terminal.styleMap.*2) styles
  ∧ NoDup (group_of <$> styles).

(** A sequence of calls of [write], each with its text and type. *)
Definition writes (calls : list (jstring * jstring)) (term : Terminal.t)
    : Terminal.t :=
  foldl (λ term call, Terminal.write call.1 call.2 term) term calls.

(** The markup of a line that shows [piece] in the styles [styles]. *)
Definition styled_line (styles : list jstring) (piece : jstring) : jstring :=
  Terminal.line_start styles ++ Terminal.escapeHtml piece
  ++ (if Terminal.has_styles styles then Terminal.span_close else []).

Definition markup_line (markup : jstring) : Terminal.line :=
  Terminal.Line [js "terminal-line"] (Terminal.InnerHTML markup).

(** Text that holds no angle bracket. *)
Definition plain (s : jstring) : Prop := Forall (λ c, c ≠ 60 ∧ c ≠ 62) s.

(** Markup in which every [span] that is opened is closed, without
    nesting, and no other tag occurs. *)
Inductive balanced : jstring → Prop :=
| balanced_nil : balanced []
| balanced_text s rest :
    plain s → balanced rest → balanced (s ++ rest)
| balanced_span styles s rest :
    plain s → balanced rest →
    balanced (Terminal.span_open styles ++ s ++ Terminal.span_close ++ rest).

(** A line of the terminal whose markup, if it has any, is balanced. *)
Definition balanced_line (l : Terminal.line) : Prop :=
  match Terminal.content l with
  | Terminal.InnerHTML markup => balanced markup
  | Terminal.TextContent _ => True
  end.

(** The line under construction: balanced markup, followed when a [span]
    is open by its opening tag and text. *)
Definition open_line (inSpan : bool) (line : jstring) : Prop :=
  if inSpan then
    ∃ done styles s,
      line = done ++ Terminal.span_open styles ++ s ∧ balanced done ∧ plain s
  else balanced line.

(** * Files written by the program: [syncFilesFromWorker] *)

Module Sync.
Import JS TrifleDB.

(** [state.files.map(f => [f.path, f.content])]. *)
Definition entries (st : Workspace.state) : list (jstring * jstring) :=
  omap (λ ref, (λ f, (Editor.path f, Editor.content f))
               <$> Workspace.objects st !! ref)
       (Workspace.files st).

(** [new Map(entries).get(path)]: the last entry of a key is the one that
    the map holds. *)
Definition map_get (entries : list (jstring * jstring)) (path : jstring)
    : option jstring :=
  snd <$> last (filter (λ entry, entry.1 = path) entries).

(** The update of [trifleData.files] for one file: the hash of the first
    entry of the path is set, or an entry is pushed. *)
Definition sync_entry (trifleData : jsval) (path hash : jstring)
    : outcome jsval :=
  match trifleData with
  | JObj fields =>
      match obj_get fields (js "files") with
      | JArr entries =>
          match Editor.findIndex_path entries path 0 with
          | Rejected e => Rejected e
          | Resolved fileIndex =>
              let entries :=
                if (0 <=? fileIndex)%Z then
                  alter (λ f, match f with
                              | JObj ff =>
                                  JObj (Editor.obj_set ff (js "hash") (JStr hash))
                              | _ => f
                              end) (Z.to_nat fileIndex) entries
                else entries ++ [file_entry path hash] in
              Resolved (JObj (Editor.obj_set fields (js "files")
                                (JArr entries)))
          end
      | _ => Rejected TypeError
      end
  | _ => Rejected TypeError
  end.

(** [state.files.findIndex(f => f.path === path)], as the object found. *)
Definition local_find (st : Workspace.state) (path : jstring) : option nat :=
  find (λ ref, bool_decide (Workspace.path_of st ref = Some path))
       (Workspace.files st).

(** The update of [state.files] for one file. *)
Definition sync_local (st : Workspace.state) (path content hash : jstring)
    : Workspace.state :=
  match local_find st path with
  | Some ref =>
      Workspace.set_objects
        (alter (λ f, Editor.File (Editor.path f) hash content) ref
               (Workspace.objects st)) st
  | None =>
      Workspace.set_files
        (Workspace.files st ++ [length (Workspace.objects st)])
        (Workspace.set_objects
           (Workspace.objects st ++ [Editor.File path hash content]) st)
  end.

(** The variables of the loop. *)
Record progress := Progress {
  trifleData : jsval;
  hasChanges : bool;
  state : Workspace.state;
  database : DB }.

(** The loop over [workerFiles]; [known] is the map [currentFiles].  The
    flag tells whether the loop went through, and the progress is the one
    at its end or at the exception. *)
Fixpoint sync_loop (workerFiles known : list (jstring * jstring))
    (p : progress) : bool * progress :=
  match workerFiles with
  | [] => (true, p)
  | (path, content) :: rest =>
      if decide (map_get known path = Some content) then
        sync_loop rest known p
      else
        let stored := storeContent (JStr content) TypeFile (database p) in
        let hash := computeHash (JStr content) in
        match sync_entry (trifleData p) path hash with
        | Rejected _ =>
            (false, Progress (trifleData p) (hasChanges p) (state p) stored.2)
        | Resolved data =>
            sync_loop rest known
              (Progress data true (sync_local (state p) path content hash)
                 stored.2)
        end
  end.

(** [syncFilesFromWorker(workerFiles)]: whether it went through, the state
    and the database; when it did not, the terminal shows the error. *)
Definition syncFilesFromWorker (workerFiles : list (jstring * jstring))
    (now : Z) (st : Workspace.state) (db : DB)
    : bool * Workspace.state * DB :=
  let known := entries st in
  match getTrifleData (Workspace.trifleId st) db with
  | (Rejected _, db) => (false, st, db)
  | (Resolved data, db) =>
      match sync_loop workerFiles known (Progress data false st db) with
      | (false, p) => (false, state p, database p)
      | (true, p) =>
          if hasChanges p then
            match updateTrifle (Workspace.trifleId st) (trifleData p) now
                    (database p) with
            | (Resolved _, db) => (true, state p, db)
            | (Rejected _, db) => (false, state p, db)
            end
          else (true, state p, database p)
      end
  end.

End Sync.

(** The state after the loop of [syncFilesFromWorker] when no call fails. *)
Definition synced (workerFiles known : list (jstring * jstring))
    (st : Workspace.state) : Workspace.state :=
  foldl (λ st file,
           if decide (Sync.map_get known file.1 = Some file.2) then st
           else Sync.sync_local st file.1 file.2 (computeHash (JStr file.2)))
        st workerFiles.

(** Data of a trifle whose [files] is an array without [null]. *)
Definition listing (data : jsval) : Prop :=
  ∃ fields entries,
    data = JObj fields
    ∧ obj_get fields (js "files") = JArr entries
    ∧ Forall (λ entry, entry ≠ JNull ∧ entry ≠ JUndefined) entries.

(** [a] comes before [b] in a listing sorted by [le] that keeps records
    that compare as equal in the order [before] of the input. *)
Definition stably {A} (le : A → A → bool) (before : relation A)
    : relation A :=
  λ a b, le a b = true ∧ (le b a = true → before a b).

Definition example_ties : DB :=
  Trace.run empty_db
    [Trace.CreateVersion (js "trifle_1") (js "h1") None 7;
     Trace.CreateVersion (js "trifle_1") (js "h2") None 7].

(** * Properties *)

(** ** [Array.prototype.sort] *)
Section sort_facts.
Context {A : Type} (le : A → A → bool).

Lemma sort_insert_perm x l : sort_insert le x l ≡ₚ x :: l.
Proof.
  induction l as [|y l IH]; simpl; [done|].
  destruct (le x y); [done|].
  rewrite IH. apply Permutation_swap.
Qed.

Lemma sort_perm l : sort le l ≡ₚ l.
Proof.
  induction l as [|x l IH]; simpl; [done|].
  by rewrite sort_insert_perm, IH.
Qed.

Lemma elem_of_sort x l : x ∈ sort le l ↔ x ∈ l.
Proof. by rewrite sort_perm. Qed.

Lemma length_sort l : length (sort le l) = length l.
Proof. by rewrite sort_perm. Qed.

(** A sorted array is left as it is. *)
Lemma sort_insert_head x l :
  Forall (precedes le x) l → sort_insert le x l = x :: l.
Proof.
  destruct 1 as [|y l Hxy _]; simpl; [done|].
  unfold precedes in Hxy. by rewrite Hxy.
Qed.

Lemma sort_sorted_id l : StronglySorted (precedes le) l → sort le l = l.
Proof.
  induction 1 as [|x l _ IH Hx]; simpl; [done|].
  rewrite IH. by apply sort_insert_head.
Qed.

Lemma sort_fmap {B} (f : B → A) l :
  f <$> sort (λ a b, le (f a) (f b)) l = sort le (f <$> l).
Proof.
  induction l as [|x l IH]; csimpl; [done|].
  rewrite <-IH. generalize (sort (λ a b, le (f a) (f b)) l) as s.
  induction s as [|y s IHs]; csimpl; [done|].
  destruct (le (f x) (f y)); csimpl; [done|]. by rewrite IHs.
Qed.

Hypothesis le_total : ∀ x y, le x y = true ∨ le y x = true.
Hypothesis le_trans : ∀ x y z, le x y = true → le y z = true → le x z = true.

Lemma sort_insert_sorted x l :
  StronglySorted (precedes le) l → StronglySorted (precedes le) (sort_insert le x l).
Proof.
  induction 1 as [|y l Hl IH Hy]; simpl.
  - repeat constructor.
  - destruct (le x y) eqn:Hxy.
    + constructor; [by constructor|].
      constructor; [done|].
      eapply Forall_impl; [exact Hy|]. intros z Hz. by eapply le_trans.
    + constructor; [done|].
      rewrite sort_insert_perm. constructor; [|done].
      destruct (le_total x y) as [?|?]; [congruence|done].
Qed.

Lemma sort_sorted l : StronglySorted (precedes le) (sort le l).
Proof.
  induction l as [|x l IH]; simpl; [constructor|].
  by apply sort_insert_sorted.
Qed.

(** The sort is stable: filtering before or after gives the same array. *)
Lemma filter_sort_insert (P : A → Prop) `{!∀ x, Decision (P x)} x l :
  StronglySorted (precedes le) l →
  filter P (sort_insert le x l)
  = if decide (P x) then sort_insert le x (filter P l) else filter P l.
Proof.
  induction 1 as [|y l Hl IH Hy]; simpl.
  - rewrite filter_cons, filter_nil. by destruct (decide (P x)).
  - destruct (le x y) eqn:Hxy.
    + rewrite (filter_cons _ x). destruct (decide (P x)); [|done].
      symmetry. apply sort_insert_head.
      apply Forall_forall. intros z Hz.
      apply list_elem_of_filter in Hz as [_ Hz].
      apply elem_of_cons in Hz as [->|Hz]; [done|].
      rewrite Forall_forall in Hy. eapply le_trans; [done|]. by apply Hy.
    + rewrite (filter_cons _ y), IH.
      rewrite (filter_cons _ y).
      destruct (decide (P x)), (decide (P y)); simpl; try done.
      by rewrite Hxy.
Qed.

Lemma filter_sort (P : A → Prop) `{!∀ x, Decision (P x)} l :
  filter P (sort le l) = sort le (filter P l).
Proof.
  induction l as [|x l IH]; simpl; [done|].
  rewrite filter_sort_insert by apply sort_sorted.
  rewrite filter_cons, IH. by destruct (decide (P x)).
Qed.

End sort_facts.

(** ** The order on strings *)

Lemma str_le_total a b : str_le a b = true ∨ str_le b a = true.
Proof.
  revert b. induction a as [|x a IH]; intros [|y b]; simpl; auto.
  destruct (N.ltb_spec x y), (N.ltb_spec y x); auto; lia.
Qed.

Lemma str_le_trans a b c :
  str_le a b = true → str_le b c = true → str_le a c = true.
Proof.
  revert b c. induction a as [|x a IH]; intros [|y b] [|z c]; simpl; try done.
  destruct (N.ltb_spec x y), (N.ltb_spec y x), (N.ltb_spec y z),
    (N.ltb_spec z y), (N.ltb_spec x z), (N.ltb_spec z x);
    try done; try lia; eauto.
Qed.

Lemma str_le_antisym a b : str_le a b = true → str_le b a = true → a = b.
Proof.
  revert b. induction a as [|x a IH]; intros [|y b]; simpl; try done.
  destruct (N.ltb_spec x y), (N.ltb_spec y x); try done; try lia.
  intros. f_equal; [lia|auto].
Qed.

(** ** Hexadecimal output and the digest *)

(** The first and the last round constant and the first word of the initial
    value, as FIPS 180-4 lists them. *)
Example sha256_constants :
  head SHA256.K = Some 0x428a2f98
  ∧ last SHA256.K = Some 0xc67178f2
  ∧ SHA256.ra SHA256.H0 = 0x6a09e667.
Proof. vm_compute. done. Qed.

(** The digests of the empty message, of [abc] and of a message of two
    blocks. *)
Example sha256_test_vectors :
  hex_of_bytes (SHA256.digest [])
  = js "e3b0c44298fc1c149afbf4c8996fb92427ae41e4649b934ca495991b7852b855"
  ∧ hex_of_bytes (SHA256.digest (utf8_encode (js "abc")))
    = js "ba7816bf8f01cfea414140de5dae2223b00361a396177a9cb410ff61f20015ad"
  ∧ hex_of_bytes (SHA256.digest (replicate 70 97))
    = js "6bd5e5034855a11241f0dee8fc72850ffd9955b28347a86428b5fa19119f6ad0".
Proof. vm_compute. done. Qed.

(** [computeHash] on a string, on an object and on a non-ASCII string. *)
Example computeHash_examples :
  computeHash (JStr (js "hello"))
  = js "2cf24dba5fb0a30e26e83b2ac5b9e29e1b161e5c1fa7425e73043362938b9824"
  ∧ computeHash (JObj [(js "b", JArr [JBool true; JNull]); (js "a", JNum 1)])
    = js "1cc69c7fa23616ca2ec3ee70d24390a6225c8832db8a4c814c7e0e7f942f8668"
  ∧ computeHash (JStr [0xE9; 0x20AC; 0xD83D; 0xDE00])
    = js "df9226927fd572c1ee66eec85de1bb139497614899f36e4e90474cb71f6ef9d0".
Proof. vm_compute. done. Qed.

Arguments SHA256.digest : simpl never.
Arguments utf8_encode : simpl never.
Arguments computeHash : simpl never.

Lemma join_empty_separator {B} (f : B → jstring) (l : list B) :
  join [] ((λ b, Some (f b)) <$> l) = l ≫= f.
Proof.
  induction l as [|x [|y l] IH]; csimpl in *; [done| |].
  - by rewrite app_nil_r.
  - by rewrite IH.
Qed.

Lemma byte_to_hex_table :
  forallb (λ n, bool_decide
                  (padStart0 2 (toString16 (N.of_nat n))
                   = [hex_digit (N.of_nat n / 16); hex_digit (N.of_nat n mod 16)]))
          (seq 0 256) = true.
Proof. vm_compute. reflexivity. Qed.

Lemma byte_to_hex b :
  b < 256 →
  padStart0 2 (toString16 b) = [hex_digit (b / 16); hex_digit (b mod 16)].
Proof.
  intros Hb. pose proof byte_to_hex_table as H.
  rewrite forallb_forall in H.
  assert (Hin : In (N.to_nat b) (seq 0 256)) by (apply in_seq; lia).
  apply H in Hin. rewrite N2Nat.id in Hin.
  by apply bool_decide_eq_true in Hin.
Qed.

Lemma hex_of_bytes_lower_hex bytes :
  Forall (λ b, b < 256) bytes → hex_of_bytes bytes = Spec.lower_hex bytes.
Proof.
  intros Hb. unfold hex_of_bytes, Spec.lower_hex.
  rewrite join_empty_separator.
  induction Hb as [|b l Hb _ IH]; csimpl; [done|].
  by rewrite IH, byte_to_hex.
Qed.

Lemma hex_digit_lower d : d < 16 → Spec.is_lower_hex (hex_digit d).
Proof.
  intros Hd. unfold Spec.is_lower_hex, hex_digit.
  destruct (N.ltb_spec d 10); lia.
Qed.

Lemma lower_hex_length bytes : length (Spec.lower_hex bytes) = (2 * length bytes)%nat.
Proof.
  unfold Spec.lower_hex. induction bytes as [|b l IH]; csimpl; [done|].
  rewrite IH. lia.
Qed.

Lemma lower_hex_digits bytes :
  Forall (λ b, b < 256) bytes → Forall Spec.is_lower_hex (Spec.lower_hex bytes).
Proof.
  unfold Spec.lower_hex. induction 1 as [|b l Hb _ IH]; csimpl; [done|].
  apply Forall_cons_2; [|apply Forall_cons_2; [|done]]; apply hex_digit_lower.
  - apply N.Div0.div_lt_upper_bound. lia.
  - apply N.mod_lt. lia.
Qed.

Lemma be_bytes_bounded count n : Forall (λ b, b < 256) (SHA256.be_bytes count n).
Proof.
  unfold SHA256.be_bytes. apply Forall_fmap, Forall_forall.
  intros i _. simpl. apply N.mod_lt. lia.
Qed.

Lemma be_bytes_length count n : length (SHA256.be_bytes count n) = count.
Proof. unfold SHA256.be_bytes. by rewrite length_fmap, length_seq. Qed.

(** The digest is 32 bytes. *)
Lemma digest_length msg : length (SHA256.digest msg) = 32%nat.
Proof.
  unfold SHA256.digest, SHA256.bytes_of_regs.
  by rewrite !length_app, !be_bytes_length.
Qed.

Lemma digest_bounded msg : Forall (λ b, b < 256) (SHA256.digest msg).
Proof.
  unfold SHA256.digest, SHA256.bytes_of_regs.
  rewrite !Forall_app. repeat split; apply be_bytes_bounded.
Qed.

Lemma computeHash_lower_hex content :
  computeHash content
  = Spec.lower_hex (SHA256.digest (utf8_encode (hash_text content))).
Proof. unfold computeHash. apply hex_of_bytes_lower_hex, digest_bounded. Qed.

Lemma computeHash_length content : length (computeHash content) = 64%nat.
Proof. by rewrite computeHash_lower_hex, lower_hex_length, digest_length. Qed.

Lemma computeHash_digits content : Forall Spec.is_lower_hex (computeHash content).
Proof. rewrite computeHash_lower_hex. apply lower_hex_digits, digest_bounded. Qed.

(** ** Lists *)

Lemma filter_fmap_comm {A B} (f : A → B) (P : B → Prop)
    `{!∀ y, Decision (P y)} (l : list A) :
  filter P (f <$> l) = f <$> filter (λ x, P (f x)) l.
Proof.
  induction l as [|x l IH]; csimpl; [done|].
  rewrite !filter_cons, IH. by destruct (decide (P (f x))).
Qed.

Lemma filter_ext_elem {A} (P Q : A → Prop)
    `{!∀ x, Decision (P x), !∀ x, Decision (Q x)} (l : list A) :
  (∀ x, x ∈ l → P x ↔ Q x) → filter P l = filter Q l.
Proof.
  induction l as [|x l IH]; intros HPQ; [done|].
  rewrite !filter_cons, IH by (intros; apply HPQ; by right).
  assert (P x ↔ Q x) as HPQx by (apply HPQ; left).
  destruct (decide (P x)), (decide (Q x)); tauto.
Qed.

Lemma sort_ext {A} (le1 le2 : A → A → bool) (l : list A) :
  (∀ x y, le1 x y = le2 x y) → sort le1 l = sort le2 l.
Proof.
  intros Hle. induction l as [|x l IH]; simpl; [done|].
  rewrite IH. generalize (sort le2 l) as s.
  induction s as [|y s IHs]; simpl; [done|].
  by rewrite Hle, IHs.
Qed.

Lemma join_defined sep (l : list jstring) :
  join sep (Some <$> l) = Spec.separated sep l.
Proof.
  induction l as [|x [|y l] IH]; csimpl in *; [done..|].
  by rewrite IH.
Qed.

(** ** Payloads *)

(** Induction on a payload, with the hypothesis for every element of an
    array and every value of an object. *)
Lemma jsval_ind (P : jsval → Prop) :
  P JNull → P JUndefined → (∀ b, P (JBool b)) → (∀ n, P (JNum n)) →
  (∀ s, P (JStr s)) →
  (∀ items, Forall P items → P (JArr items)) →
  (∀ fields, Forall (λ f, P f.2) fields → P (JObj fields)) →
  ∀ v, P v.
Proof.
  intros Hnull Hundef Hbool Hnum Hstr Harr Hobj.
  fix IH 1.
  intros [| |b|n|s|items|fields];
    [exact Hnull|exact Hundef|apply Hbool|apply Hnum|apply Hstr| |].
  - apply Harr. induction items as [|x items IHitems]; constructor.
    + apply IH.
    + exact IHitems.
  - apply Hobj. induction fields as [|[k x] fields IHfields]; constructor.
    + apply IH.
    + exact IHfields.
Qed.

Lemma prop_get_fmap {A B} (f : A → B) (fields : list (jstring * A)) key :
  prop_get ((λ '(k, v), (k, f v)) <$> fields) key = f <$> prop_get fields key.
Proof.
  induction fields as [|[k v] fields IH]; csimpl; [done|].
  by destruct (decide (k = key)).
Qed.

Lemma prop_get_Some {A} (fields : list (jstring * A)) key v :
  prop_get fields key = Some v → (key, v) ∈ fields.
Proof.
  induction fields as [|[k x] fields IH]; simpl; [done|].
  destruct (decide (k = key)) as [->|].
  - intros [= ->]. left.
  - intros. right. auto.
Qed.

Lemma prop_get_None {A} (fields : list (jstring * A)) key :
  prop_get fields key = None ↔ key ∉ Object_keys fields.
Proof.
  unfold Object_keys.
  induction fields as [|[k x] fields IH]; csimpl;
    [rewrite elem_of_nil; naive_solver|].
  rewrite not_elem_of_cons, <-IH.
  destruct (decide (k = key)) as [->|Hne].
  - split; [done|]. by intros [Hk _].
  - split; [intros; split; [congruence|done]|by intros [_ ?]].
Qed.

(** Without repeated keys, [obj[key]] is the value listed with [key]. *)
Lemma prop_get_elem {A} (fields : list (jstring * A)) key v :
  NoDup (Object_keys fields) → (key, v) ∈ fields → prop_get fields key = Some v.
Proof.
  unfold Object_keys.
  induction fields as [|[k x] fields IH]; csimpl; [by rewrite elem_of_nil|].
  rewrite NoDup_cons, elem_of_cons. intros [Hk Hnd] [Heq|Hin].
  - simplify_eq. by rewrite decide_True.
  - rewrite decide_False; [auto|].
    intros ->. apply Hk. by apply (list_elem_of_fmap_2 fst _ (key, v)).
Qed.

Lemma canonicalJSON_None v : canonicalJSON v = None ↔ v = JUndefined.
Proof. destruct v as [| |[]| | | |]; simpl; naive_solver. Qed.

Lemma canonicalJSON_object_unfold fields :
  canonicalJSON (JObj fields)
  = Some (js "{"
          ++ join (js ",")
               (filter (λ pair, pair ≠ None)
                  ((λ key,
                      match mjoin (prop_get ((λ '(k, v), (k, canonicalJSON v))
                                               <$> fields) key) with
                      | None => None
                      | Some value => Some (quote key ++ js ":" ++ value)
                      end) <$> sort str_le (Object_keys fields)))
          ++ js "}").
Proof. reflexivity. Qed.

Lemma canonicalJSON_array items :
  canonicalJSON (JArr items)
  = Some (js "[" ++ join (js ",") (canonicalJSON <$> items) ++ js "]").
Proof. reflexivity. Qed.

(** [canonicalJSON] on an object, in the shape of the source: the keys are
    sorted, each is looked up and serialized, and the pairs that are
    [undefined] are filtered out. *)
Lemma canonicalJSON_object fields :
  canonicalJSON (JObj fields)
  = let keys := sort str_le (Object_keys fields) in
    let pairs := filter (λ pair, pair ≠ None) (member fields <$> keys) in
    Some (js "{" ++ join (js ",") pairs ++ js "}").
Proof.
  cbv zeta. rewrite canonicalJSON_object_unfold.
  do 5 f_equal. apply list_fmap_ext. intros _ key _.
  unfold member, obj_get.
  rewrite (prop_get_fmap canonicalJSON).
  destruct (prop_get fields key) as [v|]; simpl; [|done].
  by destruct (canonicalJSON v).
Qed.

(** The keys that are written are those of the fields that count; sorting
    them first or filtering them first is the same. *)
Lemma canonicalJSON_object_sorted fields :
  canonicalJSON (JObj fields)
  = Some (js "{"
          ++ join (js ",")
               (member fields
                  <$> sort str_le (filter (λ key, is_Some (Spec.field fields key))
                                          (Object_keys fields)))
          ++ js "}").
Proof.
  rewrite canonicalJSON_object. cbv zeta. do 4 f_equal.
  rewrite filter_fmap_comm. f_equal.
  rewrite filter_sort by eauto using str_le_total, str_le_trans.
  f_equal. apply list_filter_iff. intros key.
  unfold member, Spec.field, obj_get.
  destruct (prop_get fields key) as [v|] eqn:Hget; simpl.
  - destruct (canonicalJSON v) eqn:Hv.
    + destruct v; simpl in *; try done; split; eauto.
    + apply canonicalJSON_None in Hv as ->. split; [done|]. by intros [? ?].
  - split; [done|]. by intros [? ?].
Qed.

(** ** The reference serialization against [canonicalJSON] *)

Lemma canonicalize_array items :
  Spec.canonicalize (JArr items)
  = (texts ← mapM Spec.canonicalize items;
     Some (js "[" ++ Spec.separated (js ",") texts ++ js "]")).
Proof. reflexivity. Qed.

Lemma canonicalize_object fields :
  Spec.canonicalize (JObj fields)
  = (members ←
       mapM (λ f, text ← f.2.2; Some (quote f.1 ++ js ":" ++ text))
         (sort (λ f g, str_le f.1 g.1)
            (filter (λ f, f.2.1 = false)
               ((λ '(k, x), (k, (Spec.is_undefined x, Spec.canonicalize x)))
                  <$> fields)));
     Some (js "{" ++ Spec.separated (js ",") members ++ js "}")).
Proof. reflexivity. Qed.

Lemma forallb_Forall {A} (f : A → bool) (l : list A) :
  forallb f l = true → Forall (λ x, f x = true) l.
Proof.
  rewrite forallb_forall, Forall_forall. intros H x Hx.
  by apply H, list_elem_of_In.
Qed.

Lemma well_formed_array items :
  well_formed (JArr items) = true → Forall (λ x, well_formed x = true) items.
Proof. simpl. apply forallb_Forall. Qed.

Lemma well_formed_object fields :
  well_formed (JObj fields) = true →
  NoDup (Object_keys fields) ∧ Forall (λ f, well_formed f.2 = true) fields.
Proof.
  simpl. rewrite andb_true_iff, bool_decide_eq_true.
  intros [Hnd Hall]. split; [done|].
  apply forallb_Forall in Hall. eapply Forall_impl; [exact Hall|].
  by intros [k x].
Qed.

(** With no repeated key, the fields that count are the listed ones whose
    value is not [undefined]. *)
Lemma field_elem fields key x :
  NoDup (Object_keys fields) → (key, x) ∈ fields →
  Spec.field fields key = (if Spec.is_undefined x then None else Some x).
Proof.
  intros Hnd Hin. unfold Spec.field.
  rewrite (prop_get_elem fields key x) by done. by destruct x.
Qed.

Lemma is_Some_field fields key :
  is_Some (Spec.field fields key) → key ∈ Object_keys fields.
Proof.
  unfold Spec.field. intros [v Hv].
  destruct (prop_get fields key) as [x|] eqn:Hget; [|done].
  apply prop_get_Some in Hget.
  by apply (list_elem_of_fmap_2 fst _ (key, x)).
Qed.

Lemma member_field fields key x :
  Spec.field fields key = Some x →
  member fields key
  = (text ← canonicalJSON x; Some (quote key ++ js ":" ++ text)).
Proof.
  unfold Spec.field, member, obj_get.
  destruct (prop_get fields key) as [v|]; [|done].
  destruct v; intros; by simplify_eq.
Qed.

Lemma canonicalize_sound v :
  well_formed v = true →
  ∀ s, Spec.canonicalize v = Some s → canonicalJSON v = Some s.
Proof.
  induction v as [| |b|n|s0|items IH|fields IH] using jsval_ind;
    intros Hwf s Hs; try done.
  - (* arrays *)
    apply well_formed_array in Hwf.
    rewrite canonicalize_array in Hs. rewrite canonicalJSON_array.
    destruct (mapM Spec.canonicalize items) as [texts|] eqn:Htexts; [|done].
    simpl in Hs. injection Hs as <-.
    rewrite <-join_defined. do 4 f_equal.
    apply mapM_Some_1 in Htexts.
    induction Htexts as [|x y items texts Hx _ IHitems]; csimpl; [done|].
    apply Forall_cons in IH as [IHx IH], Hwf as [Hwfx Hwf].
    by rewrite (IHx Hwfx y Hx), (IHitems IH Hwf).
  - (* objects *)
    apply well_formed_object in Hwf as [Hnd Hwf].
    rewrite canonicalize_object in Hs. rewrite canonicalJSON_object_sorted.
    set (T := λ '(k, x), (k, (Spec.is_undefined x, Spec.canonicalize x)))
      in Hs.
    rewrite filter_fmap_comm in Hs.
    rewrite <-(sort_fmap (λ f g, str_le f.1 g.1) T) in Hs.
    set (D := sort _ (filter _ fields)) in Hs.
    destruct (mapM _ (T <$> D)) as [members|] eqn:Hmembers; [|done].
    simpl in Hs. injection Hs as <-.
    rewrite <-join_defined. do 4 f_equal.
    apply mapM_Some_1, Forall2_fmap_l in Hmembers.
    assert (HD : sort str_le (filter (λ key, is_Some (Spec.field fields key))
                                (Object_keys fields)) = D.*1).
    { unfold D, Object_keys. rewrite filter_fmap_comm.
      rewrite <-(sort_fmap str_le fst).
      assert (filter (λ f, is_Some (Spec.field fields f.1)) fields
              = filter (λ f, (T f).2.1 = false) fields) as ->.
      { apply filter_ext_elem. intros [k x] Hin. simpl.
        rewrite (field_elem fields k x) by done.
        destruct (Spec.is_undefined x); split; try done.
        all: by intros [? ?]. }
      f_equal. apply sort_ext. by intros [k1 x1] [k2 x2]. }
    rewrite HD.
    assert (Hsub : Forall (λ f, f ∈ fields) D).
    { apply Forall_forall. intros f Hf. unfold D in Hf.
      apply elem_of_sort, list_elem_of_filter in Hf. tauto. }
    assert (Hpres : Forall (λ f, Spec.is_undefined f.2 = false) D).
    { apply Forall_forall. intros [k x] Hf. unfold D in Hf.
      apply elem_of_sort, list_elem_of_filter in Hf. tauto. }
    rewrite Forall_forall in IH, Hwf.
    clear HD. induction Hmembers as [|[k x] y D' members' Hy _ IHD]; csimpl;
      [done|].
    apply Forall_cons in Hsub as [Hin Hsub], Hpres as [Hx Hpres].
    rewrite (IHD Hsub Hpres). f_equal.
    rewrite (member_field fields k x)
      by (rewrite (field_elem fields k x) by done; simpl in Hx; by rewrite Hx).
    simpl in Hy. destruct (Spec.canonicalize x) as [text|] eqn:Htext; [|done].
    pose proof (IH (k, x) Hin (Hwf (k, x) Hin) text Htext) as Hcode.
    simpl in Hcode, Hy. rewrite Hcode. simpl. congruence.
Qed.

(** The reference gives a text to every payload that the specification
    covers. *)
Lemma canonicalize_covered v :
  Spec.covered v = true → is_Some (Spec.canonicalize v).
Proof.
  induction v as [| |[]|n|s0|items IH|fields IH] using jsval_ind;
    intros Hcov; try done.
  - rewrite canonicalize_array.
    assert (is_Some (mapM Spec.canonicalize items)) as [texts ->]; [|done].
    apply mapM_is_Some. simpl in Hcov. apply forallb_Forall in Hcov.
    rewrite Forall_forall in IH, Hcov |- *. intros x Hx. by apply IH, Hcov.
  - rewrite canonicalize_object.
    match goal with |- is_Some (mapM ?m ?l ≫= _) =>
      assert (is_Some (mapM m l)) as [members ->]; [|done] end.
    apply mapM_is_Some, Forall_forall. intros f Hf.
    apply elem_of_sort, list_elem_of_filter in Hf as [Hpresent Hf].
    apply list_elem_of_fmap in Hf as ([k x] & -> & Hin).
    simpl in Hcov, Hpresent |- *. apply forallb_Forall in Hcov.
    rewrite Forall_forall in IH, Hcov.
    specialize (Hcov _ Hin). simpl in Hcov. rewrite Hpresent in Hcov.
    destruct (IH _ Hin Hcov) as [text Htext]. simpl in Htext.
    by rewrite Htext.
Qed.

(** ** The hash *)

(** C1.  The hash function matches the reference definition of the
    specification.  For every well-formed payload: wherever the reference
    serialization (keys sorted lexicographically at every depth, arrays in
    order, [null] as the literal [null], fields whose value is [undefined]
    left out) gives a text, [canonicalJSON] returns that text, and it gives
    one for every payload in which [undefined] occurs only as the value of a
    field; [computeHash] returns the reference hash, which is the SHA-256 of
    the UTF-8 encoding of that text, or of the payload itself when it is a
    string, written as lowercase hexadecimal; and the result always has 64
    characters, all of them in [0-9a-f]. *)
Theorem computeHash_matches_reference payload :
  well_formed payload = true →
  (Spec.covered payload = true → is_Some (Spec.canonicalize payload)) ∧
  (∀ text, Spec.canonicalize payload = Some text →
           canonicalJSON payload = Some text) ∧
  (∀ h, Spec.hash payload = Some h → computeHash payload = h) ∧
  (∀ s, payload = JStr s →
        computeHash payload
        = Spec.lower_hex (SHA256.digest (utf8_encode s))) ∧
  length (computeHash payload) = 64%nat ∧
  Forall Spec.is_lower_hex (computeHash payload).
Proof.
  intros Hwf. split_and!.
  - apply canonicalize_covered.
  - by apply canonicalize_sound.
  - intros h Hh. rewrite computeHash_lower_hex. unfold Spec.hash in Hh.
    destruct (match payload with
              | JStr s => Some s
              | _ => Spec.canonicalize payload
              end) as [text|] eqn:Htext; [|discriminate Hh].
    injection Hh as <-. do 3 f_equal.
    destruct payload; try (injection Htext as <-; reflexivity);
      try discriminate Htext;
      apply canonicalize_sound in Htext; try exact Hwf;
      unfold hash_text; by rewrite Htext.
  - intros s ->. by rewrite computeHash_lower_hex.
  - apply computeHash_length.
  - apply computeHash_digits.
Qed.

Lemma computeHash_matches_reference_witness :
  computeHash example_payload
  = js "97d436b73cef664cd32ce810af9285fb6ad40ab1d95dcb56af59d9170e83522e".
Proof.
  refine (proj1 (proj2 (proj2
            (computeHash_matches_reference example_payload _))) _ _).
  - reflexivity.
  - vm_compute. reflexivity.
Defined.

(** C9.  Canonicalization is not injective on arrays that contain
    [undefined].  An array is serialized by joining the serializations of
    its elements, that of [undefined] is [undefined], and [join] writes
    nothing for it: [[undefined]] and [[]] are different payloads with the
    canonical form [[]] and with the same hash, and [[1, undefined]] has the
    canonical form [[1,]], which is not JSON. *)
Theorem canonicalJSON_not_injective :
  (∀ items, canonicalJSON (JArr items)
            = Some (js "[" ++ join (js ",") (canonicalJSON <$> items) ++ js "]")) ∧
  canonicalJSON JUndefined = None ∧
  (∀ sep, join sep [None] = []) ∧
  JArr [JUndefined] ≠ JArr [] ∧
  canonicalJSON (JArr [JUndefined]) = Some (js "[]") ∧
  canonicalJSON (JArr []) = Some (js "[]") ∧
  computeHash (JArr [JUndefined]) = computeHash (JArr []) ∧
  canonicalJSON (JArr [JNum 1; JUndefined]) = Some (js "[1,]").
Proof.
  split_and!.
  - apply canonicalJSON_array.
  - reflexivity.
  - reflexivity.
  - discriminate.
  - reflexivity.
  - reflexivity.
  - unfold computeHash. reflexivity.
  - vm_compute. reflexivity.
Qed.

(** ** Payloads that differ in key order and in [undefined] fields *)

Lemma field_Some fields key x :
  Spec.field fields key = Some x → (key, x) ∈ fields ∧ x ≠ JUndefined.
Proof.
  unfold Spec.field.
  destruct (prop_get fields key) as [v|] eqn:Hget; [|done].
  apply prop_get_Some in Hget.
  destruct v; intros; simplify_eq; done.
Qed.

(** The keys of the fields that count, in the order [canonicalJSON] writes
    them, are the same for both objects. *)
Lemma counted_keys_sorted o1 o2 :
  NoDup (Object_keys o1) → NoDup (Object_keys o2) →
  (∀ key, is_Some (Spec.field o1 key) ↔ is_Some (Spec.field o2 key)) →
  sort str_le (filter (λ key, is_Some (Spec.field o1 key)) (Object_keys o1))
  = sort str_le (filter (λ key, is_Some (Spec.field o2 key)) (Object_keys o2)).
Proof.
  intros Hnd1 Hnd2 Hsame.
  apply (StronglySorted_unique_strong (precedes str_le)).
  - intros k1 k2 _ _. apply str_le_antisym.
  - apply sort_sorted; eauto using str_le_total, str_le_trans.
  - apply sort_sorted; eauto using str_le_total, str_le_trans.
  - rewrite !sort_perm.
    apply NoDup_Permutation; [by apply NoDup_filter..|].
    intros key. rewrite !list_elem_of_filter.
    split; intros [Hsome _].
    + apply Hsame in Hsome. eauto using is_Some_field.
    + apply Hsame in Hsome. eauto using is_Some_field.
Qed.

Lemma same_payload_canonicalJSON p :
  ∀ q, Spec.same_payload p q →
       well_formed p = true → well_formed q = true →
       canonicalJSON p = canonicalJSON q.
Proof.
  induction p as [| |b|n|s0|items IH|fields IH] using jsval_ind;
    intros q Hsame Hwfp Hwfq; inversion Hsame; subst; try reflexivity.
  - (* arrays: element by element *)
    rewrite !canonicalJSON_array. do 4 f_equal.
    apply well_formed_array in Hwfp, Hwfq. clear Hsame.
    match goal with H : Forall2 _ items _ |- _ =>
      induction H as [|x y items1 items2 Hxy _ IHitems] end; csimpl; [done|].
    apply Forall_cons in IH as [IHx IH], Hwfp as [Hx Hwfp], Hwfq as [Hy Hwfq].
    by rewrite (IHx y Hxy Hx Hy), (IHitems IH Hwfp Hwfq).
  - (* objects: the same keys are written, with the same texts *)
    rename o2 into fields2.
    match goal with H : ∀ key, option_Forall2 _ _ _ |- _ => rename H into Hf end.
    apply well_formed_object in Hwfp as [Hnd1 Hwf1], Hwfq as [Hnd2 Hwf2].
    rewrite !canonicalJSON_object_sorted. do 4 f_equal.
    rewrite <-(counted_keys_sorted fields fields2) by
      (try done; intros key; specialize (Hf key);
       destruct Hf; split; intros [? ?]; by eauto).
    apply Forall_fmap_ext_1, Forall_forall. intros key Hkey.
    apply elem_of_sort, list_elem_of_filter in Hkey as [[x Hx] _].
    specialize (Hf key). rewrite Hx in Hf.
    inversion Hf as [x' y Hxy Hx' Hy|]; subst. symmetry in Hy.
    rewrite (member_field _ _ _ Hx), (member_field _ _ _ Hy).
    apply field_Some in Hx as [Hinx _], Hy as [Hiny _].
    rewrite Forall_forall in IH, Hwf1, Hwf2.
    pose proof (IH _ Hinx y Hxy (Hwf1 _ Hinx) (Hwf2 _ Hiny)) as Hcanon.
    simpl in Hcanon. by rewrite Hcanon.
Qed.

(** C2.  Hashing is deterministic and does not depend on the
    representation.  [canonicalJSON] and [computeHash] are functions of the
    payload, so a repeated call returns the same hash; and two well-formed
    payloads that are equal up to the order of object keys and up to the
    presence of fields whose value is [undefined], at every depth, have the
    same canonical form and the same hash. *)
Theorem computeHash_deterministic p q :
  well_formed p = true → well_formed q = true →
  Spec.same_payload p q →
  computeHash p = computeHash p ∧
  canonicalJSON p = canonicalJSON q ∧
  computeHash p = computeHash q.
Proof.
  intros Hwfp Hwfq Hsame.
  pose proof (same_payload_canonicalJSON p q Hsame Hwfp Hwfq) as Hcanon.
  split_and!; [reflexivity|exact Hcanon|].
  unfold computeHash. do 3 f_equal. unfold hash_text.
  destruct Hsame; try reflexivity; by rewrite Hcanon.
Qed.

Lemma computeHash_deterministic_witness :
  computeHash example_payload = computeHash example_reordered.
Proof.
  refine (proj2 (proj2
            (computeHash_deterministic example_payload example_reordered
               _ _ _))).
  - reflexivity.
  - reflexivity.
  - constructor. intros key. unfold Spec.field.
    destruct (decide (key = js "b")) as [->|Hb];
      [vm_compute; repeat constructor|].
    destruct (decide (key = js "a")) as [->|Ha];
      [vm_compute; repeat constructor|].
    destruct (decide (key = js "A")) as [->|HA];
      [vm_compute; repeat constructor|].
    destruct (decide (key = js "c")) as [->|Hc];
      [vm_compute; repeat constructor|].
    simpl. rewrite !decide_False by congruence. constructor.
Defined.

(** ** The content store *)

Lemma storeContent_eq data type db :
  storeContent data type db
  = (Resolved (computeHash data),
     with_content (insert (computeHash data) (Content.Make data type)) db).
Proof. reflexivity. Qed.

Lemma getContent_eq hash db :
  getContent hash db
  = (Resolved (match content db !! hash with
               | Some record => Content.data record
               | None => JNull
               end), db).
Proof. reflexivity. Qed.

Lemma filter_none {A} (P : A → Prop) `{!∀ x, Decision (P x)} (l : list A) :
  (∀ x, x ∈ l → ¬ P x) → filter P l = [].
Proof.
  induction l as [|x l IH]; intros Hl; [done|].
  rewrite filter_cons, decide_False by (apply Hl; left).
  apply IH. intros y Hy. apply Hl. by right.
Qed.

Lemma filter_key_unique {K V} `{EqDecision K} (l : list (K * V)) key v :
  NoDup l.*1 → (key, v) ∈ l → filter (λ r, r.1 = key) l = [(key, v)].
Proof.
  induction l as [|[k x] l IH]; csimpl; [by rewrite elem_of_nil|].
  rewrite NoDup_cons, elem_of_cons, filter_cons. simpl.
  intros [Hk Hnd] [Heq|Hin].
  - simplify_eq. rewrite decide_True by done. f_equal.
    apply filter_none. intros [k' x'] Hin Heq. simpl in Heq. subst k'.
    apply Hk. by apply (list_elem_of_fmap_2 fst) in Hin.
  - rewrite decide_False; [auto|].
    intros ->. apply Hk. by apply (list_elem_of_fmap_2 fst _ (key, v)).
Qed.

Lemma records_with_key_Some `{Countable K} {V} (store : gmap K V) key v :
  store !! key = Some v → records_with_key store key = [(key, v)].
Proof.
  intros Hv. apply filter_key_unique.
  - apply NoDup_fst_map_to_list.
  - by apply elem_of_map_to_list.
Qed.

Lemma records_with_key_None `{Countable K} {V} (store : gmap K V) key :
  store !! key = None → records_with_key store key = [].
Proof.
  intros Hnone. apply filter_none. intros [k v] Hin Heq. simpl in Heq.
  subst k. apply elem_of_map_to_list in Hin. congruence.
Qed.

(** C3.  The content store deduplicates and [storeContent] is idempotent.
    Storing a payload and storing it again resolve, both times with the hash
    of the payload; after the second call the store holds exactly one
    record under that hash, with the payload as its data; when the type is
    the same both times the second call leaves the database as the first
    left it.  After [storeContent] has returned [h], [getContent(h)] returns
    the payload; and [getContent] of a hash under which nothing is stored
    returns [null]. *)
Theorem storeContent_idempotent data type type' db :
  let h := computeHash data in
  let db1 := (storeContent data type db).2 in
  let db2 := (storeContent data type' db1).2 in
  (storeContent data type db).1 = Resolved h ∧
  (storeContent data type' db1).1 = Resolved h ∧
  records_with_key (content db1) h = [(h, Content.Make data type)] ∧
  records_with_key (content db2) h = [(h, Content.Make data type')] ∧
  (type' = type → db2 = db1) ∧
  getContent h db1 = (Resolved data, db1) ∧
  getContent h db2 = (Resolved data, db2) ∧
  (∀ h', content db !! h' = None → getContent h' db = (Resolved JNull, db)).
Proof.
  intros h db1 db2. subst db1 db2. rewrite !storeContent_eq.
  fold h. clearbody h. cbn [fst snd with_content content].
  split_and!; try reflexivity.
  - apply records_with_key_Some. apply lookup_insert_eq.
  - apply records_with_key_Some. apply lookup_insert_eq.
  - intros ->. unfold with_content. cbn [users trifles content versions
      versions_next_key]. f_equal. apply insert_insert_eq.
  - rewrite getContent_eq. cbn [content with_content].
    by rewrite lookup_insert_eq.
  - rewrite getContent_eq. cbn [content with_content].
    by rewrite lookup_insert_eq.
  - intros h' Hnone. rewrite getContent_eq. by rewrite Hnone.
Qed.

Lemma storeContent_idempotent_witness :
  (storeContent (JStr (js "hello")) TypeFile
     (storeContent (JStr (js "hello")) TypeFile empty_db).2).2
  = (storeContent (JStr (js "hello")) TypeFile empty_db).2
  ∧ getContent (js "0000") empty_db = (Resolved JNull, empty_db).
Proof.
  pose proof (storeContent_idempotent (JStr (js "hello")) TypeFile TypeFile
                empty_db) as (_ & _ & _ & _ & Hsame & _ & _ & Hmiss).
  split.
  - apply Hsame. reflexivity.
  - apply Hmiss. reflexivity.
Defined.

(** C10.  The content store is keyed on the hash alone and [storeContent]
    writes without looking: a store never holds two records under one hash;
    the record written replaces whatever was stored under the hash; storing
    the same payload again with another type leaves the data and sets the
    type to that of the last call; and a different payload with the same
    hash takes the place of the stored one. *)
Theorem storeContent_last_writer_wins data type type' db :
  let h := computeHash data in
  let db1 := (storeContent data type db).2 in
  let db2 := (storeContent data type' db1).2 in
  (∀ h', (length (records_with_key (content db) h') ≤ 1)%nat) ∧
  content db1 = <[h := Content.Make data type]> (content db) ∧
  (storeContent data type' db1).1 = Resolved h ∧
  content db2 = <[h := Content.Make data type']> (content db) ∧
  content db2 !! h = Some (Content.Make data type') ∧
  records_with_key (content db2) h = [(h, Content.Make data type')] ∧
  (∀ data', computeHash data' = h →
            content ((storeContent data' type' db1).2) !! h
            = Some (Content.Make data' type')).
Proof.
  intros h db1 db2. subst db1 db2.
  rewrite !storeContent_eq.
  fold h. clearbody h. 
  cbn [fst snd with_content content].
  split_and!.
  - intros h'. destruct (content db !! h') as [v|] eqn:Hget.
    + by rewrite (records_with_key_Some _ _ _ Hget).
    + rewrite (records_with_key_None _ _ Hget). simpl. lia.
  - reflexivity.
  - reflexivity.
  - apply insert_insert_eq.
  - apply lookup_insert_eq.
  - apply records_with_key_Some. apply lookup_insert_eq.
  - intros data' Hh. rewrite storeContent_eq.
    cbn [fst snd with_content content]. rewrite Hh.
    apply lookup_insert_eq.
Qed.

Lemma storeContent_last_writer_wins_witness :
  content ((storeContent (JArr [JUndefined]) TypeTrifle
              (storeContent (JArr []) TypeUser empty_db).2).2)
    !! computeHash (JArr [])
  = Some (Content.Make (JArr [JUndefined]) TypeTrifle).
Proof.
  refine (proj2 (proj2 (proj2 (proj2 (proj2 (proj2
            (storeContent_last_writer_wins (JArr []) TypeUser TypeTrifle
               empty_db))))))
            (JArr [JUndefined]) _).
  unfold computeHash. reflexivity.
Defined.

(** ** Pointers *)

Lemma updateUser_absent userId userData now db :
  users db !! userId = None →
  updateUser userId userData now db
  = (Rejected (Error (js "User not found")), db).
Proof.
  intros Hnone. unfold updateUser, updateUser_task, await, getUser, read.
  cbn [complete]. by rewrite Hnone.
Qed.

Lemma updateUser_present userId userData now db user :
  users db !! userId = Some user →
  updateUser userId userData now db
  = let hash := computeHash userData in
    let user' := User.Make (User.email user) hash now
                           (increment (User.logical_clock user)) in
    (Resolved (userId, user'),
     with_users (insert userId user')
       (with_content (insert hash (Content.Make userData TypeUser)) db)).
Proof.
  intros Hsome. unfold updateUser, updateUser_task, await, getUser, read.
  cbn [complete]. by rewrite Hsome.
Qed.

Lemma updateTrifle_absent trifleId trifleData now db :
  trifles db !! trifleId = None →
  updateTrifle trifleId trifleData now db
  = (Rejected (Error (js "Trifle not found")), db).
Proof.
  intros Hnone. unfold updateTrifle, updateTrifle_task, await, getTrifle, read.
  cbn [complete]. by rewrite Hnone.
Qed.

Lemma updateTrifle_present trifleId trifleData now db trifle :
  trifles db !! trifleId = Some trifle →
  updateTrifle trifleId trifleData now db
  = let hash := computeHash trifleData in
    let trifle' := Trifle.Make (Trifle.owner_id trifle) hash now
                               (increment (Trifle.logical_clock trifle)) in
    (Resolved (trifleId, trifle'),
     with_trifles (insert trifleId trifle')
       (with_content (insert hash (Content.Make trifleData TypeTrifle)) db)).
Proof.
  intros Hsome. unfold updateTrifle, updateTrifle_task, await, getTrifle, read.
  cbn [complete]. by rewrite Hsome.
Qed.

Lemma createUser_eq random now displayName db :
  ∃ hash db1,
    let id := generateId (js "user") random in
    let user := User.Make None hash now 1 in
    users db1 = users db ∧ trifles db1 = trifles db ∧
    versions db1 = versions db ∧
    createUser random now displayName db
    = match users db !! id with
      | Some _ => (Rejected Null, db1)
      | None => (Resolved (id, user), with_users (insert id user) db1)
      end.
Proof.
  eexists _, (with_content _ db). cbv zeta. split_and!; [done..|].
  unfold createUser, add, mbind, async_bind.
  rewrite storeContent_eq. cbn [users with_content].
  by destruct (users db !! _).
Qed.

Lemma createTrifle_eq random now ownerId name description db :
  ∃ hash db1,
    let id := generateId (js "trifle") random in
    let trifle := Trifle.Make ownerId hash now 1 in
    users db1 = users db ∧ trifles db1 = trifles db ∧
    versions db1 = versions db ∧
    createTrifle random now ownerId name description db
    = match trifles db !! id with
      | Some _ => (Rejected Null, db1)
      | None => (Resolved (id, trifle), with_trifles (insert id trifle) db1)
      end.
Proof.
  eexists _, (with_content _ (with_content _ db)). cbv zeta.
  split_and!; [done..|].
  unfold createTrifle, add, mbind, async_bind.
  rewrite !storeContent_eq. cbn [trifles with_content].
  by destruct (trifles db !! _).
Qed.

Lemma deleteTrifle_eq trifleId db :
  deleteTrifle trifleId db
  = (Resolved (),
     with_versions
       (λ store, foldl (λ st r, delete r.1 st) store
                   (versions_of trifleId (versions db)))
       (with_trifles (delete trifleId) db)).
Proof. reflexivity. Qed.

Lemma createVersion_eq trifleId hash label now db :
  createVersion trifleId hash label now db
  = let id := versions_next_key db in
    let version := Version.Make trifleId hash now (default Session label) in
    (Resolved (id, version),
     MkDB (users db) (trifles db) (content db)
          (<[id := version]> (versions db)) (id + 1)).
Proof. reflexivity. Qed.

Lemma getVersions_eq trifleId db :
  getVersions trifleId db
  = (Resolved (sort newer_first (versions_of trifleId (versions db))), db).
Proof. reflexivity. Qed.

Lemma cleanupVersions_eq trifleId keepCount db :
  cleanupVersions trifleId keepCount db
  = let toDelete :=
      slice (filter (λ v, Version.label v.2 = Session)
               (sort newer_first (versions_of trifleId (versions db))))
            (default 10%Z keepCount) in
    if decide (length toDelete = 0%nat) then (Resolved 0%nat, db)
    else (Resolved (length toDelete),
          with_versions
            (λ store, foldl (λ st v, delete v.1 st) store toDelete) db).
Proof.
  unfold cleanupVersions, mbind, async_bind. rewrite getVersions_eq.
  cbv zeta. by destruct (decide _).
Qed.



(** *** Counting by one *)

Lemma increment_safe n :
  (- 2 ^ 53 ≤ n < 2 ^ 53)%Z → increment n = (n + 1)%Z.
Proof.
  intros Hn. unfold increment, number_value.
  destruct (Z.ltb_spec (Z.abs (n + 1)) (2 ^ 53)) as [|Hbig]; [done|].
  assert (n + 1 = 2 ^ 53)%Z as -> by lia. reflexivity.
Qed.


















(** ** The version log *)

Lemma key_le_total {V} (a b : N * V) : key_le a b = true ∨ key_le b a = true.
Proof. unfold key_le. destruct (N.leb_spec a.1 b.1), (N.leb_spec b.1 a.1); auto; lia. Qed.

Lemma key_le_trans {V} (a b c : N * V) :
  key_le a b = true → key_le b c = true → key_le a c = true.
Proof. unfold key_le. rewrite !N.leb_le. lia. Qed.

Lemma newer_first_total a b : newer_first a b = true ∨ newer_first b a = true.
Proof.
  unfold newer_first.
  destruct (Z.leb_spec (Version.timestamp b.2 - Version.timestamp a.2) 0),
    (Z.leb_spec (Version.timestamp a.2 - Version.timestamp b.2) 0); auto; lia.
Qed.

Lemma newer_first_trans a b c :
  newer_first a b = true → newer_first b c = true → newer_first a c = true.
Proof. unfold newer_first. rewrite !Z.leb_le. lia. Qed.

Lemma elem_of_records {V} (store : gmap N V) key v :
  (key, v) ∈ records store ↔ store !! key = Some v.
Proof. unfold records. by rewrite elem_of_sort, elem_of_map_to_list. Qed.

Lemma NoDup_records_keys {V} (store : gmap N V) : NoDup (records store).*1.
Proof.
  unfold records. rewrite sort_perm. apply NoDup_fst_map_to_list.
Qed.

(** A store that keeps the records of another that satisfy [P] lists them in
    the same order. *)
Lemma records_filter {V} (P : N * V → Prop) `{!∀ r, Decision (P r)}
    (store store' : gmap N V) :
  (∀ key v, store' !! key = Some v ↔ store !! key = Some v ∧ P (key, v)) →
  records store' = filter P (records store).
Proof.
  intros Hkeep. unfold records at 2.
  rewrite (filter_sort key_le key_le_total key_le_trans).
  apply (StronglySorted_unique_strong (precedes key_le)).
  - intros [k1 v1] [k2 v2] H1 H2 Hle1 Hle2.
    unfold precedes, key_le in Hle1, Hle2. simpl in Hle1, Hle2.
    apply N.leb_le in Hle1, Hle2. assert (k1 = k2) as -> by lia.
    apply elem_of_records, Hkeep in H1 as [H1 _].
    apply elem_of_sort, list_elem_of_filter in H2 as [_ H2].
    apply elem_of_map_to_list in H2. congruence.
  - apply sort_sorted; [apply key_le_total|apply key_le_trans].
  - apply sort_sorted; [apply key_le_total|apply key_le_trans].
  - unfold records. rewrite !sort_perm.
    apply NoDup_Permutation.
    + apply NoDup_map_to_list.
    + apply NoDup_filter, NoDup_map_to_list.
    + intros [k v]. rewrite list_elem_of_filter, !elem_of_map_to_list.
      rewrite Hkeep. tauto.
Qed.

Lemma lookup_foldl_delete {V} (l : list (N * V)) (store : gmap N V) key :
  foldl (λ st r, delete r.1 st) store l !! key
  = if decide (key ∈ l.*1) then None else store !! key.
Proof.
  revert store. induction l as [|[k v] l IH]; intros store; csimpl.
  - reflexivity.
  - rewrite IH, lookup_delete.
    destruct (decide (key ∈ l.*1)) as [Hin|Hnotin].
    + rewrite decide_True; [done|]. by right.
    + destruct (decide (k = key)) as [->|Hne].
      * rewrite decide_True; [done|]. left.
      * rewrite decide_False; [done|].
        rewrite elem_of_cons. intros [?|?]; congruence.
Qed.

Lemma elem_of_versions_of trifleId (store : gmap N Version.t) key v :
  (key, v) ∈ versions_of trifleId store
  ↔ store !! key = Some v ∧ Version.trifle_id v = trifleId.
Proof.
  unfold versions_of. rewrite list_elem_of_filter, elem_of_records. tauto.
Qed.

(** Deleting records by key leaves the others listed as they were. *)
Lemma versions_of_filter (P : N * Version.t → Prop) `{!∀ r, Decision (P r)}
    trifleId (store store' : gmap N Version.t) :
  (∀ key v, store' !! key = Some v ↔ store !! key = Some v ∧ P (key, v)) →
  versions_of trifleId store' = filter P (versions_of trifleId store).
Proof.
  intros Hkeep. unfold versions_of.
  rewrite (records_filter P store store' Hkeep).
  rewrite !list_filter_filter. apply list_filter_iff. tauto.
Qed.

(** C6.  Deleting a trifle cascades to its versions and touches nothing
    else.  [deleteTrifle(id)] resolves; afterwards the trifles store is the
    one before without the record of [id], every other pointer unchanged;
    the versions store holds exactly the versions it held whose
    [trifle_id] is not [id], so none of [id] is listed and the versions of
    every other trifle are listed as before; and the content store, with
    every blob the deleted pointer or its versions referred to, the users
    store and the key generator are unchanged. *)
Theorem deleteTrifle_cascade trifleId db :
  ∃ db',
    deleteTrifle trifleId db = (Resolved (), db')
    ∧ trifles db' = delete trifleId (trifles db)
    ∧ trifles db' !! trifleId = None
    ∧ (∀ other, other ≠ trifleId → trifles db' !! other = trifles db !! other)
    ∧ (∀ key v, versions db' !! key = Some v
                ↔ versions db !! key = Some v
                  ∧ Version.trifle_id v ≠ trifleId)
    ∧ versions_of trifleId (versions db') = []
    ∧ (∀ other, other ≠ trifleId →
                versions_of other (versions db')
                = versions_of other (versions db))
    ∧ content db' = content db
    ∧ users db' = users db
    ∧ versions_next_key db' = versions_next_key db.
Proof.
  eexists. split; [apply deleteTrifle_eq|].
  cbn [trifles versions content users versions_next_key
       with_versions with_trifles].
  assert (Hkeep : ∀ key v,
    foldl (λ st r, delete r.1 st) (versions db)
      (versions_of trifleId (versions db)) !! key = Some v
    ↔ versions db !! key = Some v ∧ Version.trifle_id v ≠ trifleId).
  { intros key v. rewrite lookup_foldl_delete. case_decide as Hin.
    - apply list_elem_of_fmap in Hin as ([k x] & -> & Hin).
      apply elem_of_versions_of in Hin as [Hget Hid]. simpl.
      split; [done|]. intros [Hv Hne]. congruence.
    - split; [|tauto]. intros Hget. split; [done|]. intros Hid.
      apply Hin. apply (list_elem_of_fmap_2 fst _ (key, v)).
      by apply elem_of_versions_of. }
  split_and!; try done.
  - apply lookup_delete_eq.
  - intros other Hne. by apply lookup_delete_ne.
  - rewrite (versions_of_filter (λ r, Version.trifle_id r.2 ≠ trifleId)
               trifleId (versions db) _ Hkeep).
    apply filter_none. intros [k v] Hin.
    apply elem_of_versions_of in Hin as [_ Hid]. simpl. tauto.
  - intros other Hne.
    rewrite (versions_of_filter (λ r, Version.trifle_id r.2 ≠ trifleId)
               other (versions db) _ Hkeep).
    unfold versions_of. rewrite list_filter_filter.
    apply list_filter_iff. intros [k v]. simpl. split; [tauto|].
    intros Hid. split; [congruence|done].
Qed.

Lemma slice_nonneg {A} (l : list A) (start : Z) :
  (0 ≤ start)%Z → slice l start = drop (Z.to_nat start) l.
Proof.
  intros Hstart. unfold slice.
  destruct (Z.ltb_spec start 0); [lia|done].
Qed.

Lemma with_versions_id db : with_versions (λ store, store) db = db.
Proof. by destruct db. Qed.

(** [cleanupVersions] without the early return: deleting nothing is
    leaving the store as it is. *)
Lemma cleanupVersions_delete trifleId keepCount db :
  cleanupVersions trifleId keepCount db
  = let toDelete :=
      slice (filter (λ v, Version.label v.2 = Session)
               (sort newer_first (versions_of trifleId (versions db))))
            (default 10%Z keepCount) in
    (Resolved (length toDelete),
     with_versions (λ store, foldl (λ st v, delete v.1 st) store toDelete) db).
Proof.
  rewrite cleanupVersions_eq. cbv zeta.
  destruct (decide _) as [Hlen|]; [|done].
  rewrite Hlen. apply length_zero_iff_nil in Hlen. rewrite Hlen.
  cbn [foldl]. by rewrite with_versions_id.
Qed.

Lemma key_unique {K V} (l : list (K * V)) key v v' :
  NoDup l.*1 → (key, v) ∈ l → (key, v') ∈ l → v = v'.
Proof.
  induction l as [|[k x] l IH]; csimpl; [by rewrite elem_of_nil|].
  rewrite NoDup_cons, !elem_of_cons. intros [Hk Hnd] [H1|H1] [H2|H2].
  - congruence.
  - simplify_eq. destruct Hk. by apply (list_elem_of_fmap_2 fst) in H2.
  - simplify_eq. destruct Hk. by apply (list_elem_of_fmap_2 fst) in H1.
  - by apply IH.
Qed.

Lemma NoDup_keys_filter {K V} (P : K * V → Prop) `{!∀ r, Decision (P r)}
    (l : list (K * V)) :
  NoDup l.*1 → NoDup (filter P l).*1.
Proof.
  induction l as [|[k x] l IH]; csimpl; [done|].
  rewrite NoDup_cons, filter_cons. intros [Hk Hnd].
  destruct (decide (P (k, x))); csimpl; [|by apply IH].
  apply NoDup_cons. split; [|by apply IH].
  intros Hin. apply Hk.
  apply list_elem_of_fmap in Hin as ([k' x'] & -> & Hin).
  apply list_elem_of_filter in Hin as [_ Hin].
  by apply (list_elem_of_fmap_2 fst) in Hin.
Qed.

Lemma NoDup_keys_NoDup {K V} (l : list (K * V)) : NoDup l.*1 → NoDup l.
Proof. apply NoDup_fmap_1. Qed.

Lemma NoDup_versions_of_keys trifleId (store : gmap N Version.t) :
  NoDup (sort newer_first (versions_of trifleId store)).*1.
Proof.
  rewrite sort_perm. apply NoDup_keys_filter, NoDup_records_keys.
Qed.

(** What is kept of a list without repetition when its tail is removed. *)
Lemma filter_not_in_tail {A} `{EqDecision A} (l1 l2 : list A) :
  NoDup (l1 ++ l2) → filter (λ x, x ∉ l2) (l1 ++ l2) = l1.
Proof.
  intros Hnd. rewrite filter_app.
  apply NoDup_app in Hnd as (_ & Hdisj & _).
  rewrite (filter_none _ l2) by (intros x Hx Hnot; by apply Hnot).
  rewrite app_nil_r.
  induction l1 as [|x t IH]; [done|].
  rewrite filter_cons, decide_True by (apply Hdisj; left).
  f_equal. apply IH. intros y Hy. apply Hdisj. by right.
Qed.

Lemma filter_not_in_drop {A} `{EqDecision A} (l : list A) n :
  NoDup l → filter (λ x, x ∉ drop n l) l = take n l.
Proof.
  intros Hnd.
  pose proof (filter_not_in_tail (take n l) (drop n l)) as Htail.
  rewrite take_drop in Htail. by apply Htail.
Qed.

Lemma sorted_newer_first l :
  StronglySorted (precedes newer_first) l →
  StronglySorted (λ a b, (Version.timestamp b.2 ≤ Version.timestamp a.2)%Z) l.
Proof.
  induction 1 as [|x l _ IH Hx]; constructor; [done|].
  eapply Forall_impl; [exact Hx|]. intros y. unfold precedes, newer_first.
  rewrite Z.leb_le. lia.
Qed.

Lemma deleteTrifle_cascade_witness :
  versions_of (js "trifle_2")
    (versions (deleteTrifle (js "trifle_1") example_versions).2)
  = versions_of (js "trifle_2") (versions example_versions).
Proof.
  destruct (deleteTrifle_cascade (js "trifle_1") example_versions)
    as (db' & Hrun & _ & _ & _ & _ & _ & Hother & _).
  rewrite Hrun. cbn [snd]. apply Hother. vm_compute. discriminate.
Defined.

(** C5.  Retention and order of the version log.  [getVersions(id)] lists
    exactly the versions of [id], each once, newest first by [timestamp].
    With a keep count that is not negative (10 when none is given),
    [cleanupVersions(id, keepCount)] deletes exactly the session versions of
    [id] that come after the first [keepCount] of them in that order and
    returns how many they are; no checkpoint version and no version of
    another trifle is deleted, and nothing else in the database changes;
    afterwards the session versions listed are the newest [keepCount], and
    running it again deletes nothing, returns 0 and leaves the database as
    it is. *)
Theorem version_retention trifleId keepCount db :
  let keep := default 10%Z keepCount in
  (0 ≤ keep)%Z →
  ∃ newest db',
    getVersions trifleId db = (Resolved newest, db)
    ∧ (∀ key v, (key, v) ∈ newest
                ↔ versions db !! key = Some v
                  ∧ Version.trifle_id v = trifleId)
    ∧ NoDup newest
    ∧ StronglySorted
        (λ a b, (Version.timestamp b.2 ≤ Version.timestamp a.2)%Z) newest
    ∧ let sessions := filter (λ r, Version.label r.2 = Session) newest in
      let deleted := drop (Z.to_nat keep) sessions in
      cleanupVersions trifleId keepCount db = (Resolved (length deleted), db')
      ∧ (∀ key v, versions db' !! key = Some v
                  ↔ versions db !! key = Some v ∧ (key, v) ∉ deleted)
      ∧ (∀ key v, versions db !! key = Some v →
                  Version.label v = Checkpoint →
                  versions db' !! key = Some v)
      ∧ (∀ key v, versions db !! key = Some v →
                  Version.trifle_id v ≠ trifleId →
                  versions db' !! key = Some v)
      ∧ getVersions trifleId db'
        = (Resolved (filter (λ r, r ∉ deleted) newest), db')
      ∧ filter (λ r, Version.label r.2 = Session)
          (filter (λ r, r ∉ deleted) newest)
        = take (Z.to_nat keep) sessions
      ∧ users db' = users db
      ∧ trifles db' = trifles db
      ∧ content db' = content db
      ∧ versions_next_key db' = versions_next_key db
      ∧ cleanupVersions trifleId keepCount db' = (Resolved 0%nat, db').
Proof.
  intros keep Hkeep.
  set (newest := sort newer_first (versions_of trifleId (versions db))).
  set (sessions := filter (λ r, Version.label r.2 = Session) newest).
  set (deleted := drop (Z.to_nat keep) sessions).
  set (db' := with_versions
                (λ store, foldl (λ st v, delete v.1 st) store deleted) db).
  assert (Hlisted : ∀ key v, (key, v) ∈ newest
             ↔ versions db !! key = Some v ∧ Version.trifle_id v = trifleId).
  { intros key v. unfold newest.
    by rewrite elem_of_sort, elem_of_versions_of. }
  assert (Hkeys : NoDup newest.*1) by apply NoDup_versions_of_keys.
  assert (Hdeleted : ∀ r, r ∈ deleted →
                          r ∈ newest ∧ Version.label r.2 = Session).
  { intros r Hr. apply subseteq_drop in Hr.
    apply list_elem_of_filter in Hr. tauto. }
  assert (Hstore : ∀ key v, versions db' !! key = Some v
             ↔ versions db !! key = Some v ∧ (key, v) ∉ deleted).
  { intros key v. unfold db'. cbn [versions with_versions].
    rewrite lookup_foldl_delete. case_decide as Hin.
    - split; [done|]. intros [Hget Hnot]. destruct Hnot.
      apply list_elem_of_fmap in Hin as ([k x] & -> & Hin).
      destruct (Hdeleted _ Hin) as [Hnewest _].
      apply Hlisted in Hnewest as [Hget' _]. simpl in Hget.
      by simplify_eq.
    - split; [|tauto]. intros Hget. split; [done|]. intros Hdel.
      apply Hin. by apply (list_elem_of_fmap_2 fst) in Hdel. }
  assert (Hafter : sort newer_first (versions_of trifleId (versions db'))
                   = filter (λ r, r ∉ deleted) newest).
  { rewrite (versions_of_filter (λ r, r ∉ deleted) trifleId (versions db))
      by exact Hstore.
    unfold newest.
    by rewrite (filter_sort newer_first newer_first_total newer_first_trans). }
  assert (Hsessions : filter (λ r, Version.label r.2 = Session)
                        (filter (λ r, r ∉ deleted) newest)
                      = take (Z.to_nat keep) sessions).
  { transitivity (filter (λ r, r ∉ deleted) sessions).
    - unfold sessions. rewrite !list_filter_filter.
      apply list_filter_iff. tauto.
    - apply filter_not_in_drop, NoDup_filter. by apply NoDup_keys_NoDup. }
  exists newest, db'. cbv zeta. fold sessions. fold deleted. split_and!.
  - apply getVersions_eq.
  - exact Hlisted.
  - by apply NoDup_keys_NoDup.
  - apply sorted_newer_first, sort_sorted;
      [apply newer_first_total|apply newer_first_trans].
  - rewrite cleanupVersions_delete. cbv zeta.
    fold newest. fold sessions. fold keep.
    by rewrite (slice_nonneg _ _ Hkeep).
  - exact Hstore.
  - intros key v Hget Hlabel. apply Hstore. split; [done|].
    intros Hdel. apply Hdeleted in Hdel as [_ Hsession].
    simpl in Hsession. congruence.
  - intros key v Hget Hid. apply Hstore. split; [done|].
    intros Hdel. apply Hdeleted in Hdel as [Hnewest _].
    apply Hlisted in Hnewest. tauto.
  - rewrite getVersions_eq. by rewrite Hafter.
  - exact Hsessions.
  - reflexivity.
  - reflexivity.
  - reflexivity.
  - reflexivity.
  - rewrite cleanupVersions_eq. cbv zeta. rewrite Hafter, Hsessions.
    fold keep. rewrite (slice_nonneg _ _ Hkeep).
    rewrite decide_True; [done|].
    rewrite length_drop, length_take. lia.
Qed.

Lemma version_retention_witness :
  let db' := (cleanupVersions (js "trifle_1") (Some 1%Z) example_versions).2 in
  cleanupVersions (js "trifle_1") (Some 1%Z) db' = (Resolved 0%nat, db').
Proof.
  destruct (version_retention (js "trifle_1") (Some 1%Z) example_versions)
    as (newest & db' & _ & _ & _ & _ & Hclean
        & _ & _ & _ & _ & _ & _ & _ & _ & _ & Hagain).
  - simpl. lia.
  - cbv zeta. rewrite Hclean. cbn [snd]. exact Hagain.
Defined.

(** ** Who writes to the version log *)

Lemma keeps_versions_ret {A} (a : A) : keeps_versions (mret a).
Proof. by intros db. Qed.

Lemma keeps_versions_throw {A} e : keeps_versions (@throw A e).
Proof. by intros db. Qed.

Lemma keeps_versions_read {A} (f : DB → A) : keeps_versions (read f).
Proof. by intros db. Qed.

Lemma keeps_versions_bind {A B} (m : async A) (k : A → async B) :
  keeps_versions m → (∀ a, keeps_versions (k a)) → keeps_versions (m ≫= k).
Proof.
  intros Hm Hk db. unfold mbind, async_bind.
  destruct (Hm db) as [Hv Hn]. destruct (m db) as [[a|e] db1]; cbn [snd] in *.
  - destruct (Hk a db1) as [Hv' Hn']. split; congruence.
  - by split.
Qed.

Lemma keeps_versions_storeContent data type :
  keeps_versions (storeContent data type).
Proof. intros db. by rewrite storeContent_eq. Qed.

Lemma keeps_versions_getContent hash : keeps_versions (getContent hash).
Proof. intros db. by rewrite getContent_eq. Qed.

Lemma keeps_versions_getTrifleData trifleId :
  keeps_versions (getTrifleData trifleId).
Proof.
  apply keeps_versions_bind; [apply keeps_versions_read|].
  intros [trifle|];
    [apply keeps_versions_getContent|apply keeps_versions_ret].
Qed.

Lemma keeps_versions_updateTrifle trifleId trifleData now :
  keeps_versions (updateTrifle trifleId trifleData now).
Proof.
  intros db. destruct (trifles db !! trifleId) as [trifle|] eqn:Hget.
  - by rewrite (updateTrifle_present _ _ _ _ _ Hget).
  - by rewrite (updateTrifle_absent _ _ _ _ Hget).
Qed.

Lemma keeps_versions_updateUser userId userData now :
  keeps_versions (updateUser userId userData now).
Proof.
  intros db. destruct (users db !! userId) as [user|] eqn:Hget.
  - by rewrite (updateUser_present _ _ _ _ _ Hget).
  - by rewrite (updateUser_absent _ _ _ _ Hget).
Qed.

Lemma keeps_versions_set_file_hash trifleData path newHash :
  keeps_versions (Editor.set_file_hash trifleData path newHash).
Proof.
  unfold Editor.set_file_hash.
  repeat case_match;
    first [apply keeps_versions_ret | apply keeps_versions_throw].
Qed.

Lemma keeps_versions_save_content st f content now :
  keeps_versions (Editor.save_content st f content now).
Proof.
  unfold Editor.save_content.
  apply keeps_versions_bind; [apply keeps_versions_storeContent|].
  intros newHash.
  apply keeps_versions_bind; [apply keeps_versions_getTrifleData|].
  intros trifleData.
  apply keeps_versions_bind; [apply keeps_versions_set_file_hash|].
  intros trifleData'.
  apply keeps_versions_bind; [apply keeps_versions_updateTrifle|].
  intros _. apply keeps_versions_ret.
Qed.

Lemma saveCurrentFile_versions now st db :
  versions (Editor.saveCurrentFile now st db).2 = versions db
  ∧ versions_next_key (Editor.saveCurrentFile now st db).2
    = versions_next_key db.
Proof.
  unfold Editor.saveCurrentFile.
  destruct (Editor.currentFile st) as [f|]; [|done].
  destruct (Editor.isDirty st); [|done]. cbn [negb].
  match goal with |- context [Editor.save_content ?a ?b ?c ?d db] =>
    pose proof (keeps_versions_save_content a b c d db) as Hkeep;
    destruct (Editor.save_content a b c d db) as [[newHash|e] db']
  end; exact Hkeep.
Qed.

(** A call other than [createVersion] adds no version. *)
Lemma perform_versions db c key v :
  versions (Trace.perform db c) !! key = Some v →
  versions db !! key = Some v
  ∨ ∃ trifleId hash label now,
      c = Trace.CreateVersion trifleId hash label now.
Proof.
  destruct c; cbn [Trace.perform]; try (right; by eexists _, _, _, _).
  - rewrite storeContent_eq. by left.
  - destruct (createUser_eq random now displayName db)
      as (hash & db1 & _ & _ & Hv & ->).
    left. destruct (users db !! _); cbn [snd versions with_users] in *;
      congruence.
  - destruct (keeps_versions_updateUser userId userData now db) as [-> _].
    by left.
  - destruct (createTrifle_eq random now ownerId name description db)
      as (hash & db1 & _ & _ & Hv & ->).
    left. destruct (trifles db !! _); cbn [snd versions with_trifles] in *;
      congruence.
  - destruct (keeps_versions_updateTrifle trifleId trifleData now db)
      as [-> _].
    by left.
  - rewrite deleteTrifle_eq. cbn [snd versions with_versions with_trifles].
    rewrite lookup_foldl_delete. case_decide; [done|by left].
  - rewrite cleanupVersions_delete. cbv zeta. cbn [snd versions with_versions].
    rewrite lookup_foldl_delete. case_decide; [done|by left].
Qed.

(** A resolved update records no snapshot, whatever the database. *)
Lemma updateTrifle_no_snapshot trifleId trifleData now db trifle db' :
  updateTrifle trifleId trifleData now db
  = (Resolved (trifleId, trifle), db') →
  ¬ snapshot_recorded trifleId (Trifle.current_hash trifle) db db'.
Proof.
  intros Hrun (key & version & Hbefore & Hafter & _).
  destruct (keeps_versions_updateTrifle trifleId trifleData now db) as [Hv _].
  rewrite Hrun in Hv. cbn [snd] in Hv. congruence.
Qed.

(** C8 as it is stated fails here: an update and a save that go through
    and record no snapshot; the version log is empty before and after. *)
Lemma update_records_no_snapshot :
  (∃ trifle db',
     updateTrifle (js "trifle_000000000001") (JObj []) 1004 example_db
     = (Resolved (js "trifle_000000000001", trifle), db')
     ∧ ¬ snapshot_recorded (js "trifle_000000000001")
           (Trifle.current_hash trifle) example_db db')
  ∧ (let saved := Editor.saveCurrentFile 1005 example_state example_db in
     Editor.savingIndicator saved.1 = js "saved"
     ∧ Editor.isDirty saved.1 = false
     ∧ Trifle.logical_clock
         <$> trifles saved.2 !! js "trifle_000000000001" = Some 2%Z
     ∧ versions saved.2 = ∅).
Proof.
  split.
  - assert (is_Some (trifles example_db !! js "trifle_000000000001"))
      as [trifle Hget]
      by (apply (bool_decide_unpack _); vm_compute; exact I).
    pose proof (updateTrifle_present (js "trifle_000000000001") (JObj [])
                  1004%Z example_db trifle Hget) as Hrun.
    cbv zeta in Hrun. eexists _, _. split; [exact Hrun|].
    exact (updateTrifle_no_snapshot _ _ _ _ _ _ Hrun).
  - cbv zeta. split_and!.
    + vm_compute. reflexivity.
    + vm_compute. reflexivity.
    + vm_compute. reflexivity.
    + destruct (saveCurrentFile_versions 1005 example_state example_db)
        as [-> _].
      vm_compute. reflexivity.
Qed.

(** C8 (amended).  No update of a pointer writes to the version log:
    [updateTrifle], [updateUser] and the save path of the editor,
    [saveCurrentFile], leave the [versions] store and its key generator as
    they were, and of all the calls that write to the database only
    [createVersion] adds a version.  [createVersion(trifleId, hash, label)]
    always resolves and adds one record under the next key, with the given
    hash and label, ['session'] when none is given. *)
Theorem versions_only_by_createVersion :
  (∀ trifleId trifleData now db,
     versions (updateTrifle trifleId trifleData now db).2 = versions db
     ∧ versions_next_key (updateTrifle trifleId trifleData now db).2
       = versions_next_key db)
  ∧ (∀ userId userData now db,
       versions (updateUser userId userData now db).2 = versions db
       ∧ versions_next_key (updateUser userId userData now db).2
         = versions_next_key db)
  ∧ (∀ now st db,
       versions (Editor.saveCurrentFile now st db).2 = versions db
       ∧ versions_next_key (Editor.saveCurrentFile now st db).2
         = versions_next_key db)
  ∧ (∀ db c key v,
       versions (Trace.perform db c) !! key = Some v →
       versions db !! key = Some v
       ∨ ∃ trifleId hash label now,
           c = Trace.CreateVersion trifleId hash label now)
  ∧ (∀ trifleId hash label now db,
       let key := versions_next_key db in
       let version := Version.Make trifleId hash now (default Session label) in
       ∃ db',
         createVersion trifleId hash label now db
         = (Resolved (key, version), db')
         ∧ versions db' = <[key := version]> (versions db)
         ∧ versions_next_key db' = key + 1
         ∧ users db' = users db
         ∧ trifles db' = trifles db
         ∧ content db' = content db).
Proof.
  split_and!.
  - intros. apply keeps_versions_updateTrifle.
  - intros. apply keeps_versions_updateUser.
  - apply saveCurrentFile_versions.
  - apply perform_versions.
  - intros trifleId hash label now db key version.
    rewrite createVersion_eq. by eexists.
Qed.

Lemma versions_only_by_createVersion_witness :
  versions example_versions !! 2 
  = Some (Version.Make (js "trifle_1") (js "h2") 7 Checkpoint)
  ∨ ∃ trifleId hash label now,
      Trace.UpdateTrifle (js "trifle_1") (JObj []) 10
      = Trace.CreateVersion trifleId hash label now.
Proof.
  refine (proj1 (proj2 (proj2 (proj2 versions_only_by_createVersion)))
            example_versions
            (Trace.UpdateTrifle (js "trifle_1") (JObj []) 10) 2 _ _).
  vm_compute. reflexivity.
Defined.

(** * Further properties *)

Import Queries.
(** ** Identifiers *)

Lemma hex_digit_inj d d' : d < 16 → d' < 16 → hex_digit d = hex_digit d' → d = d'.
Proof.
  unfold hex_digit. intros Hd Hd'.
  destruct (N.ltb_spec d 10), (N.ltb_spec d' 10); lia.
Qed.

Lemma lower_hex_inj bytes bytes' :
  Forall (λ b, b < 256) bytes → Forall (λ b, b < 256) bytes' →
  Spec.lower_hex bytes = Spec.lower_hex bytes' → bytes = bytes'.
Proof.
  unfold Spec.lower_hex. intros Hb. revert bytes'.
  induction Hb as [|b l Hb _ IH]; intros [|b' l'] Hb'; csimpl; try done.
  apply Forall_cons in Hb' as [Hb' Hl']. intros [= Hhi Hlo Hrest].
  apply hex_digit_inj in Hhi, Hlo;
    try (apply N.mod_lt; lia); try (apply N.Div0.div_lt_upper_bound; lia).
  f_equal; [|by apply IH].
  rewrite (N.div_mod b 16), (N.div_mod b' 16) by lia. congruence.
Qed.

(** X1.  An identifier is the prefix, an underscore and two lowercase
    hexadecimal digits for each random byte, twelve for the six bytes of the
    default length; and different random bytes give different
    identifiers. *)
Theorem generateId_format prefix random :
  Forall (λ b, b < 256) random →
  generateId prefix random = prefix ++ js "_" ++ Spec.lower_hex random
  ∧ length (generateId prefix random)
    = (length prefix + 1 + 2 * length random)%nat
  ∧ Forall Spec.is_lower_hex (drop (length prefix + 1) (generateId prefix random))
  ∧ (∀ random', Forall (λ b, b < 256) random' →
                generateId prefix random = generateId prefix random' →
                random = random').
Proof.
  intros Hb. unfold generateId. rewrite (hex_of_bytes_lower_hex _ Hb).
  split_and!.
  - done.
  - rewrite !length_app, lower_hex_length. simpl. lia.
  - rewrite <-drop_drop, drop_app_length.
    by apply lower_hex_digits.
  - intros random' Hb'. rewrite (hex_of_bytes_lower_hex _ Hb').
    intros Heq. apply app_inv_head, app_inv_head in Heq.
    by apply lower_hex_inj.
Qed.

Lemma generateId_format_witness :
  length (generateId (js "trifle") [0; 17; 34; 171; 205; 255]) = 19%nat.
Proof.
  refine (proj1 (proj2 (generateId_format (js "trifle")
                          [0; 17; 34; 171; 205; 255] _))).
  repeat constructor.
Defined.

(** ** What the calls write *)

Lemma createUser_run random now displayName db :
  createUser random now displayName db
  = let id := generateId (js "user") random in
    let data := new_user_data displayName in
    let user := User.Make None (computeHash data) now 1 in
    let db1 := with_content
                 (insert (computeHash data) (Content.Make data TypeUser)) db in
    match users db !! id with
    | Some _ => (Rejected Null, db1)
    | None => (Resolved (id, user), with_users (insert id user) db1)
    end.
Proof.
  unfold createUser, add, mbind, async_bind.
  rewrite storeContent_eq. cbn [users with_content]. cbv zeta.
  by destruct (users db !! _).
Qed.

Lemma createTrifle_run random now ownerId name description db :
  createTrifle random now ownerId name description db
  = let id := generateId (js "trifle") random in
    let data := new_trifle_data name description in
    let trifle := Trifle.Make ownerId (computeHash data) now 1 in
    let db1 :=
      with_content
        (insert (computeHash data) (Content.Make data TypeTrifle))
        (with_content
           (insert (computeHash (JStr mainPyContent))
                   (Content.Make (JStr mainPyContent) TypeFile)) db) in
    match trifles db !! id with
    | Some _ => (Rejected Null, db1)
    | None => (Resolved (id, trifle), with_trifles (insert id trifle) db1)
    end.
Proof.
  unfold createTrifle, add, mbind, async_bind.
  rewrite !storeContent_eq. cbn [trifles with_content]. cbv zeta.
  by destruct (trifles db !! _).
Qed.

Lemma write_once db db' : write db db' → rtc write db db'.
Proof. apply rtc_once. Qed.

Lemma perform_writes db c : rtc write db (Trace.perform db c).
Proof.
  destruct c; cbn [Trace.perform].
  - rewrite storeContent_eq. apply write_once, write_content.
  - rewrite createUser_run. cbv zeta.
    eapply rtc_l; [apply write_content|].
    destruct (users db !! _); cbn [snd]; [done|].
    apply write_once, write_user.
    cbn [content with_content User.current_hash].
    by rewrite lookup_insert_eq.
  - destruct (users db !! userId) as [user|] eqn:Hget.
    + rewrite (updateUser_present _ _ _ _ _ Hget). cbv zeta. cbn [snd].
      eapply rtc_l; [apply write_content|].
      apply write_once, write_user.
      cbn [content with_content User.current_hash].
      by rewrite lookup_insert_eq.
    + by rewrite (updateUser_absent _ _ _ _ Hget).
  - rewrite createTrifle_run. cbv zeta.
    eapply rtc_l; [apply write_content|].
    eapply rtc_l; [apply write_content|].
    destruct (trifles db !! _); cbn [snd]; [done|].
    apply write_once, write_trifle.
    cbn [content with_content Trifle.current_hash].
    by rewrite lookup_insert_eq.
  - destruct (trifles db !! trifleId) as [trifle|] eqn:Hget.
    + rewrite (updateTrifle_present _ _ _ _ _ Hget). cbv zeta. cbn [snd].
      eapply rtc_l; [apply write_content|].
      apply write_once, write_trifle.
      cbn [content with_content Trifle.current_hash].
      by rewrite lookup_insert_eq.
    + by rewrite (updateTrifle_absent _ _ _ _ Hget).
  - rewrite deleteTrifle_eq. cbn [snd].
    eapply rtc_l; [apply write_delete_trifle|].
    apply write_once.
    apply (write_delete_versions (with_trifles (delete trifleId) db)).
  - rewrite createVersion_eq. cbv zeta. cbn [snd].
    apply write_once, write_add_version.
  - rewrite cleanupVersions_delete. cbv zeta. cbn [snd].
    apply write_once, write_delete_versions.
Qed.

Lemma run_writes calls : ∀ db, rtc write db (Trace.run db calls).
Proof.
  induction calls as [|c calls IH]; intros db; [done|].
  etrans; [apply perform_writes|apply IH].
Qed.

Lemma write_content_addressed db db' :
  write db db' → content_addressed db → content_addressed db'.
Proof.
  intros Hw Hinv hash record.
  destruct Hw; cbn [content with_content with_users with_trifles with_versions];
    try apply Hinv.
  rewrite lookup_insert. case_decide; [|apply Hinv].
  intros [= <-]. by subst.
Qed.

Lemma write_content_kept db db' hash :
  write db db' → is_Some (content db !! hash) → is_Some (content db' !! hash).
Proof.
  intros Hw Hsome.
  destruct Hw; cbn [content with_content with_users with_trifles with_versions];
    try done.
  rewrite lookup_insert. by case_decide.
Qed.

Lemma write_pointers_resolve db db' :
  write db db' → pointers_resolve db → pointers_resolve db'.
Proof.
  intros Hw [Hu Ht].
  destruct Hw as [db data type|db id0 user0 Hsome|db id0 trifle0 Hsome
                  |db id0|db deleted|db version];
    (split; [intros id user|intros id trifle]);
    cbn [content users trifles with_content with_users with_trifles
         with_versions];
    try apply Hu; try apply Ht.
  - intros Hget. rewrite lookup_insert. case_decide; [done|by eapply Hu].
  - intros Hget. rewrite lookup_insert. case_decide; [done|by eapply Ht].
  - rewrite lookup_insert. case_decide; [|apply Hu]. by intros [= <-].
  - rewrite lookup_insert. case_decide; [|apply Ht]. by intros [= <-].
  - rewrite lookup_delete. case_decide; [done|apply Ht].
Qed.

Lemma write_keys_below_next db db' :
  write db db' → keys_below_next db → keys_below_next db'.
Proof.
  intros Hw Hinv key.
  destruct Hw; cbn [versions versions_next_key with_content with_users
                    with_trifles with_versions]; try apply Hinv.
  - rewrite lookup_foldl_delete. case_decide; [by intros [? ?]|apply Hinv].
  - rewrite lookup_insert. case_decide; [lia|].
    intros Hsome. apply Hinv in Hsome. lia.
Qed.

Lemma rtc_write_invariant (P : DB → Prop) db db' :
  (∀ a b, write a b → P a → P b) → rtc write db db' → P db → P db'.
Proof. intros Hstep. induction 1; eauto. Qed.

Lemma getTrifleData_eq trifleId db :
  getTrifleData trifleId db
  = (Resolved
       (match trifles db !! trifleId with
        | Some trifle =>
            match content db !! Trifle.current_hash trifle with
            | Some record => Content.data record
            | None => JNull
            end
        | None => JNull
        end), db).
Proof.
  unfold getTrifleData, getTrifle, read, mbind, async_bind.
  destruct (trifles db !! trifleId); [|done]. by rewrite getContent_eq.
Qed.

Lemma getUserData_eq userId db :
  getUserData userId db
  = (Resolved
       (match users db !! userId with
        | Some user =>
            match content db !! User.current_hash user with
            | Some record => Content.data record
            | None => JNull
            end
        | None => JNull
        end), db).
Proof.
  unfold getUserData, getUser, read, mbind, async_bind.
  destruct (users db !! userId); [|done]. by rewrite getContent_eq.
Qed.

Lemma reachable_invariant (P : DB → Prop) db :
  (∀ a b, write a b → P a → P b) → P empty_db → Trace.reachable db → P db.
Proof.
  intros Hstep Hempty [calls ->].
  eapply rtc_write_invariant; [exact Hstep|apply run_writes|exact Hempty].
Qed.

(** X2.  The content store stays content addressed and is never pruned.  In
    every database that local calls build from the empty one each content
    record is stored under the hash of its data, so what [getContent(h)]
    returns hashes to [h]; and no sequence of calls removes the record of a
    hash. *)
Theorem content_store_integrity :
  (∀ db, Trace.reachable db → content_addressed db)
  ∧ (∀ db hash record,
       Trace.reachable db → content db !! hash = Some record →
       getContent hash db = (Resolved (Content.data record), db)
       ∧ computeHash (Content.data record) = hash)
  ∧ (∀ calls db hash,
       is_Some (content db !! hash) →
       is_Some (content (Trace.run db calls) !! hash)).
Proof.
  assert (Hinv : ∀ db, Trace.reachable db → content_addressed db).
  { intros db. apply reachable_invariant.
    - apply write_content_addressed.
    - intros hash record. cbn. by rewrite lookup_empty. }
  split_and!.
  - exact Hinv.
  - intros db hash record Hreach Hget. rewrite getContent_eq, Hget.
    split; [done|]. symmetry. by apply (Hinv db Hreach).
  - intros calls db hash.
    apply (rtc_write_invariant (λ d, is_Some (content d !! hash)) db).
    + intros a b. apply write_content_kept.
    + apply run_writes.
Qed.

(** X3.  No pointer dangles.  In every database that local calls build
    from the empty one the [current_hash] of every user and of every trifle
    has a content record, and what [getUserData] and [getTrifleData] return
    for the pointer is data with that hash. *)
Theorem pointers_always_resolve db :
  Trace.reachable db →
  pointers_resolve db
  ∧ (∀ id trifle,
       trifles db !! id = Some trifle →
       ∃ data, getTrifleData id db = (Resolved data, db)
               ∧ computeHash data = Trifle.current_hash trifle
               ∧ (Content.data <$> content db !! Trifle.current_hash trifle)
                 = Some data)
  ∧ (∀ id user,
       users db !! id = Some user →
       ∃ data, getUserData id db = (Resolved data, db)
               ∧ computeHash data = User.current_hash user
               ∧ (Content.data <$> content db !! User.current_hash user)
                 = Some data).
Proof.
  intros Hreach.
  assert (Hres : pointers_resolve db).
  { revert Hreach. apply reachable_invariant.
    - apply write_pointers_resolve.
    - split; intros id x; cbn; by rewrite lookup_empty. }
  assert (Haddr : content_addressed db).
  { revert Hreach. apply reachable_invariant.
    - apply write_content_addressed.
    - intros hash record. cbn. by rewrite lookup_empty. }
  destruct Hres as [Hu Ht]. split_and!.
  - by split.
  - intros id trifle Hget. destruct (Ht _ _ Hget) as [record Hrecord].
    exists (Content.data record). rewrite getTrifleData_eq, Hget, Hrecord.
    split_and!; [done| |done]. symmetry. by apply Haddr.
  - intros id user Hget. destruct (Hu _ _ Hget) as [record Hrecord].
    exists (Content.data record). rewrite getUserData_eq, Hget, Hrecord.
    split_and!; [done| |done]. symmetry. by apply Haddr.
Qed.

Lemma content_store_integrity_witness :
  content_addressed (Trace.run empty_db example_calls).
Proof.
  refine (proj1 content_store_integrity (Trace.run empty_db example_calls) _).
  by exists example_calls.
Defined.

Lemma pointers_always_resolve_witness :
  pointers_resolve (Trace.run empty_db example_calls).
Proof.
  refine (proj1 (pointers_always_resolve (Trace.run empty_db example_calls) _)).
  by exists example_calls.
Defined.

(** ** Writing and reading back *)

(** X4.  What an update stores is what the next read returns.  After
    [updateTrifle(id, data)] on a trifle that exists, [getTrifle(id)] returns
    the updated pointer and [getTrifleData(id)] returns [data]; the same for
    [updateUser] and [getUserData]; and storing content with another hash
    in between does not change what is read. *)
Theorem update_then_read id data now db :
  (∀ trifle,
     trifles db !! id = Some trifle →
     let db' := (updateTrifle id data now db).2 in
     getTrifle id db'
     = (Resolved (Some (Trifle.Make (Trifle.owner_id trifle)
                          (computeHash data) now
                          (increment (Trifle.logical_clock trifle)))), db')
     ∧ getTrifleData id db' = (Resolved data, db')
     ∧ getContent (computeHash data) db' = (Resolved data, db')
     ∧ (∀ other type,
          computeHash other ≠ computeHash data →
          (getTrifleData id (storeContent other type db').2).1
          = Resolved data))
  ∧ (∀ user,
       users db !! id = Some user →
       let db' := (updateUser id data now db).2 in
       getUser id db'
       = (Resolved (Some (User.Make (User.email user) (computeHash data) now
                            (increment (User.logical_clock user)))), db')
       ∧ getUserData id db' = (Resolved data, db')
       ∧ getContent (computeHash data) db' = (Resolved data, db')
       ∧ (∀ other type,
            computeHash other ≠ computeHash data →
            (getUserData id (storeContent other type db').2).1
            = Resolved data)).
Proof.
  split.
  - intros trifle Hget db'. subst db'.
    rewrite (updateTrifle_present _ _ _ _ _ Hget). cbv zeta. cbn [snd].
    generalize (computeHash data) as h. intros h.
    split_and!.
    + unfold getTrifle, read. cbn [trifles with_trifles].
      by rewrite lookup_insert_eq.
    + rewrite getTrifleData_eq.
      cbn [trifles content with_trifles with_content Trifle.current_hash].
      by rewrite !lookup_insert_eq.
    + rewrite getContent_eq. cbn [content with_trifles with_content].
      by rewrite lookup_insert_eq.
    + intros other type Hne. rewrite storeContent_eq, getTrifleData_eq.
      cbn [fst snd trifles content with_trifles with_content
           Trifle.current_hash].
      rewrite lookup_insert_eq, lookup_insert_ne by done.
      by rewrite lookup_insert_eq.
  - intros user Hget db'. subst db'.
    rewrite (updateUser_present _ _ _ _ _ Hget). cbv zeta. cbn [snd].
    generalize (computeHash data) as h. intros h.
    split_and!.
    + unfold getUser, read. cbn [users with_users].
      by rewrite lookup_insert_eq.
    + rewrite getUserData_eq.
      cbn [users content with_users with_content User.current_hash].
      by rewrite !lookup_insert_eq.
    + rewrite getContent_eq. cbn [content with_users with_content].
      by rewrite lookup_insert_eq.
    + intros other type Hne. rewrite storeContent_eq, getUserData_eq.
      cbn [fst snd users content with_users with_content User.current_hash].
      rewrite lookup_insert_eq, lookup_insert_ne by done.
      by rewrite lookup_insert_eq.
Qed.

Lemma update_then_read_witness :
  (getTrifleData (js "trifle_000000000001")
     (updateTrifle (js "trifle_000000000001") (JArr [JNum 7]) 2000
        (Trace.run empty_db example_calls)).2).1
  = Resolved (JArr [JNum 7]).
Proof.
  assert (is_Some (trifles (Trace.run empty_db example_calls)
                     !! js "trifle_000000000001")) as [trifle Hget]
    by (apply (bool_decide_unpack _); vm_compute; exact I).
  pose proof (proj1 (update_then_read (js "trifle_000000000001")
                       (JArr [JNum 7]) 2000%Z
                       (Trace.run empty_db example_calls)) trifle Hget)
    as (_ & Hread & _).
  cbv zeta in Hread. by rewrite Hread.
Defined.

(** X5.  A pointer that has just been created reads back.  When the
    generated id is free, [createTrifle] resolves with a pointer of the
    given owner and time, after which [getTrifleData] returns the name, the
    description (the empty string when none is given) and one file,
    [main.py], whose hash is that of the welcome text; [getContent] of that
    hash returns the text unless the trifle blob has the same hash.
    [createUser] resolves with an anonymous user whose data has the display
    name, no avatar and the default settings. *)
Theorem create_then_read random now db :
  (∀ ownerId name description,
     let id := generateId (js "trifle") random in
     let data := new_trifle_data name description in
     trifles db !! id = None →
     ∃ db',
       createTrifle random now ownerId name description db
       = (Resolved (id, Trifle.Make ownerId (computeHash data) now 1), db')
       ∧ getTrifleData id db' = (Resolved data, db')
       ∧ (∀ fields, data = JObj fields →
            obj_get fields (js "name") = name
            ∧ obj_get fields (js "files")
              = JArr [JObj [(js "path", JStr (js "main.py"));
                            (js "hash",
                             JStr (computeHash (JStr mainPyContent)))]])
       ∧ (computeHash data ≠ computeHash (JStr mainPyContent) →
          getContent (computeHash (JStr mainPyContent)) db'
          = (Resolved (JStr mainPyContent), db')))
  ∧ (∀ displayName,
       let id := generateId (js "user") random in
       let data := new_user_data displayName in
       users db !! id = None →
       ∃ db',
         createUser random now displayName db
         = (Resolved (id, User.Make None (computeHash data) now 1), db')
         ∧ getUserData id db' = (Resolved data, db')
         ∧ (∀ fields, data = JObj fields →
              obj_get fields (js "display_name") = displayName
              ∧ obj_get fields (js "avatar") = JNull)).
Proof.
  split.
  - intros ownerId name description id data Hfree.
    rewrite createTrifle_run. cbv zeta. fold id. fold data. rewrite Hfree.
    eexists. split; [reflexivity|].
    split_and!.
    + rewrite getTrifleData_eq.
      cbn [trifles content with_trifles with_content Trifle.current_hash].
      by rewrite !lookup_insert_eq.
    + intros fields Hfields. subst data. unfold new_trifle_data in Hfields.
      injection Hfields as <-. split; reflexivity.
    + intros Hne. rewrite getContent_eq.
      cbn [content with_trifles with_content].
      by rewrite lookup_insert_ne, lookup_insert_eq.
  - intros displayName id data Hfree.
    rewrite createUser_run. cbv zeta. fold id. fold data. rewrite Hfree.
    eexists. split; [reflexivity|].
    split.
    + generalize (computeHash data) as h. intros h.
      rewrite getUserData_eq.
      cbn [users content with_users with_content User.current_hash].
      by rewrite !lookup_insert_eq.
    + intros fields Hfields. subst data. unfold new_user_data in Hfields.
      injection Hfields as <-. split; reflexivity.
Qed.

Lemma create_then_read_witness :
  ∃ db',
    getTrifleData (js "trifle_0a0b0c0d0e0f") db'
    = (Resolved (new_trifle_data (JStr (js "maze")) JUndefined), db').
Proof.
  destruct (proj1 (create_then_read [10; 11; 12; 13; 14; 15] 3000 empty_db)
              (js "user_1") (JStr (js "maze")) JUndefined)
    as (db' & _ & Hread & _).
  - reflexivity.
  - exists db'. exact Hread.
Defined.

(** X6.  An id that is taken.  When the generated id already names a
    pointer, [createTrifle] and [createUser] reject, and what they reject
    with is [null]: [tx.onerror] passes on [tx.error], which the
    transaction does not have yet when the [error] event of the failed
    [add] reaches it.  Every pointer and every version is as it was; the
    blobs have been stored by then and stay in the content store. *)
Theorem create_id_taken random now db :
  (∀ ownerId name description,
     is_Some (trifles db !! generateId (js "trifle") random) →
     ∃ db',
       createTrifle random now ownerId name description db
       = (Rejected Null, db')
       ∧ trifles db' = trifles db
       ∧ users db' = users db
       ∧ versions db' = versions db
       ∧ content db' !! computeHash (new_trifle_data name description)
         = Some (Content.Make (new_trifle_data name description) TypeTrifle))
  ∧ (∀ displayName,
       is_Some (users db !! generateId (js "user") random) →
       ∃ db',
         createUser random now displayName db
         = (Rejected Null, db')
         ∧ trifles db' = trifles db
         ∧ users db' = users db
         ∧ versions db' = versions db
         ∧ content db' !! computeHash (new_user_data displayName)
           = Some (Content.Make (new_user_data displayName) TypeUser)).
Proof.
  split.
  - intros ownerId name description [trifle Htaken].
    rewrite createTrifle_run. cbv zeta. rewrite Htaken.
    eexists. split; [reflexivity|]. split_and!; try reflexivity.
    cbn [content with_content]. apply lookup_insert_eq.
  - intros displayName [user Htaken].
    rewrite createUser_run. cbv zeta. rewrite Htaken.
    eexists. split; [reflexivity|]. split_and!; try reflexivity.
    cbn [content with_content]. apply lookup_insert_eq.
Qed.

Lemma create_id_taken_witness :
  ∃ db',
    createTrifle [0; 0; 0; 0; 0; 1] 3000 (js "user_2") (JStr (js "again"))
      JUndefined (Trace.run empty_db example_calls)
    = (Rejected Null, db').
Proof.
  destruct (proj1 (create_id_taken [0; 0; 0; 0; 0; 1] 3000
                     (Trace.run empty_db example_calls))
              (js "user_2") (JStr (js "again")) JUndefined)
    as (db' & Hrun & _).
  - apply (bool_decide_unpack _). vm_compute. exact I.
  - by exists db'.
Defined.

(** ** Queries *)

Lemma id_le_total {V} (a b : jstring * V) : id_le a b = true ∨ id_le b a = true.
Proof. apply str_le_total. Qed.

Lemma id_le_trans {V} (a b c : jstring * V) :
  id_le a b = true → id_le b c = true → id_le a c = true.
Proof. apply str_le_trans. Qed.

Lemma elem_of_records_by_id {V} (store : gmap jstring V) id v :
  (id, v) ∈ records_by_id store ↔ store !! id = Some v.
Proof. unfold records_by_id. by rewrite elem_of_sort, elem_of_map_to_list. Qed.

Lemma records_by_id_sorted {V} (store : gmap jstring V) :
  StronglySorted (precedes id_le) (records_by_id store).
Proof. apply sort_sorted; [apply id_le_total|apply id_le_trans]. Qed.

Lemma NoDup_records_by_id {V} (store : gmap jstring V) :
  NoDup (records_by_id store).*1.
Proof. unfold records_by_id. rewrite sort_perm. apply NoDup_fst_map_to_list. Qed.

Lemma records_by_id_nil {V} (store : gmap jstring V) :
  records_by_id store = [] ↔ store = ∅.
Proof.
  unfold records_by_id. split.
  - intros Hnil. apply map_to_list_empty_iff.
    apply Permutation_nil_r. rewrite <-Hnil. by rewrite sort_perm.
  - intros ->. by rewrite map_to_list_empty.
Qed.

(** X7.  The current user is the first record of the users store.
    [getCurrentUser()] changes nothing; it returns [null] exactly when there
    is no user, and otherwise a stored user whose id is not after any other
    id in the order of code units.  After [createUser] on a database without
    users it returns the user just created. *)
Theorem getCurrentUser_first db :
  (getCurrentUser db).2 = db
  ∧ ((getCurrentUser db).1 = Resolved None ↔ users db = ∅)
  ∧ (∀ id user,
       (getCurrentUser db).1 = Resolved (Some (id, user)) →
       users db !! id = Some user
       ∧ ∀ id' user', users db !! id' = Some user' → str_le id id' = true)
  ∧ (∀ random now displayName,
       users db = ∅ →
       ∃ created db',
         createUser random now displayName db = (Resolved created, db')
         ∧ (getCurrentUser db').1 = Resolved (Some created)).
Proof.
  unfold getCurrentUser, read. cbn [fst snd]. split_and!.
  - done.
  - rewrite <-records_by_id_nil.
    destruct (records_by_id (users db)); split; intros; simplify_eq; done.
  - intros id user Hhead.
    pose proof (records_by_id_sorted (users db)) as Hsorted.
    destruct (records_by_id (users db)) as [|first rest] eqn:Hrecords;
      [done|].
    injection Hhead as ->.
    split.
    + apply elem_of_records_by_id. rewrite Hrecords. left.
    + intros id' user' Hget'.
      apply elem_of_records_by_id in Hget'. rewrite Hrecords in Hget'.
      apply StronglySorted_inv in Hsorted as [_ Hall].
      apply elem_of_cons in Hget' as [[= -> ->]|Hin].
      * destruct (str_le_total id id); done.
      * rewrite Forall_forall in Hall. apply (Hall _ Hin).
  - intros random now displayName Hempty.
    rewrite createUser_run. cbv zeta. rewrite Hempty, lookup_empty.
    eexists _, _. split; [reflexivity|].
    cbn [users with_users with_content]. rewrite Hempty.
    unfold records_by_id. rewrite insert_empty, map_to_list_singleton.
    reflexivity.
Qed.

Lemma getCurrentUser_first_witness :
  ∃ created db',
    createUser [1; 2; 3; 4; 5; 6] 10 (JStr (js "Ann")) empty_db
    = (Resolved created, db')
    ∧ (getCurrentUser db').1 = Resolved (Some created).
Proof.
  refine (proj2 (proj2 (proj2 (getCurrentUser_first empty_db)))
            [1; 2; 3; 4; 5; 6] 10%Z (JStr (js "Ann")) _).
  reflexivity.
Defined.

(** The array that [getTriflesByOwner] resolves with. *)
Lemma getTriflesByOwner_eq ownerId db :
  getTriflesByOwner ownerId db
  = (Resolved (filter (λ r, Trifle.owner_id r.2 = ownerId)
                 (records_by_id (trifles db))), db).
Proof. reflexivity. Qed.

Lemma elem_of_owned (ownerId : jstring) (store : gmap jstring Trifle.t)
    (id : jstring) (trifle : Trifle.t) :
  (id, trifle) ∈ filter (λ r, Trifle.owner_id r.2 = ownerId)
                   (records_by_id store)
  ↔ store !! id = Some trifle ∧ Trifle.owner_id trifle = ownerId.
Proof. rewrite list_elem_of_filter, elem_of_records_by_id. tauto. Qed.

(** X8.  [getTriflesByOwner(ownerId)] changes nothing and lists exactly
    the trifles whose [owner_id] is [ownerId], each once, in the order of
    their ids.  A trifle is listed for its owner as soon as [createTrifle]
    resolves and still after [updateTrifle], which keeps the owner; after
    [deleteTrifle] it is listed for nobody. *)
Theorem getTriflesByOwner_lists ownerId db :
  ∃ owned,
    getTriflesByOwner ownerId db = (Resolved owned, db)
    ∧ (∀ id trifle, (id, trifle) ∈ owned
                    ↔ trifles db !! id = Some trifle
                      ∧ Trifle.owner_id trifle = ownerId)
    ∧ NoDup owned.*1
    ∧ StronglySorted (λ a b, str_le a.1 b.1 = true) owned
    ∧ (∀ random now name description created db' l,
         createTrifle random now ownerId name description db
         = (Resolved created, db') →
         getTriflesByOwner ownerId db' = (Resolved l, db') →
         created ∈ l)
    ∧ (∀ id trifle data now,
         (id, trifle) ∈ owned →
         ∃ trifle' db' l,
           updateTrifle id data now db = (Resolved (id, trifle'), db')
           ∧ getTriflesByOwner ownerId db' = (Resolved l, db')
           ∧ (id, trifle') ∈ l)
    ∧ (∀ id owner db' l,
         deleteTrifle id db = (Resolved (), db') →
         getTriflesByOwner owner db' = (Resolved l, db') →
         id ∉ l.*1).
Proof.
  eexists. split; [apply getTriflesByOwner_eq|]. split_and!.
  - apply elem_of_owned.
  - apply NoDup_keys_filter, NoDup_records_by_id.
  - unfold records_by_id.
    rewrite (filter_sort id_le id_le_total id_le_trans).
    apply (sort_sorted id_le id_le_total id_le_trans).
  - intros random now name description created db' l.
    rewrite createTrifle_run. cbv zeta.
    destruct (trifles db !! _) eqn:Hfree; [done|].
    intros [= <- <-]. rewrite getTriflesByOwner_eq. intros [= <-].
    apply elem_of_owned. cbn [trifles with_trifles Trifle.owner_id].
    by rewrite lookup_insert_eq.
  - intros id trifle data now Hin.
    apply elem_of_owned in Hin as [Hget Howner].
    rewrite (updateTrifle_present _ _ _ _ _ Hget). cbv zeta.
    eexists _, _, _. split; [reflexivity|].
    split; [apply getTriflesByOwner_eq|].
    apply elem_of_owned. cbn [trifles with_trifles Trifle.owner_id].
    by rewrite lookup_insert_eq.
  - intros id owner db' l. rewrite deleteTrifle_eq. intros [= <-].
    rewrite getTriflesByOwner_eq. intros [= <-].
    intros Hin. apply list_elem_of_fmap in Hin as ([id' trifle] & -> & Hin).
    apply elem_of_owned in Hin as [Hget _].
    cbn [trifles with_trifles with_versions fst] in Hget.
    by rewrite lookup_delete_eq in Hget.
Qed.

Lemma getTriflesByOwner_lists_witness :
  ∃ trifle' db' l,
    updateTrifle (js "trifle_000000000001") JNull 5000 example_db
    = (Resolved (js "trifle_000000000001", trifle'), db')
    ∧ getTriflesByOwner (js "user_0102030405ff") db' = (Resolved l, db')
    ∧ (js "trifle_000000000001", trifle') ∈ l.
Proof.
  destruct (getTriflesByOwner_lists (js "user_0102030405ff") example_db)
    as (owned & _ & Hlisted & _ & _ & _ & Hupdate & _).
  assert (is_Some (trifles example_db !! js "trifle_000000000001"))
    as [trifle Hget]
    by (apply (bool_decide_unpack _); vm_compute; exact I).
  assert (Howner : Trifle.owner_id trifle = js "user_0102030405ff").
  { assert (Trifle.owner_id
              <$> trifles example_db !! js "trifle_000000000001"
            = Some (js "user_0102030405ff")) as Ho
      by (vm_compute; reflexivity).
    rewrite Hget in Ho. by injection Ho. }
  apply (Hupdate _ trifle). apply Hlisted. by split.
Defined.

(** ** [findTriflesByName] *)

Lemma prop_get_obj_set fields key value key' :
  prop_get (Editor.obj_set fields key value) key'
  = if decide (key = key') then Some value else prop_get fields key'.
Proof.
  induction fields as [|[k v] fields IH]; simpl.
  - by destruct (decide (key = key')).
  - destruct (decide (k = key)) as [->|Hne]; simpl.
    + by destruct (decide (key = key')).
    + rewrite IH.
      destruct (decide (k = key')), (decide (key = key')); congruence.
Qed.

(** Reading a property of [{ ...a, ...b }]: the one of [b] when it has
    one, else the one of [a]. *)
Lemma prop_get_spread a b key :
  NoDup (Object_keys b) →
  prop_get (spread a b) key
  = match prop_get b key with
    | Some v => Some v
    | None => prop_get a key
    end.
Proof.
  unfold spread, Object_keys. revert a.
  induction b as [|[k v] b IH]; intros a; csimpl; [done|].
  rewrite NoDup_cons. intros [Hk Hnd].
  rewrite IH by done. rewrite prop_get_obj_set.
  destruct (decide (k = key)) as [->|Hne]; [|done].
  assert (prop_get b key = None) as -> by by apply prop_get_None.
  done.
Qed.

Lemma find_loop_eq trifles name matches db :
  find_loop trifles name matches db
  = (Resolved (matches ++ omap (found db name) trifles), db).
Proof.
  revert matches. induction trifles as [|trifle rest IH]; intros matches.
  - cbn. by rewrite app_nil_r.
  - cbn [find_loop]. unfold mbind, async_bind. rewrite getContent_eq.
    cbv beta iota. cbn [omap list_omap]. unfold found at 1.
    destruct (content db !! Trifle.current_hash trifle.2) as [record|].
    + destruct (Content.data record) as [| | | | | |fields];
        try (cbn [name_matches]; by rewrite IH).
      destruct (name_matches (JObj fields) name); [|by rewrite IH].
      rewrite IH. by rewrite <-app_assoc.
    + cbn [name_matches]. by rewrite IH.
Qed.

Lemma findTriflesByName_eq ownerId name db :
  findTriflesByName ownerId name db
  = (Resolved (omap (found db name)
                 (filter (λ r, Trifle.owner_id r.2 = ownerId)
                    (records_by_id (trifles db)))), db).
Proof.
  unfold findTriflesByName, mbind, async_bind.
  rewrite getTriflesByOwner_eq. by rewrite find_loop_eq.
Qed.

Lemma name_matches_spec fields name :
  name_matches (JObj fields) name = true
  ↔ obj_get fields (js "name") = JStr name.
Proof.
  unfold name_matches.
  destruct (obj_get fields (js "name")); try (split; congruence).
  rewrite bool_decide_eq_true. split; congruence.
Qed.

Lemma found_Some db name r result :
  found db name r = Some result
  ↔ ∃ fields,
      (Content.data <$> content db !! Trifle.current_hash r.2)
      = Some (JObj fields)
      ∧ obj_get fields (js "name") = JStr name
      ∧ result = JObj (spread (trifle_object r) fields).
Proof.
  unfold found.
  destruct (content db !! Trifle.current_hash r.2) as [record|];
    [|split; [done|by intros (? & ? & _)]].
  change (Content.data <$> Some record) with (Some (Content.data record)).
  destruct (Content.data record) as [| | | | | |fields];
    try (split; [done|by intros (? & ? & _)]).
  destruct (name_matches (JObj fields) name) eqn:Hmatch.
  - apply name_matches_spec in Hmatch. split.
    + intros [= <-]. by exists fields.
    + intros (fields' & [= <-] & _ & ->). done.
  - split; [done|]. intros (fields' & [= <-] & Hname & _).
    apply name_matches_spec in Hname. congruence.
Qed.

(** X9.  [findTriflesByName(ownerId, name)] changes nothing.  Its results
    are the trifles of the owner whose blob is an object with the property
    [name] equal to the string [name], each merged with its blob: a property of the blob wins over the property of the
    pointer with the same key, so every result has that [name], and an [id]
    in the blob would hide the id of the pointer; a key the blob does not
    have reads as in the pointer.  A trifle that [createTrifle] has just
    created with that name is found. *)
Theorem findTriflesByName_results ownerId name db :
  content_well_formed db →
  ∃ results,
    findTriflesByName ownerId name db = (Resolved results, db)
    ∧ (∀ result,
         result ∈ results ↔
         ∃ id trifle fields,
           trifles db !! id = Some trifle
           ∧ Trifle.owner_id trifle = ownerId
           ∧ (Content.data <$> content db !! Trifle.current_hash trifle)
             = Some (JObj fields)
           ∧ obj_get fields (js "name") = JStr name
           ∧ result = JObj (spread (trifle_object (id, trifle)) fields))
    ∧ (∀ id trifle fields key,
         JObj (spread (trifle_object (id, trifle)) fields) ∈ results →
         (Content.data <$> content db !! Trifle.current_hash trifle)
         = Some (JObj fields) →
         obj_get (spread (trifle_object (id, trifle)) fields) key
         = match prop_get fields key with
           | Some value => value
           | None => obj_get (trifle_object (id, trifle)) key
           end)
    ∧ (∀ random now description created db' results',
         createTrifle random now ownerId (JStr name) description db
         = (Resolved created, db') →
         findTriflesByName ownerId name db' = (Resolved results', db') →
         ∃ object, JObj object ∈ results'
                   ∧ obj_get object (js "id") = JStr created.1
                   ∧ obj_get object (js "name") = JStr name).
Proof.
  intros Hwf. eexists. split; [apply findTriflesByName_eq|]. split_and!.
  - intros result. rewrite list_elem_of_omap. split.
    + intros ([id trifle] & Hin & Hfound).
      apply elem_of_owned in Hin as [Hget Howner].
      apply found_Some in Hfound as (fields & Hdata & Hname & ->).
      by exists id, trifle, fields.
    + intros (id & trifle & fields & Hget & Howner & Hdata & Hname & ->).
      exists (id, trifle). split; [by apply elem_of_owned|].
      apply found_Some. by exists fields.
  - intros id trifle fields key _ Hdata.
    destruct (content db !! Trifle.current_hash trifle) as [record|] eqn:Hrec;
      [|done].
    injection Hdata as Hdata.
    pose proof (Hwf _ _ Hrec) as Hwfd. rewrite Hdata in Hwfd.
    apply well_formed_object in Hwfd as [Hnd _].
    unfold obj_get at 1. rewrite (prop_get_spread _ _ _ Hnd).
    by destruct (prop_get fields key).
  - intros random now description created db' results'.
    rewrite createTrifle_run. cbv zeta.
    destruct (trifles db !! _) eqn:Hfree; [done|].
    intros [= <- <-]. rewrite findTriflesByName_eq. intros [= <-].
    eexists. split.
    + apply list_elem_of_omap. eexists (_, _). split.
      * apply elem_of_owned. cbn [trifles with_trifles Trifle.owner_id].
        by rewrite lookup_insert_eq.
      * apply found_Some. eexists. split.
        { cbn [snd content with_trifles with_content Trifle.current_hash].
          rewrite lookup_insert_eq. reflexivity. }
        split; reflexivity.
    + split; reflexivity.
Qed.

Lemma findTriflesByName_results_witness :
  ∃ results,
    findTriflesByName (js "user_0102030405ff") (js "sketch") example_db
    = (Resolved results, example_db).
Proof.
  destruct (findTriflesByName_results (js "user_0102030405ff") (js "sketch")
              example_db) as (results & Hrun & _).
  - unfold content_well_formed.
    apply (bool_decide_unpack
             (map_Forall (λ _ record, well_formed (Content.data record) = true)
                (content example_db))).
    vm_compute. exact I.
  - by exists results.
Defined.

(** ** More on the version log *)

(** Deleting the session versions of a trifle from position [n] of the
    listing on. *)
Lemma prune_from trifleId db n :
  let newest := sort newer_first (versions_of trifleId (versions db)) in
  let sessions := filter (λ r, Version.label r.2 = Session) newest in
  let deleted := drop n sessions in
  let db' := with_versions
               (λ store, foldl (λ st v, delete v.1 st) store deleted) db in
  (∀ key v, versions db' !! key = Some v
            ↔ versions db !! key = Some v ∧ (key, v) ∉ deleted)
  ∧ sort newer_first (versions_of trifleId (versions db'))
    = filter (λ r, r ∉ deleted) newest
  ∧ filter (λ r, Version.label r.2 = Session)
      (sort newer_first (versions_of trifleId (versions db')))
    = take n sessions.
Proof.
  intros newest sessions deleted db'.
  assert (Hlisted : ∀ key v, (key, v) ∈ newest
             ↔ versions db !! key = Some v ∧ Version.trifle_id v = trifleId).
  { intros key v. unfold newest.
    by rewrite elem_of_sort, elem_of_versions_of. }
  assert (Hkeys : NoDup newest.*1) by apply NoDup_versions_of_keys.
  assert (Hdeleted : ∀ r, r ∈ deleted → r ∈ newest).
  { intros r Hr. apply subseteq_drop in Hr.
    apply list_elem_of_filter in Hr. tauto. }
  assert (Hstore : ∀ key v, versions db' !! key = Some v
             ↔ versions db !! key = Some v ∧ (key, v) ∉ deleted).
  { intros key v. unfold db'. cbn [versions with_versions].
    rewrite lookup_foldl_delete. case_decide as Hin.
    - split; [done|]. intros [Hget Hnot]. destruct Hnot.
      apply list_elem_of_fmap in Hin as ([k x] & -> & Hin).
      pose proof (Hdeleted _ Hin) as Hnewest.
      apply Hlisted in Hnewest as [Hget' _]. simpl in Hget.
      by simplify_eq.
    - split; [|tauto]. intros Hget. split; [done|]. intros Hdel.
      apply Hin. by apply (list_elem_of_fmap_2 fst) in Hdel. }
  assert (Hafter : sort newer_first (versions_of trifleId (versions db'))
                   = filter (λ r, r ∉ deleted) newest).
  { rewrite (versions_of_filter (λ r, r ∉ deleted) trifleId (versions db))
      by exact Hstore.
    unfold newest.
    by rewrite (filter_sort newer_first newer_first_total newer_first_trans). }
  split_and!; [exact Hstore|exact Hafter|].
  rewrite Hafter.
  transitivity (filter (λ r, r ∉ deleted) sessions).
  - unfold sessions. rewrite !list_filter_filter.
    apply list_filter_iff. tauto.
  - apply filter_not_in_drop, NoDup_filter. by apply NoDup_keys_NoDup.
Qed.

Lemma slice_negative {A} (l : list A) (start : Z) :
  (start < 0)%Z →
  slice l start = drop (length l - Z.to_nat (- start)) l.
Proof.
  intros Hstart. unfold slice.
  destruct (Z.ltb_spec start 0); [|lia]. f_equal. lia.
Qed.

(** X10.  [cleanupVersions] at the bounds of [keepCount].  When the trifle
    has no more session versions than [keepCount], nothing is deleted: the
    result is 0 and the database is unchanged.  With [keepCount = 0] all its
    session versions go.  A negative [keepCount] [-m] is counted from the
    end by [slice]: the [m] oldest session versions are deleted (all of
    them when there are fewer) and the newest [n - m] stay, and a second run
    deletes up to [m] more. *)
Theorem cleanupVersions_bounds trifleId keepCount db :
  let keep := default 10%Z keepCount in
  let newest := sort newer_first (versions_of trifleId (versions db)) in
  let sessions := filter (λ r, Version.label r.2 = Session) newest in
  let n := length sessions in
  ((Z.of_nat n ≤ keep)%Z →
   cleanupVersions trifleId keepCount db = (Resolved 0%nat, db))
  ∧ (keep = 0%Z →
     ∃ db', cleanupVersions trifleId keepCount db = (Resolved n, db')
            ∧ filter (λ r, Version.label r.2 = Session)
                (sort newer_first (versions_of trifleId (versions db')))
              = [])
  ∧ (∀ m, keep = (- Z.of_nat m)%Z → (0 < m)%nat →
          ∃ db',
            cleanupVersions trifleId keepCount db
            = (Resolved (min m n), db')
            ∧ (∀ key v, versions db' !! key = Some v
                        ↔ versions db !! key = Some v
                          ∧ (key, v) ∉ drop (n - m) sessions)
            ∧ filter (λ r, Version.label r.2 = Session)
                (sort newer_first (versions_of trifleId (versions db')))
              = take (n - m) sessions
            ∧ (cleanupVersions trifleId keepCount db').1
              = Resolved (min m (n - m))).
Proof.
  intros keep newest sessions n. split_and!.
  - intros Hkeep. rewrite cleanupVersions_eq. cbv zeta.
    fold keep. fold newest. fold sessions.
    rewrite slice_nonneg by lia.
    rewrite decide_True; [done|]. rewrite length_drop. lia.
  - intros Hkeep.
    destruct (prune_from trifleId db 0) as (_ & _ & Hsessions).
    cbv zeta in Hsessions. eexists. split.
    + rewrite cleanupVersions_delete. cbv zeta.
      fold keep. fold newest. fold sessions. rewrite Hkeep.
      rewrite slice_nonneg by lia. reflexivity.
    + exact Hsessions.
  - intros m Hkeep Hm.
    destruct (prune_from trifleId db (n - m)) as (Hstore & _ & Hsessions).
    cbv zeta in Hstore, Hsessions. fold newest sessions in Hstore, Hsessions.
    assert (Hslice : slice sessions keep = drop (n - m) sessions).
    { rewrite slice_negative by lia. fold n. f_equal. lia. }
    eexists. split_and!.
    + rewrite cleanupVersions_delete. cbv zeta.
      fold keep. fold newest. fold sessions. rewrite Hslice.
      rewrite length_drop. fold n.
      replace (n - (n - m))%nat with (min m n) by lia. reflexivity.
    + exact Hstore.
    + exact Hsessions.
    + rewrite cleanupVersions_delete. cbv zeta. cbn [fst]. fold keep.
      rewrite Hsessions. f_equal.
      rewrite slice_negative by lia.
      rewrite length_drop, length_take. fold n. lia.
Qed.

Lemma cleanupVersions_bounds_witness :
  ∃ db',
    cleanupVersions (js "trifle_1") (Some (-1)%Z) example_versions
    = (Resolved 1%nat, db').
Proof.
  destruct (cleanupVersions_bounds (js "trifle_1") (Some (-1)%Z)
              example_versions) as (_ & _ & Hneg).
  destruct (Hneg 1%nat) as (db' & Hrun & _); [reflexivity|lia|].
  exists db'. rewrite Hrun. f_equal.
Defined.

Lemma filter_all {A} (P : A → Prop) `{!∀ x, Decision (P x)} (l : list A) :
  (∀ x, x ∈ l → P x) → filter P l = l.
Proof.
  induction l as [|x l IH]; intros Hl; [done|].
  rewrite filter_cons, decide_True by (apply Hl; left).
  f_equal. apply IH. intros y Hy. apply Hl. by right.
Qed.

Lemma reachable_keys_below_next db :
  Trace.reachable db → keys_below_next db.
Proof.
  apply (reachable_invariant keys_below_next).
  - apply write_keys_below_next.
  - intros key [v Hv]. cbn [versions empty_db] in Hv.
    by rewrite lookup_empty in Hv.
Qed.

(** X11.  In a database built by local calls the key generator of [versions]
    is past every key in use, so [createVersion] never overwrites a
    version: the new key is fresh, every earlier version stays under its
    key, the listing of the trifle gains exactly the new version, and the
    listings of the other trifles are unchanged. *)
Theorem createVersion_appends trifleId hash label now db :
  Trace.reachable db →
  let key := versions_next_key db in
  let version := Version.Make trifleId hash now (default Session label) in
  ∃ db',
    createVersion trifleId hash label now db = (Resolved (key, version), db')
    ∧ versions db !! key = None
    ∧ (∀ k v, versions db !! k = Some v → versions db' !! k = Some v)
    ∧ keys_below_next db'
    ∧ (∀ old new,
         getVersions trifleId db = (Resolved old, db) →
         getVersions trifleId db' = (Resolved new, db') →
         new ≡ₚ (key, version) :: old ∧ NoDup new.*1)
    ∧ (∀ other, other ≠ trifleId →
         (getVersions other db').1 = (getVersions other db).1).
Proof.
  intros Hreach key version.
  pose proof (reachable_keys_below_next db Hreach) as Hbelow.
  assert (Hfresh : versions db !! key = None).
  { destruct (versions db !! key) as [v|] eqn:Hget; [|done].
    assert (key < versions_next_key db) by (apply Hbelow; by rewrite Hget).
    unfold key in *. lia. }
  eexists. split; [apply createVersion_eq|]. cbv zeta. fold key version.
  cbn [versions versions_next_key].
  split_and!.
  - exact Hfresh.
  - intros k v Hget. rewrite lookup_insert_ne; [done|]. congruence.
  - intros k. cbn [versions versions_next_key]. rewrite lookup_insert.
    case_decide; [lia|]. intros Hsome. apply Hbelow in Hsome. lia.
  - intros old new. rewrite !getVersions_eq. cbn [versions].
    intros [= <-] [= <-]. split; [|apply NoDup_versions_of_keys].
    apply NoDup_Permutation.
    + eapply NoDup_fmap_1, NoDup_versions_of_keys.
    + apply NoDup_cons. split.
      * rewrite elem_of_sort, elem_of_versions_of. intros [Hget _]. congruence.
      * eapply NoDup_fmap_1, NoDup_versions_of_keys.
    + intros [k v].
      rewrite elem_of_cons, !elem_of_sort, !elem_of_versions_of.
      rewrite lookup_insert. case_decide as Hk.
      * subst k. split.
        -- intros [[= <-] _]. by left.
        -- intros [Heq|[Hget _]]; [|congruence].
           injection Heq as ->. by split.
      * split; [tauto|]. intros [Heq|?]; [|tauto].
        injection Heq as -> _. done.
  - intros other Hother. rewrite !getVersions_eq. cbn [fst versions].
    do 2 f_equal.
    rewrite (versions_of_filter (λ r, r.1 ≠ key) other
               (<[key := version]> (versions db)) (versions db)).
    + symmetry. apply filter_all.
      intros [k v]. rewrite elem_of_versions_of, lookup_insert.
      cbn [fst]. case_decide as Hk; [|done]. subst k.
      intros [[= <-] Hid]. done.
    + intros k v. rewrite lookup_insert. cbn [fst]. case_decide as Hk.
      * subst k. rewrite Hfresh. split; [done|]. by intros [_ ?].
      * split; [done|tauto].
Qed.

Lemma createVersion_appends_witness :
  ∃ db',
    createVersion (js "trifle_1") (js "h5") None 11 example_versions
    = (Resolved (6, Version.Make (js "trifle_1") (js "h5") 11 Session), db').
Proof.
  destruct (createVersion_appends (js "trifle_1") (js "h5") None 11%Z
              example_versions) as (db' & Hrun & _).
  - by eexists.
  - exists db'. exact Hrun.
Defined.

(** ** More on deleting a trifle *)

Lemma versions_of_deleted trifleId (store : gmap N Version.t) :
  versions_of trifleId
    (foldl (λ st r, delete r.1 st) store (versions_of trifleId store))
  = [].
Proof.
  rewrite (versions_of_filter
             (λ r, r.1 ∉ (versions_of trifleId store).*1) trifleId store).
  - apply filter_none. intros [k v] Hin Hnot. apply Hnot.
    by apply (list_elem_of_fmap_2 fst) in Hin.
  - intros key v. rewrite lookup_foldl_delete. cbn [fst].
    case_decide; [split; [done|tauto]|tauto].
Qed.

Lemma with_trifles_delete_absent trifleId db :
  trifles db !! trifleId = None → with_trifles (delete trifleId) db = db.
Proof.
  intros Hnone. destruct db as [us ts cs vs nk]. unfold with_trifles.
  cbn [users trifles content versions versions_next_key] in *.
  f_equal. by apply delete_id.
Qed.

(** X12.  [deleteTrifle] never rejects, whether or not the trifle exists.
    After it the trifle reads as absent: [getTrifle] gives nothing,
    [getTrifleData] gives [null], [getVersions] gives the empty list and
    [updateTrifle] rejects.  Deleting again changes nothing, and deleting a
    trifle that is absent and has no versions leaves the database as it
    is. *)
Theorem deleteTrifle_absent_after trifleId db :
  ∃ db',
    deleteTrifle trifleId db = (Resolved (), db')
    ∧ getTrifle trifleId db' = (Resolved None, db')
    ∧ getTrifleData trifleId db' = (Resolved JNull, db')
    ∧ getVersions trifleId db' = (Resolved [], db')
    ∧ (∀ trifleData now,
         updateTrifle trifleId trifleData now db'
         = (Rejected (Error (js "Trifle not found")), db'))
    ∧ deleteTrifle trifleId db' = (Resolved (), db')
    ∧ (trifles db !! trifleId = None →
       versions_of trifleId (versions db) = [] → db' = db).
Proof.
  eexists. split; [apply deleteTrifle_eq|].
  set (db' := with_versions _ _).
  assert (Hgone : trifles db' !! trifleId = None).
  { unfold db'. cbn [trifles with_versions with_trifles].
    apply lookup_delete_eq. }
  assert (Hversions : versions_of trifleId (versions db') = []).
  { unfold db'. cbn [versions with_versions with_trifles].
    apply versions_of_deleted. }
  split_and!.
  - unfold getTrifle, read. by rewrite Hgone.
  - rewrite getTrifleData_eq. by rewrite Hgone.
  - rewrite getVersions_eq. by rewrite Hversions.
  - intros trifleData now. by apply updateTrifle_absent.
  - rewrite deleteTrifle_eq. f_equal. rewrite Hversions. cbn [foldl].
    clearbody db'.
    rewrite (with_trifles_delete_absent trifleId db' Hgone).
    apply with_versions_id.
  - intros Hnone Hempty. unfold db'. rewrite Hempty. cbn [foldl].
    rewrite with_versions_id. by apply with_trifles_delete_absent.
Qed.

Lemma deleteTrifle_absent_after_witness :
  deleteTrifle (js "trifle_9") example_db = (Resolved (), example_db).
Proof.
  destruct (deleteTrifle_absent_after (js "trifle_9") example_db)
    as (db' & Hrun & _ & _ & _ & _ & _ & Hsame).
  rewrite Hrun. f_equal. apply Hsame.
  - apply (bool_decide_unpack _). vm_compute. exact I.
  - vm_compute. reflexivity.
Defined.

(** ** The files of the open trifle *)

Lemma save_body_current st f content now :
  Workspace.current_object st = Some f →
  Workspace.save_body st content now
  = Editor.save_content (editor_view st) f content now.
Proof.
  intros Hcurrent. unfold Workspace.save_body, Editor.save_content.
  rewrite Hcurrent. reflexivity.
Qed.

Lemma editor_view_current st ref f :
  Workspace.currentFile st = Some ref →
  Workspace.objects st !! ref = Some f →
  editor_view st
  = Editor.State (Workspace.trifleId st) (Some f) (Workspace.isDirty st)
      (Workspace.editorValue st) (Workspace.savingIndicator st).
Proof.
  intros Href Hf. unfold editor_view, Workspace.current_object.
  rewrite Href. cbn [mbind option_bind]. by rewrite Hf.
Qed.

(** Started and resumed with nothing in between, the save of the workspace
    is the save of [Editor]. *)
Lemma saveCurrentFile_view now st db :
  (∀ ref, Workspace.currentFile st = Some ref →
          is_Some (Workspace.objects st !! ref)) →
  (editor_view (Workspace.saveCurrentFile now st db).1,
   (Workspace.saveCurrentFile now st db).2)
  = Editor.saveCurrentFile now (editor_view st) db.
Proof.
  intros Hvalid.
  destruct (Workspace.currentFile st) as [ref|] eqn:Href.
  2:{ unfold Workspace.saveCurrentFile, Workspace.saveCurrentFile_start,
        Editor.saveCurrentFile.
      rewrite Href. cbn [fst snd]. unfold editor_view at 2.
      unfold Workspace.current_object. by rewrite Href. }
  destruct (Hvalid ref eq_refl) as [f Hf].
  rewrite (editor_view_current st ref f Href Hf).
  unfold Workspace.saveCurrentFile, Workspace.saveCurrentFile_start,
    Editor.saveCurrentFile.
  rewrite Href.
  cbn [Editor.currentFile Editor.isDirty Editor.editorValue Editor.trifleId
       Editor.savingIndicator Editor.path Editor.hash].
  destruct (Workspace.isDirty st) eqn:Hdirty; cbn [negb].
  2:{ cbn [fst snd]. rewrite (editor_view_current st ref f Href Hf).
      by rewrite Hdirty. }
  cbv zeta. unfold Workspace.saveCurrentFile_resume.
  set (st1 := Workspace.updateSavingIndicator _ _).
  set (f1 := Editor.File (Editor.path f) (Editor.hash f)
               (Workspace.editorValue st)).
  assert (Hf1 : Workspace.objects st1 !! ref = Some f1).
  { unfold st1. cbn [Workspace.objects Workspace.set_objects
                     Workspace.updateSavingIndicator].
    by rewrite list_lookup_alter_eq, Hf. }
  assert (Hcurrent : Workspace.current_object st1 = Some f1).
  { unfold Workspace.current_object.
    change (Workspace.currentFile st1) with (Workspace.currentFile st).
    rewrite Href. exact Hf1. }
  rewrite (save_body_current st1 f1 _ now Hcurrent).
  change (Editor.save_content (editor_view st1) f1)
    with (Editor.save_content
            (Editor.State (Workspace.trifleId st) (Some f) true
               (Workspace.editorValue st) (Workspace.savingIndicator st)) f1).
  destruct (Editor.save_content _ f1 (Workspace.editorValue st) now db)
    as [[newHash|e] db'].
  - cbn [fst snd]. f_equal.
    rewrite (editor_view_current _ ref
               (Editor.File (Editor.path f) newHash (Workspace.editorValue st))).
    + reflexivity.
    + exact Href.
    + cbn [Workspace.objects Workspace.set_objects Workspace.set_isDirty
           Workspace.updateSavingIndicator].
      change (Workspace.currentFile st1) with (Workspace.currentFile st).
      rewrite Href, list_lookup_alter_eq, Hf1. reflexivity.
  - cbn [fst snd]. f_equal.
    rewrite (editor_view_current _ ref f1); [|exact Href|exact Hf1].
    unfold st1.
    cbn [Workspace.trifleId Workspace.isDirty Workspace.editorValue
         Workspace.savingIndicator Workspace.set_objects
         Workspace.updateSavingIndicator].
    by rewrite Hdirty.
Qed.

Lemma openFile_dirty a b fa fb changed st :
  Workspace.currentFile st = Some a →
  Workspace.objects st !! a = Some fa →
  Workspace.objects st !! b = Some fb →
  a ≠ b →
  Workspace.isDirty st = true →
  let text := Workspace.editorValue st in
  let objs :=
    alter (λ f, Editor.File (Editor.path f) (Editor.hash f) text) a
          (Workspace.objects st) in
  Workspace.openFile b changed st
  = (Some text,
     Workspace.State (Workspace.trifleId st) objs (Workspace.files st)
       (Some b) false (Editor.content fb)
       (if changed then [] else js "saving")).
Proof.
  intros Ha Hfa Hfb Hab Hdirty text objs.
  unfold Workspace.openFile, Workspace.saveCurrentFile_start.
  rewrite Hdirty, Ha, bool_decide_eq_true_2 by eauto.
  cbn [andb negb]. cbv zeta. fold text. fold objs.
  cbn [Workspace.objects Workspace.set_objects Workspace.set_currentFile
       Workspace.updateSavingIndicator].
  assert (Hb : objs !! b = Some fb).
  { unfold objs. by rewrite list_lookup_alter_ne. }
  rewrite Hb. cbn [fmap option_fmap option_map default].
  by destruct changed.
Qed.

(** X13.  [openFile] starts the save of a dirty file and does not wait for
    it.  The text of the file that is left is captured at once and written
    to its object, but the rest of the save runs after [state.currentFile]
    has become the file that is opened: the database ends as if the text had
    been saved as that file, whose object gets the new hash, while the hash
    of the file that was edited stays as it was.  Awaited before the
    switch, the same save files the text under the file that was edited. *)
Theorem openFile_pending_save a b fa fb changed now st db :
  Workspace.currentFile st = Some a →
  Workspace.objects st !! a = Some fa →
  Workspace.objects st !! b = Some fb →
  a ≠ b →
  Workspace.isDirty st = true →
  let text := Workspace.editorValue st in
  let view f :=
    Editor.State (Workspace.trifleId st) (Some f) true text
      (Workspace.savingIndicator st) in
  let opened := Workspace.openFile b changed st in
  let saved := Workspace.saveCurrentFile_resume text now opened.2 db in
  opened.1 = Some text
  ∧ Workspace.currentFile opened.2 = Some b
  ∧ Workspace.isDirty opened.2 = false
  ∧ Workspace.editorValue opened.2 = Editor.content fb
  ∧ saved.2 = (Editor.saveCurrentFile now (view fb) db).2
  ∧ (Workspace.saveCurrentFile now st db).2
    = (Editor.saveCurrentFile now (view fa) db).2
  ∧ Workspace.objects saved.1 !! a
    = Some (Editor.File (Editor.path fa) (Editor.hash fa) text)
  ∧ (∀ newHash db',
       Editor.save_content (view fb) fb text now db = (Resolved newHash, db') →
       Workspace.objects saved.1 !! b
       = Some (Editor.File (Editor.path fb) newHash (Editor.content fb))
       ∧ Workspace.isDirty saved.1 = false
       ∧ Workspace.savingIndicator saved.1 = js "saved").
Proof.
  intros Ha Hfa Hfb Hab Hdirty text view opened saved.
  pose proof (openFile_dirty a b fa fb changed st Ha Hfa Hfb Hab Hdirty)
    as Hopen.
  cbv zeta in Hopen. fold text in Hopen.
  set (objs := alter _ a (Workspace.objects st)) in Hopen.
  set (st1 := Workspace.State _ objs _ _ _ _ _) in Hopen.
  assert (Ha1 : objs !! a
                = Some (Editor.File (Editor.path fa) (Editor.hash fa) text)).
  { unfold objs. by rewrite list_lookup_alter_eq, Hfa. }
  assert (Hb1 : objs !! b = Some fb).
  { unfold objs. by rewrite list_lookup_alter_ne. }
  assert (Hcurrent : Workspace.current_object st1 = Some fb) by exact Hb1.
  assert (Hsaved : saved = Workspace.saveCurrentFile_resume text now st1 db).
  { unfold saved, opened. by rewrite Hopen. }
  assert (Hbody : Workspace.save_body st1 text now db
                  = Editor.save_content (view fb)
                      (Editor.File (Editor.path fb) (Editor.hash fb) text)
                      text now db).
  { by rewrite (save_body_current st1 fb text now Hcurrent). }
  assert (Hedit : Editor.saveCurrentFile now (view fb) db
                  = match Workspace.save_body st1 text now db with
                    | (Resolved newHash, db') =>
                        (Editor.State (Workspace.trifleId st)
                           (Some (Editor.File (Editor.path fb) newHash text))
                           false text (js "saved"), db')
                    | (Rejected _, db') =>
                        (Editor.State (Workspace.trifleId st)
                           (Some (Editor.File (Editor.path fb) (Editor.hash fb)
                                    text))
                           true text (js "error"), db')
                    end).
  { by rewrite Hbody. }
  split_and!.
  - unfold opened. by rewrite Hopen.
  - unfold opened. by rewrite Hopen.
  - unfold opened. by rewrite Hopen.
  - unfold opened. by rewrite Hopen.
  - rewrite Hsaved, Hedit. unfold Workspace.saveCurrentFile_resume.
    by destruct (Workspace.save_body st1 text now db) as [[newHash|e] db'].
  - assert (Hview : view fa = editor_view st).
    { rewrite (editor_view_current st a fa Ha Hfa). unfold view, text.
      by rewrite Hdirty. }
    rewrite Hview, <-(saveCurrentFile_view now st db); [done|].
    intros ref Href. rewrite Ha in Href. injection Href as <-. eauto.
  - rewrite Hsaved. unfold Workspace.saveCurrentFile_resume.
    destruct (Workspace.save_body st1 text now db) as [[newHash|e] db'];
      cbn [fst Workspace.objects Workspace.set_objects Workspace.set_isDirty
           Workspace.updateSavingIndicator Workspace.currentFile st1].
    + unfold st1. cbn [Workspace.currentFile Workspace.objects].
      by rewrite list_lookup_alter_ne.
    + exact Ha1.
  - intros newHash db' Hrun. rewrite Hsaved.
    unfold Workspace.saveCurrentFile_resume.
    rewrite Hbody.
    change (Editor.save_content (view fb) _ text now db)
      with (Editor.save_content (view fb) fb text now db).
    rewrite Hrun. unfold st1.
    cbn [fst Workspace.objects Workspace.set_objects Workspace.set_isDirty
         Workspace.updateSavingIndicator Workspace.currentFile
         Workspace.isDirty Workspace.savingIndicator].
    by rewrite list_lookup_alter_eq, Hb1.
Qed.

(** ** Saving a file *)

Lemma findIndex_path_found entries path start i :
  Editor.findIndex_path entries path start = Resolved i →
  (0 <= start)%Z →
  i = (-1)%Z
  ∨ (start <= i)%Z
    ∧ ∃ fields, entries !! Z.to_nat (i - start) = Some (JObj fields)
                ∧ obj_get fields (js "path") = JStr path.
Proof.
  revert start i.
  induction entries as [|f entries IH]; intros start i Hfind Hstart.
  { injection Hfind as <-. by left. }
  assert (Hrest : ∀ j, Editor.findIndex_path entries path (start + 1)
                       = Resolved j →
            j = (-1)%Z
            ∨ (start <= j)%Z
              ∧ ∃ fields, (f :: entries) !! Z.to_nat (j - start)
                          = Some (JObj fields)
                          ∧ obj_get fields (js "path") = JStr path).
  { intros j Hj. destruct (IH _ _ Hj) as [->|(Hle & fields & Hget & Hpath)];
      [lia|by left|].
    right. split; [lia|]. exists fields. split; [|done].
    replace (Z.to_nat (j - start)) with (S (Z.to_nat (j - (start + 1))))
      by lia.
    exact Hget. }
  cbn [Editor.findIndex_path] in Hfind.
  destruct f as [| |b|n|s|items|fields]; try discriminate; try by apply Hrest.
  destruct (obj_get fields (js "path")) as [| |b|n|p|items|ff] eqn:Hpath;
    try by apply Hrest.
  destruct (decide (p = path)) as [->|Hne]; [|by apply Hrest].
  injection Hfind as <-. right. split; [lia|]. exists fields.
  by rewrite Z.sub_diag.
Qed.

Lemma set_file_hash_db trifleData path newHash db :
  (Editor.set_file_hash trifleData path newHash db).2 = db.
Proof.
  unfold Editor.set_file_hash.
  destruct trifleData as [| |b|n|s|items|fields]; try done.
  destruct (obj_get fields (js "files")) as [| |b|n|s|entries|ff]; try done.
  destruct (Editor.findIndex_path entries path 0) as [i|e]; [|done].
  by destruct (0 <=? i)%Z.
Qed.

(** The calls of [save_content] one after the other. *)
Lemma save_content_eq st f text now db :
  Editor.save_content st f text now db
  = let newHash := computeHash (JStr text) in
    let db1 :=
      with_content (insert newHash (Content.Make (JStr text) TypeFile)) db in
    match getTrifleData (Editor.trifleId st) db1 with
    | (Resolved trifleData, _) =>
        match Editor.set_file_hash trifleData (Editor.path f) newHash db1 with
        | (Resolved trifleData, _) =>
            match updateTrifle (Editor.trifleId st) trifleData now db1 with
            | (Resolved _, db2) => (Resolved newHash, db2)
            | (Rejected e, db2) => (Rejected e, db2)
            end
        | (Rejected e, _) => (Rejected e, db1)
        end
    | (Rejected e, _) => (Rejected e, db1)
    end.
Proof.
  unfold Editor.save_content, mbind, async_bind.
  rewrite storeContent_eq. cbv zeta.
  set (db1 := with_content _ db). rewrite getTrifleData_eq.
  set (data := match trifles db1 !! _ with Some _ => _ | None => _ end).
  pose proof (set_file_hash_db data (Editor.path f) (computeHash (JStr text))
                db1) as Hdb.
  destruct (Editor.set_file_hash data _ _ db1) as [[d|e] db2];
    cbn [snd] in Hdb; subst db2; [|done].
  by destruct (updateTrifle _ d now db1) as [[r|e] db2].
Qed.

Lemma openFile_pending_save_witness :
  (Workspace.openFile 1 true example_workspace).1 = Some (js "x = 1")
  ∧ Workspace.objects
      (Workspace.saveCurrentFile_resume (js "x = 1") 1005
         (Workspace.openFile 1 true example_workspace).2 example_db).1
    !! 0%nat
    = Some (Editor.File (js "main.py") [] (js "x = 1")).
Proof.
  destruct (openFile_pending_save 0 1
              (Editor.File (js "main.py") [] (js "x = 0"))
              (Editor.File (js "util.py") [] (js "y = 0"))
              true 1005%Z example_workspace example_db)
    as (Hpending & _ & _ & _ & _ & _ & Hobject & _);
    [reflexivity|reflexivity|reflexivity|lia|reflexivity|].
  split; [exact Hpending|exact Hobject].
Defined.

Lemma read_after_store id text trifle record db :
  trifles db !! id = Some trifle →
  content db !! Trifle.current_hash trifle = Some record →
  computeHash (JStr text) ≠ Trifle.current_hash trifle →
  getTrifleData id
    (with_content
       (insert (computeHash (JStr text)) (Content.Make (JStr text) TypeFile))
       db)
  = (Resolved (Content.data record),
     with_content
       (insert (computeHash (JStr text)) (Content.Make (JStr text) TypeFile))
       db).
Proof.
  intros Htrifle Hrecord Hne. rewrite getTrifleData_eq.
  cbn [trifles content with_content]. rewrite Htrifle.
  by rewrite lookup_insert_ne, Hrecord.
Qed.

(** A text with the hash of the trifle's blob takes the place of the
    blob. *)
Lemma read_after_store_same id text trifle db :
  trifles db !! id = Some trifle →
  computeHash (JStr text) = Trifle.current_hash trifle →
  getTrifleData id
    (with_content
       (insert (computeHash (JStr text)) (Content.Make (JStr text) TypeFile))
       db)
  = (Resolved (JStr text),
     with_content
       (insert (computeHash (JStr text)) (Content.Make (JStr text) TypeFile))
       db).
Proof.
  intros Htrifle Heq. rewrite getTrifleData_eq.
  cbn [trifles content with_content]. rewrite Htrifle, <- Heq.
  by rewrite lookup_insert_eq.
Qed.

(** The canonical JSON of a payload that is not a string is such a
    text. *)
Lemma canonical_text_hash fields text :
  canonicalJSON (JObj fields) = Some text →
  computeHash (JStr text) = computeHash (JObj fields).
Proof. intros Htext. unfold computeHash, hash_text. by rewrite Htext. Qed.

Lemma read_after_update id data now trifle db :
  trifles db !! id = Some trifle →
  getTrifleData id (updateTrifle id data now db).2
  = (Resolved data, (updateTrifle id data now db).2).
Proof.
  intros Htrifle. rewrite (updateTrifle_present _ _ _ _ _ Htrifle).
  cbv zeta. cbn [snd]. rewrite getTrifleData_eq.
  cbn [trifles content with_trifles with_content].
  rewrite lookup_insert_eq. cbn [Trifle.current_hash].
  by rewrite lookup_insert_eq.
Qed.

Lemma obj_get_obj_set fields key value key' :
  obj_get (Editor.obj_set fields key value) key'
  = if decide (key = key') then value else obj_get fields key'.
Proof.
  unfold obj_get. rewrite prop_get_obj_set. by case_decide.
Qed.

(** X14.  What a save of a dirty file comes to.  When the trifle is gone,
    the save fails: the state stays dirty, the indicator shows the error and
    no pointer changes, but the text has been stored as a blob.  When the
    text has the hash of the trifle's blob, which the canonical JSON of
    that blob has, the text is stored in the place of the blob and the save
    fails in the same way; the data of the trifle then reads as the text.
    When the text has another hash and the data is an object with a list of
    files: if [findIndex] finds no file of this path, the save reports
    success and clears the dirty flag although the data of the trifle read
    back is what it was; if it finds one, this entry, the first of that
    path, gets the hash of the text, and nothing else in the data changes;
    if it throws, as it does on an entry that is [null], the save fails and
    the data read back is what it was. *)
Theorem saveCurrentFile_outcomes now st db f :
  Editor.currentFile st = Some f →
  Editor.isDirty st = true →
  let id := Editor.trifleId st in
  let text := Editor.editorValue st in
  let newHash := computeHash (JStr text) in
  let saved := Editor.saveCurrentFile now st db in
  (trifles db !! id = None →
   Editor.isDirty saved.1 = true
   ∧ Editor.savingIndicator saved.1 = js "error"
   ∧ trifles saved.2 = trifles db
   ∧ content saved.2
     = <[newHash := Content.Make (JStr text) TypeFile]> (content db))
  ∧ (∀ trifle,
       trifles db !! id = Some trifle →
       newHash = Trifle.current_hash trifle →
       Editor.isDirty saved.1 = true
       ∧ Editor.savingIndicator saved.1 = js "error"
       ∧ trifles saved.2 = trifles db
       ∧ content saved.2
         = <[newHash := Content.Make (JStr text) TypeFile]> (content db)
       ∧ getTrifleData id saved.2 = (Resolved (JStr text), saved.2))
  ∧ (∀ trifle fields,
       trifles db !! id = Some trifle →
       Trifle.current_hash trifle = computeHash (JObj fields) →
       canonicalJSON (JObj fields) = Some text →
       newHash = Trifle.current_hash trifle)
  ∧ (∀ trifle record fields entries,
       trifles db !! id = Some trifle →
       content db !! Trifle.current_hash trifle = Some record →
       newHash ≠ Trifle.current_hash trifle →
       Content.data record = JObj fields →
       obj_get fields (js "files") = JArr entries →
       (Editor.findIndex_path entries (Editor.path f) 0 = Resolved (-1)%Z →
        Editor.isDirty saved.1 = false
        ∧ Editor.savingIndicator saved.1 = js "saved"
        ∧ Editor.currentFile saved.1
          = Some (Editor.File (Editor.path f) newHash text)
        ∧ getTrifleData id saved.2 = (Resolved (JObj fields), saved.2))
       ∧ (∀ i,
            Editor.findIndex_path entries (Editor.path f) 0 = Resolved i →
            (0 <= i)%Z →
            ∃ entry data,
              entries !! Z.to_nat i = Some (JObj entry)
              ∧ obj_get entry (js "path") = JStr (Editor.path f)
              ∧ Editor.isDirty saved.1 = false
              ∧ Editor.currentFile saved.1
                = Some (Editor.File (Editor.path f) newHash text)
              ∧ getTrifleData id saved.2 = (Resolved (JObj data), saved.2)
              ∧ obj_get data (js "files")
                = JArr (<[Z.to_nat i :=
                           JObj (Editor.obj_set entry (js "hash")
                                   (JStr newHash))]> entries)
              ∧ (∀ key, key ≠ js "files" →
                        obj_get data key = obj_get fields key))
       ∧ (∀ e,
            Editor.findIndex_path entries (Editor.path f) 0 = Rejected e →
            Editor.isDirty saved.1 = true
            ∧ Editor.savingIndicator saved.1 = js "error"
            ∧ trifles saved.2 = trifles db
            ∧ getTrifleData id saved.2 = (Resolved (JObj fields), saved.2))).
Proof.
  intros Hcurrent Hdirty id text newHash saved.
  assert (Hsaved : saved
    = match Editor.save_content st (Editor.File (Editor.path f)
                                      (Editor.hash f) text) text now db with
      | (Resolved h, db') =>
          (Editor.State id (Some (Editor.File (Editor.path f) h text)) false
             text (js "saved"), db')
      | (Rejected _, db') =>
          (Editor.State id
             (Some (Editor.File (Editor.path f) (Editor.hash f) text))
             true text (js "error"), db')
      end).
  { unfold saved, Editor.saveCurrentFile. rewrite Hcurrent, Hdirty.
    reflexivity. }
  rewrite save_content_eq in Hsaved. cbv zeta in Hsaved.
  fold text newHash id in Hsaved. cbn [Editor.path] in Hsaved.
  set (db1 := with_content _ db) in Hsaved.
  split_and!.
  - intros Hnone. revert Hsaved. rewrite getTrifleData_eq.
    change (trifles db1) with (trifles db). rewrite Hnone.
    cbn [Editor.set_file_hash throw]. intros ->. by cbn.
  - intros trifle Htrifle Hsame. revert Hsaved. unfold db1, newHash.
    rewrite (read_after_store_same id text trifle db Htrifle Hsame).
    cbn [Editor.set_file_hash throw]. intros ->.
    cbn [fst snd Editor.isDirty Editor.savingIndicator].
    split_and!; try done.
    by apply (read_after_store_same id text trifle db).
  - intros trifle fields Htrifle Hhash Htext. unfold newHash.
    by rewrite Hhash, (canonical_text_hash fields text).
  - intros trifle record fields entries Htrifle Hrecord Hne Hdata Hfiles.
    revert Hsaved. unfold db1, newHash.
    rewrite (read_after_store id text trifle record db Htrifle Hrecord Hne).
    fold newHash. fold db1. rewrite Hdata.
    unfold Editor.set_file_hash. rewrite Hfiles.
    assert (Htrifle1 : trifles db1 !! id = Some trifle) by exact Htrifle.
    intros Hsaved. split_and!.
    + intros Hfind. rewrite Hfind in Hsaved.
      cbn [Z.leb Z.compare mret async_ret] in Hsaved.
      pose proof (read_after_update id (JObj fields) now trifle db1 Htrifle1)
        as Hread.
      rewrite (updateTrifle_present _ _ _ _ _ Htrifle1) in Hsaved, Hread.
      cbv zeta in Hsaved, Hread. cbn [snd] in Hread.
      rewrite Hsaved. by cbn [fst snd Editor.isDirty Editor.savingIndicator
                               Editor.currentFile].
    + intros i Hfind Hi. rewrite Hfind in Hsaved.
      destruct (Z.leb_spec 0 i) as [_|]; [|lia].
      cbn [mret async_ret] in Hsaved.
      destruct (findIndex_path_found _ _ _ _ Hfind)
        as [->|(_ & entry & Hentry & Hpath)]; [lia|lia|].
      rewrite Z.sub_0_r in Hentry.
      set (data := Editor.obj_set fields (js "files") _) in Hsaved.
      pose proof (read_after_update id (JObj data) now trifle db1 Htrifle1)
        as Hread.
      rewrite (updateTrifle_present _ _ _ _ _ Htrifle1) in Hsaved, Hread.
      cbv zeta in Hsaved, Hread. cbn [snd] in Hread.
      exists entry, data. rewrite Hsaved.
      cbn [fst snd Editor.isDirty Editor.currentFile].
      split_and!; try done.
      * unfold data. rewrite obj_get_obj_set, decide_True by done.
        f_equal. apply list_eq. intros j.
        destruct (decide (j = Z.to_nat i)) as [->|Hj].
        -- rewrite list_lookup_alter_eq, Hentry, list_lookup_insert_eq; [done|].
           by eapply lookup_lt_Some.
        -- by rewrite list_lookup_alter_ne, list_lookup_insert_ne.
      * intros key Hkey. unfold data.
        by rewrite obj_get_obj_set, decide_False.
    + intros e Hfind. rewrite Hfind in Hsaved. cbn [throw] in Hsaved.
      rewrite Hsaved. cbn [fst snd Editor.isDirty Editor.savingIndicator].
      split_and!; try done. unfold db1, newHash.
      rewrite (read_after_store id text trifle record db Htrifle Hrecord Hne).
      by rewrite Hdata.
Qed.

Lemma saveCurrentFile_outcomes_witness :
  Editor.isDirty (Editor.saveCurrentFile 1005 example_state example_db).1
  = false
  ∧ Editor.savingIndicator
      (Editor.saveCurrentFile 1005 example_json_state example_db).1
    = js "error".
Proof.
  split.
  - destruct (saveCurrentFile_outcomes 1005%Z example_state example_db
                (Editor.File (js "main.py") [] []) eq_refl eq_refl)
      as (_ & _ & _ & Hpresent).
    edestruct Hpresent as (_ & Hlisted & _).
    + vm_compute. reflexivity.
    + vm_compute. reflexivity.
    + apply (bool_decide_unpack _). vm_compute. exact I.
    + reflexivity.
    + vm_compute. reflexivity.
    + destruct (Hlisted 0%Z) as (entry & data & _ & _ & Hclean & _).
      * vm_compute. reflexivity.
      * lia.
      * exact Hclean.
  - destruct (saveCurrentFile_outcomes 1005%Z example_json_state example_db
                (Editor.File (js "main.py") [] []) eq_refl eq_refl)
      as (_ & Hsame & _).
    edestruct Hsame as (_ & Herror & _).
    + vm_compute. reflexivity.
    + vm_compute. reflexivity.
    + exact Herror.
Defined.

(** ** Creating and deleting a file *)

Lemma filter_not_path_Resolved entries path :
  Forall (λ entry, entry ≠ JNull ∧ entry ≠ JUndefined) entries →
  Workspace.filter_not_path entries path
  = Resolved (filter (λ entry, names_path path entry = false) entries).
Proof.
  induction 1 as [|entry entries [Hnull Hundef] _ IH]; [done|].
  cbn [Workspace.filter_not_path]. rewrite IH, filter_cons.
  destruct entry as [| |b|n|s|items|fields]; try done.
  cbn [names_path].
  destruct (obj_get fields (js "path")) as [| |b|n|p|items|ff]; try done.
  destruct (decide (p = path)) as [->|Hne].
  - rewrite bool_decide_eq_false_2 by tauto.
    rewrite decide_False; [done|]. by rewrite bool_decide_eq_true_2.
  - rewrite bool_decide_eq_true_2 by done.
    rewrite decide_True; [done|]. by rewrite bool_decide_eq_false_2.
Qed.

Lemma filter_not_path_Rejected entries path :
  Exists (λ entry, entry = JNull ∨ entry = JUndefined) entries →
  Workspace.filter_not_path entries path = Rejected TypeError.
Proof.
  induction 1 as [entry entries [->| ->]|entry entries _ IH]; try done.
  cbn [Workspace.filter_not_path]. rewrite IH.
  by destruct entry.
Qed.

Lemma obj_set_same fields key value :
  prop_get fields key = Some value →
  Editor.obj_set fields key value = fields.
Proof.
  induction fields as [|[k v] fields IH]; [done|].
  cbn [prop_get Editor.obj_set]. destruct (decide (k = key)).
  - by intros [= ->].
  - intros Hget. by rewrite IH.
Qed.

Lemma obj_set_obj_set fields key v1 v2 :
  Editor.obj_set (Editor.obj_set fields key v1) key v2
  = Editor.obj_set fields key v2.
Proof.
  induction fields as [|[k v] fields IH]; cbn [Editor.obj_set].
  - by rewrite decide_True.
  - destruct (decide (k = key)) as [->|Hne]; cbn [Editor.obj_set].
    + by rewrite decide_True.
    + by rewrite decide_False, IH.
Qed.

Lemma obj_get_JArr fields key items :
  obj_get fields key = JArr items → prop_get fields key = Some (JArr items).
Proof.
  unfold obj_get. by destruct (prop_get fields key) as [v|]; intros [= ->].
Qed.

(** The calls of [create_content] when the trifle has a list of files. *)
Lemma create_content_run st path text now db trifle record fields entries :
  trifles db !! Workspace.trifleId st = Some trifle →
  content db !! Trifle.current_hash trifle = Some record →
  computeHash (JStr text) ≠ Trifle.current_hash trifle →
  Content.data record = JObj fields →
  obj_get fields (js "files") = JArr entries →
  Workspace.create_content st path text now db
  = (Resolved (computeHash (JStr text)),
     (updateTrifle (Workspace.trifleId st)
        (JObj (Editor.obj_set fields (js "files")
                 (JArr (entries
                        ++ [file_entry path (computeHash (JStr text))]))))
        now
        (with_content
           (insert (computeHash (JStr text))
                   (Content.Make (JStr text) TypeFile)) db)).2).
Proof.
  intros Htrifle Hrecord Hne Hdata Hfiles.
  unfold Workspace.create_content, mbind, async_bind.
  rewrite storeContent_eq.
  rewrite (read_after_store _ text trifle record db Htrifle Hrecord Hne).
  rewrite Hdata. unfold Workspace.push_file, file_entry. rewrite Hfiles.
  cbv zeta. cbn [mret async_ret].
  match goal with
  | |- context [updateTrifle ?i ?d now ?b] =>
      change (trifles db !! i = Some trifle) in Htrifle;
      rewrite (updateTrifle_present i d now b trifle Htrifle)
  end.
  reflexivity.
Qed.

(** The calls of [delete_content] when the trifle has a list of files. *)
Lemma delete_content_run st path now db fields entries :
  is_Some (trifles db !! Workspace.trifleId st) →
  getTrifleData (Workspace.trifleId st) db = (Resolved (JObj fields), db) →
  obj_get fields (js "files") = JArr entries →
  Forall (λ entry, entry ≠ JNull ∧ entry ≠ JUndefined) entries →
  Workspace.delete_content st path now db
  = (Resolved (),
     (updateTrifle (Workspace.trifleId st)
        (JObj (Editor.obj_set fields (js "files")
                 (JArr (filter (λ entry, names_path path entry = false)
                          entries))))
        now db).2).
Proof.
  intros [trifle Htrifle] Hread Hfiles Hentries.
  unfold Workspace.delete_content, mbind, async_bind.
  rewrite Hread. unfold Workspace.remove_file. rewrite Hfiles.
  rewrite (filter_not_path_Resolved _ _ Hentries). cbn [mret async_ret].
  rewrite (updateTrifle_present _ _ _ _ _ Htrifle). reflexivity.
Qed.

(** The state after [openFile] of a file other than the current one. *)
Lemma openFile_state ref changed st f :
  Workspace.objects st !! ref = Some f →
  Workspace.currentFile st ≠ Some ref →
  let opened := Workspace.openFile ref changed st in
  Workspace.trifleId opened.2 = Workspace.trifleId st
  ∧ Workspace.files opened.2 = Workspace.files st
  ∧ Workspace.currentFile opened.2 = Some ref
  ∧ Workspace.isDirty opened.2 = false
  ∧ Workspace.editorValue opened.2 = Editor.content f
  ∧ Workspace.objects opened.2 !! ref = Some f
  ∧ length (Workspace.objects opened.2) = length (Workspace.objects st)
  ∧ (Workspace.isDirty st = false ∨ Workspace.currentFile st = None →
     opened.1 = None ∧ Workspace.objects opened.2 = Workspace.objects st).
Proof.
  intros Hf Hother opened. unfold opened, Workspace.openFile.
  assert (Hshow : ∀ (pending : option jstring) st1,
    Workspace.objects st1 !! ref = Some f →
    let st2 := Workspace.set_isDirty false
                 (Workspace.setValue
                    (default [] (Editor.content
                                 <$> Workspace.objects
                                       (Workspace.set_currentFile (Some ref) st1)
                                     !! ref))
                    changed (Workspace.set_currentFile (Some ref) st1)) in
    Workspace.trifleId st2 = Workspace.trifleId st1
    ∧ Workspace.files st2 = Workspace.files st1
    ∧ Workspace.currentFile st2 = Some ref
    ∧ Workspace.isDirty st2 = false
    ∧ Workspace.editorValue st2 = Editor.content f
    ∧ Workspace.objects st2 = Workspace.objects st1).
  { intros pending st1 Hf1. cbn [Workspace.objects Workspace.set_currentFile].
    rewrite Hf1. by destruct changed. }
  destruct (Workspace.isDirty st) eqn:Hdirty; cbn [andb].
  - destruct (Workspace.currentFile st) as [current|] eqn:Hcurrent.
    + rewrite bool_decide_eq_true_2 by eauto.
      unfold Workspace.saveCurrentFile_start. rewrite Hcurrent, Hdirty.
      cbn [negb]. cbv zeta.
      set (st1 := Workspace.updateSavingIndicator _ _).
      assert (Hf1 : Workspace.objects st1 !! ref = Some f).
      { unfold st1. cbn [Workspace.objects Workspace.set_objects
                         Workspace.updateSavingIndicator].
        rewrite list_lookup_alter_ne; [done|congruence]. }
      destruct (Hshow None st1 Hf1) as (? & ? & ? & ? & ? & Hobjs).
      cbn [snd]. rewrite Hobjs. split_and!; try done.
      * unfold st1. cbn [Workspace.objects Workspace.set_objects
                         Workspace.updateSavingIndicator].
        by rewrite length_alter.
      * intros [?|?]; done.
    + rewrite bool_decide_eq_false_2 by (by intros [? ?]).
      destruct (Hshow None st Hf) as (? & ? & ? & ? & ? & Hobjs).
      cbn [snd fst]. rewrite Hobjs. by split_and!.
  - destruct (Hshow None st Hf) as (? & ? & ? & ? & ? & Hobjs).
    cbn [snd fst]. rewrite Hobjs. by split_and!.
Qed.

(** X15.  When the text does not have the hash of the trifle's blob and
    the data of the trifle is an object with a list of files, [createFile]
    pushes an entry for the path onto that list, whether or not the path is
    listed already, and changes nothing else in the data; the new file
    object is appended to [state.files] and opened.  When the trifle is
    gone, nothing changes but the content store, which has the text as a
    blob.  When the text has the hash of the trifle's blob, which the
    canonical JSON of that blob has, the text is stored in the place of the
    blob and nothing else changes: no file is created, and the data of the
    trifle then reads as the text. *)
Theorem createFile_appends path text now changed st db :
  let id := Workspace.trifleId st in
  let newHash := computeHash (JStr text) in
  let newFile := length (Workspace.objects st) in
  let created := Workspace.createFile path text now changed st db in
  (∀ trifle record fields entries,
     trifles db !! id = Some trifle →
     content db !! Trifle.current_hash trifle = Some record →
     newHash ≠ Trifle.current_hash trifle →
     Content.data record = JObj fields →
     obj_get fields (js "files") = JArr entries →
     references_valid st →
     (∃ data,
        getTrifleData id created.2 = (Resolved (JObj data), created.2)
        ∧ obj_get data (js "files")
          = JArr (entries ++ [file_entry path newHash])
        ∧ (∀ key, key ≠ js "files" → obj_get data key = obj_get fields key))
     ∧ Workspace.files created.1.2 = Workspace.files st ++ [newFile]
     ∧ Workspace.objects created.1.2 !! newFile
       = Some (Editor.File path newHash text)
     ∧ Workspace.currentFile created.1.2 = Some newFile
     ∧ Workspace.isDirty created.1.2 = false
     ∧ Workspace.editorValue created.1.2 = text
     ∧ (Workspace.isDirty st = false → created.1.1 = None))
  ∧ (trifles db !! id = None →
     created
     = ((None, st),
        with_content (insert newHash (Content.Make (JStr text) TypeFile)) db))
  ∧ (∀ trifle,
       trifles db !! id = Some trifle →
       newHash = Trifle.current_hash trifle →
       created
       = ((None, st),
          with_content (insert newHash (Content.Make (JStr text) TypeFile))
            db)
       ∧ getTrifleData id created.2 = (Resolved (JStr text), created.2))
  ∧ (∀ trifle fields,
       trifles db !! id = Some trifle →
       Trifle.current_hash trifle = computeHash (JObj fields) →
       canonicalJSON (JObj fields) = Some text →
       newHash = Trifle.current_hash trifle).
Proof.
  intros id newHash newFile created. split_and!; cycle 2.
  { intros trifle Htrifle Hsame.
    assert (Hcreated : created
      = ((None, st),
         with_content (insert newHash (Content.Make (JStr text) TypeFile))
           db)).
    { unfold created, Workspace.createFile, Workspace.create_content,
        mbind, async_bind.
      rewrite storeContent_eq. fold newHash. unfold newHash, id in *.
      by rewrite (read_after_store_same _ text trifle db Htrifle Hsame). }
    split; [exact Hcreated|]. rewrite Hcreated. cbn [snd].
    by apply (read_after_store_same id text trifle db). }
  { intros trifle fields Htrifle Hhash Htext. unfold newHash.
    by rewrite Hhash, (canonical_text_hash fields text). }
  - intros trifle record fields entries Htrifle Hrecord Hne Hdata Hfiles
      [Hcurrent _].
    unfold created, Workspace.createFile.
    rewrite (create_content_run st path text now db trifle record fields
               entries Htrifle Hrecord Hne Hdata Hfiles).
    fold newHash. fold id. cbv zeta.
    set (db1 := with_content _ db).
    set (data := Editor.obj_set fields (js "files") _).
    set (st1 := Workspace.set_files _ _).
    assert (Hnew : Workspace.objects st1 !! newFile
                   = Some (Editor.File path newHash text)).
    { unfold st1. cbn [Workspace.objects Workspace.set_objects
                       Workspace.set_files].
      rewrite lookup_app_r by done. unfold newFile.
      by rewrite Nat.sub_diag. }
    assert (Hother : Workspace.currentFile st1 ≠ Some newFile).
    { change (Workspace.currentFile st1) with (Workspace.currentFile st).
      intros Href. destruct (Hcurrent _ Href) as [f Hf].
      apply lookup_lt_Some in Hf. unfold newFile in Hf. lia. }
    destruct (openFile_state newFile changed st1 _ Hnew Hother)
      as (_ & Hrefs & Hcur & Hclean & Hvalue & Hobj & _ & Hpending).
    cbn [fst snd]. split_and!; try done.
    + exists data. split_and!.
      * by apply (read_after_update id (JObj data) now trifle db1).
      * unfold data. by rewrite obj_get_obj_set, decide_True.
      * intros key Hkey. unfold data.
        by rewrite obj_get_obj_set, decide_False.
    + intros Hdirty. apply Hpending. by left.
  - intros Hnone. unfold created, Workspace.createFile,
      Workspace.create_content, mbind, async_bind.
    rewrite storeContent_eq, getTrifleData_eq.
    cbn [trifles with_content]. fold id. by rewrite Hnone.
Qed.

Lemma createFile_appends_witness :
  Workspace.currentFile
    (Workspace.createFile (js "notes.py") (js "z = 2") 1005 false
       example_workspace example_db).1.2
  = Some 2%nat
  ∧ (Workspace.createFile (js "notes.py") example_json 1005 false
       example_workspace example_db).1
    = (None, example_workspace).
Proof.
  split.
  - destruct (createFile_appends (js "notes.py") (js "z = 2") 1005%Z false
                example_workspace example_db) as [Hpresent _].
    edestruct Hpresent as (_ & _ & _ & Hcurrent & _).
    + vm_compute. reflexivity.
    + vm_compute. reflexivity.
    + apply (bool_decide_unpack _). vm_compute. exact I.
    + reflexivity.
    + vm_compute. reflexivity.
    + split.
      * intros ref [= <-]. by eexists.
      * intros ref Href. apply (bool_decide_unpack _).
        revert ref Href. apply Forall_forall. by repeat constructor.
    + exact Hcurrent.
  - destruct (createFile_appends (js "notes.py") example_json 1005%Z false
                example_workspace example_db) as (_ & _ & Hsame & _).
    edestruct Hsame as [Hcreated _].
    + vm_compute. reflexivity.
    + vm_compute. reflexivity.
    + by rewrite Hcreated.
Defined.

Lemma updateTrifle_keeps id data now db :
  versions (updateTrifle id data now db).2 = versions db
  ∧ ∀ hash, is_Some (content db !! hash) →
            is_Some (content (updateTrifle id data now db).2 !! hash).
Proof.
  destruct (trifles db !! id) as [trifle|] eqn:Htrifle.
  - rewrite (updateTrifle_present _ _ _ _ _ Htrifle). cbv zeta.
    cbn [snd versions content with_trifles with_content]. split; [done|].
    intros hash Hsome. rewrite lookup_insert. by case_decide.
  - by rewrite (updateTrifle_absent _ _ _ _ Htrifle).
Qed.

(** X16.  [deleteFile] does nothing when the question is declined, and
    nothing when an entry of the trifle's files is [null].  Otherwise the
    files of the trifle lose every entry of the path and keep the others in
    order, nothing else in the data changes, no blob and no version is
    removed, and [state.files] loses the objects of the path.  No save is
    started.  When the current file has another path the editor is left
    alone; when it has the path, the first file left is opened, or the
    editor is emptied when none is left. *)
Theorem deleteFile_removes file now changed st db :
  let id := Workspace.trifleId st in
  let path := Editor.path file in
  Workspace.deleteFile file false now changed st db = ((None, st), db)
  ∧ (∀ trifle record fields entries,
       trifles db !! id = Some trifle →
       content db !! Trifle.current_hash trifle = Some record →
       Content.data record = JObj fields →
       obj_get fields (js "files") = JArr entries →
       references_valid st →
       let deleted := Workspace.deleteFile file true now changed st db in
       let left :=
         filter (λ ref, Workspace.path_of st ref ≠ Some path)
                (Workspace.files st) in
       (Exists (λ entry, entry = JNull ∨ entry = JUndefined) entries →
        deleted = ((None, st), db))
       ∧ (Forall (λ entry, entry ≠ JNull ∧ entry ≠ JUndefined) entries →
          (∃ data,
             getTrifleData id deleted.2 = (Resolved (JObj data), deleted.2)
             ∧ obj_get data (js "files")
               = JArr (filter (λ entry, names_path path entry = false)
                         entries)
             ∧ (∀ key, key ≠ js "files" →
                       obj_get data key = obj_get fields key))
          ∧ (∀ hash, is_Some (content db !! hash) →
                     is_Some (content deleted.2 !! hash))
          ∧ versions deleted.2 = versions db
          ∧ deleted.1.1 = None
          ∧ Workspace.files deleted.1.2 = left
          ∧ Workspace.objects deleted.1.2 = Workspace.objects st
          ∧ match Workspace.current_object st with
            | Some current =>
                if decide (Editor.path current = path) then
                  match left with
                  | first :: _ =>
                      Workspace.currentFile deleted.1.2 = Some first
                      ∧ Workspace.isDirty deleted.1.2 = false
                      ∧ Some (Workspace.editorValue deleted.1.2)
                        = Editor.content <$> Workspace.objects st !! first
                  | [] =>
                      Workspace.currentFile deleted.1.2 = None
                      ∧ Workspace.isDirty deleted.1.2
                        = Workspace.isDirty st || changed
                      ∧ Workspace.editorValue deleted.1.2 = []
                  end
                else
                  Workspace.currentFile deleted.1.2 = Workspace.currentFile st
                  ∧ Workspace.isDirty deleted.1.2 = Workspace.isDirty st
                  ∧ Workspace.editorValue deleted.1.2
                    = Workspace.editorValue st
            | None =>
                Workspace.currentFile deleted.1.2 = Workspace.currentFile st
                ∧ Workspace.isDirty deleted.1.2 = Workspace.isDirty st
                ∧ Workspace.editorValue deleted.1.2 = Workspace.editorValue st
            end)).
Proof.
  intros id path. split; [done|].
  intros trifle record fields entries Htrifle Hrecord Hblob Hfiles [_ Hrefs]
    deleted left.
  assert (Hread : getTrifleData id db = (Resolved (JObj fields), db)).
  { rewrite getTrifleData_eq. fold id. by rewrite Htrifle, Hrecord, Hblob. }
  split.
  - intros Hnull. unfold deleted, Workspace.deleteFile. cbn [negb].
    unfold Workspace.delete_content, mbind, async_bind.
    fold id. rewrite Hread. unfold Workspace.remove_file. rewrite Hfiles.
    by rewrite (filter_not_path_Rejected _ _ Hnull).
  - intros Hentries. unfold deleted, Workspace.deleteFile. cbn [negb].
    rewrite (delete_content_run st _ now db fields entries
               (mk_is_Some _ _ Htrifle) Hread Hfiles Hentries).
    fold id path. cbv zeta. fold left.
    set (data := Editor.obj_set fields (js "files") _).
    destruct (updateTrifle_keeps id (JObj data) now db) as [Hversions Hblobs].
    assert (Hdata : ∃ data',
      getTrifleData id (updateTrifle id (JObj data) now db).2
      = (Resolved (JObj data'), (updateTrifle id (JObj data) now db).2)
      ∧ obj_get data' (js "files")
        = JArr (filter (λ entry, names_path path entry = false) entries)
      ∧ (∀ key, key ≠ js "files" → obj_get data' key = obj_get fields key)).
    { exists data. split_and!.
      - by apply (read_after_update id (JObj data) now trifle db).
      - unfold data. by rewrite obj_get_obj_set, decide_True.
      - intros key Hkey. unfold data.
        by rewrite obj_get_obj_set, decide_False. }
    set (st1 := Workspace.set_files left st).
    change (Workspace.current_object st1) with (Workspace.current_object st).
    destruct (Workspace.current_object st) as [current|]; [|done].
    destruct (decide (Editor.path current = path)) as [Hsame|Hne]; [|done].
    change (Workspace.files (Workspace.set_currentFile None st1)) with left.
    destruct left as [|first rest] eqn:Hleft.
    + cbn [fst snd]. split_and!; try done.
      all: destruct changed; try done.
      all: unfold Workspace.setValue, Workspace.on_change;
        cbn [Workspace.isDirty Workspace.set_isDirty Workspace.set_editorValue
             Workspace.updateSavingIndicator Workspace.set_currentFile
             Workspace.set_files st1].
      * by rewrite orb_true_r.
      * by rewrite orb_false_r.
    + assert (Hin : first ∈ Workspace.files st).
      { assert (first ∈ left) as Hfirst by (rewrite Hleft; left).
        unfold left in Hfirst. apply list_elem_of_filter in Hfirst. tauto. }
      destruct (Hrefs first Hin) as [f Hf].
      destruct (openFile_state first changed
                  (Workspace.set_currentFile None st1) f Hf)
        as (_ & Hfiles' & Hcur & Hclean & Hvalue & _ & _ & Hpending);
        [done|].
      destruct Hpending as [Hnone Hobjs]; [by right|].
      cbn [fst snd]. split_and!; try done.
      by rewrite Hf, Hvalue.
Qed.

Lemma deleteFile_removes_witness :
  Workspace.files
    (Workspace.deleteFile (Editor.File (js "main.py") [] (js "x = 0")) true
       1005 false example_workspace example_db).1.2
  = [1%nat].
Proof.
  destruct (deleteFile_removes (Editor.File (js "main.py") [] (js "x = 0"))
              1005%Z false example_workspace example_db) as [_ Hconfirmed].
  edestruct Hconfirmed as [_ Hremoved].
  - vm_compute. reflexivity.
  - vm_compute. reflexivity.
  - reflexivity.
  - vm_compute. reflexivity.
  - split.
    + intros ref [= <-]. by eexists.
    + intros ref Href. apply (bool_decide_unpack _).
      revert ref Href. apply Forall_forall. by repeat constructor.
  - destruct Hremoved as (_ & _ & _ & _ & Hfiles & _).
    + by repeat constructor.
    + rewrite Hfiles. reflexivity.
Defined.

Lemma deleteFile_db file now changed st db :
  (Workspace.deleteFile file true now changed st db).2
  = (Workspace.delete_content st (Editor.path file) now db).2.
Proof.
  unfold Workspace.deleteFile. cbn [negb].
  destruct (Workspace.delete_content st (Editor.path file) now db)
    as [[[]|e] db']; [|done].
  cbv zeta.
  destruct (Workspace.current_object _) as [current|]; [|done].
  destruct (decide _); [|done].
  by destruct (Workspace.files _).
Qed.

Lemma createFile_state path text now changed st db :
  Workspace.trifleId (Workspace.createFile path text now changed st db).1.2
  = Workspace.trifleId st.
Proof.
  unfold Workspace.createFile.
  destruct (Workspace.create_content st path text now db) as [[hash|e] db'];
    [|done].
  cbv zeta. cbn [fst snd]. unfold Workspace.openFile.
  destruct (_ && _).
  - unfold Workspace.saveCurrentFile_start.
    cbn [Workspace.currentFile Workspace.set_files Workspace.set_objects
         Workspace.isDirty].
    destruct (Workspace.currentFile st); [|by destruct changed].
    destruct (negb (Workspace.isDirty st)); by destruct changed.
  - by destruct changed.
Qed.

Lemma names_path_file_entry path hash :
  names_path path (file_entry path hash) = true.
Proof.
  unfold names_path, file_entry, obj_get. cbn [prop_get].
  rewrite decide_True by done. simpl.
  by rewrite bool_decide_eq_true_2.
Qed.

(** X17.  Creating a file and deleting it again, for a path that the
    trifle does not list and a trifle whose data is an object with a list
    of files, none of them [null] or [undefined].  When the text does not have the hash of
    the trifle's blob, the data the trifle had is given back: the same blob
    is read, after two updates of the pointer, each of which increments its
    clock, which is then two higher if it was below 2^53 - 1; the blob of
    the file stays in the content store.  When the text has the hash of the
    trifle's blob, which the canonical JSON of that blob has, both calls
    fail: the pointer is as it was, the text is stored in the place of the
    blob, and the data of the trifle reads as the text. *)
Theorem createFile_deleteFile path text now now' changed changed' st db
    trifle record fields entries :
  let id := Workspace.trifleId st in
  let newHash := computeHash (JStr text) in
  trifles db !! id = Some trifle →
  content db !! Trifle.current_hash trifle = Some record →
  Content.data record = JObj fields →
  obj_get fields (js "files") = JArr entries →
  Forall (λ entry, entry ≠ JNull ∧ entry ≠ JUndefined) entries →
  Forall (λ entry, names_path path entry = false) entries →
  let created := Workspace.createFile path text now changed st db in
  let deleted :=
    Workspace.deleteFile (Editor.File path newHash text) true now' changed'
      created.1.2 created.2 in
  (newHash ≠ Trifle.current_hash trifle →
   getTrifleData id deleted.2 = (Resolved (JObj fields), deleted.2)
   ∧ getTrifle id deleted.2
     = (Resolved (Some (Trifle.Make (Trifle.owner_id trifle)
                          (computeHash (JObj fields)) now'
                          (increment
                             (increment (Trifle.logical_clock trifle))))),
        deleted.2)
   ∧ ((- 2 ^ 53 ≤ Trifle.logical_clock trifle < 2 ^ 53 - 1)%Z →
      increment (increment (Trifle.logical_clock trifle))
      = (Trifle.logical_clock trifle + 2)%Z)
   ∧ is_Some (content deleted.2 !! newHash))
  ∧ (newHash = Trifle.current_hash trifle →
     created.1 = (None, st)
     ∧ deleted.1 = (None, st)
     ∧ getTrifle id deleted.2 = (Resolved (Some trifle), deleted.2)
     ∧ getTrifleData id deleted.2 = (Resolved (JStr text), deleted.2)
     ∧ content deleted.2
       = <[newHash := Content.Make (JStr text) TypeFile]> (content db))
  ∧ (Trifle.current_hash trifle = computeHash (JObj fields) →
     canonicalJSON (JObj fields) = Some text →
     newHash = Trifle.current_hash trifle).
Proof.
  intros id newHash Htrifle Hrecord Hdata Hfiles Hentries Hfresh
    created deleted.
  split; [|split]; cycle 1.
  { intros Hsame.
    pose proof (read_after_store_same id text trifle db Htrifle Hsame)
      as Hread.
    fold newHash in Hread.
    set (db1 := with_content
                  (insert newHash (Content.Make (JStr text) TypeFile)) db)
      in Hread.
    assert (Hcreated : created = ((None, st), db1)).
    { unfold created, Workspace.createFile, Workspace.create_content,
        mbind, async_bind.
      rewrite storeContent_eq. fold newHash. fold db1. fold id.
      by rewrite Hread. }
    assert (Hdeleted : deleted = ((None, st), db1)).
    { unfold deleted. rewrite Hcreated. cbn [fst snd].
      unfold Workspace.deleteFile, Workspace.delete_content,
        mbind, async_bind. cbn [negb]. fold id. by rewrite Hread. }
    rewrite Hcreated, Hdeleted. cbn [fst snd]. split_and!; try done.
    unfold getTrifle, read. change (trifles db1) with (trifles db).
    by rewrite Htrifle. }
  { intros Hhash Htext. unfold newHash.
    by rewrite Hhash, (canonical_text_hash fields text). }
  intros Hne.
  set (db1 := with_content
                (insert newHash (Content.Make (JStr text) TypeFile)) db).
  set (data1 := Editor.obj_set fields (js "files")
                  (JArr (entries ++ [file_entry path newHash]))).
  assert (Htrifle1 : trifles db1 !! id = Some trifle) by exact Htrifle.
  assert (Hcreated : created.2 = (updateTrifle id (JObj data1) now db1).2).
  { unfold created, Workspace.createFile.
    by rewrite (create_content_run st path text now db trifle record fields
                  entries Htrifle Hrecord Hne Hdata Hfiles). }
  assert (Hid : Workspace.trifleId created.1.2 = id)
    by apply createFile_state.
  set (trifle1 := Trifle.Make (Trifle.owner_id trifle)
                    (computeHash (JObj data1)) now
                    (increment (Trifle.logical_clock trifle))).
  assert (Htrifle2 : trifles created.2 !! id = Some trifle1).
  { rewrite Hcreated, (updateTrifle_present _ _ _ _ _ Htrifle1).
    cbv zeta. cbn [snd trifles with_trifles]. apply lookup_insert_eq. }
  assert (Hread : getTrifleData id created.2
                  = (Resolved (JObj data1), created.2)).
  { rewrite Hcreated.
    by apply (read_after_update id (JObj data1) now trifle db1). }
  assert (Hfiles1 : obj_get data1 (js "files")
                    = JArr (entries ++ [file_entry path newHash])).
  { unfold data1. by rewrite obj_get_obj_set, decide_True. }
  assert (Hentries1 : Forall (λ entry, entry ≠ JNull ∧ entry ≠ JUndefined)
                        (entries ++ [file_entry path newHash])).
  { apply Forall_app. split; [done|]. by repeat constructor. }
  assert (Hdeleted : deleted.2
                     = (updateTrifle id (JObj fields) now' created.2).2).
  { unfold deleted. rewrite deleteFile_db. cbn [Editor.path].
    rewrite (delete_content_run created.1.2 path now' created.2 data1
               (entries ++ [file_entry path newHash]));
      rewrite ?Hid; [|by eexists|done..].
    cbn [snd]. do 3 f_equal. unfold data1. rewrite obj_set_obj_set.
    rewrite filter_app, filter_cons, filter_nil.
    rewrite decide_False by (by rewrite names_path_file_entry).
    rewrite app_nil_r, filter_all.
    - by apply obj_set_same, obj_get_JArr.
    - intros entry Hin. by apply (proj1 (Forall_forall _ _) Hfresh). }
  split_and!.
  - rewrite Hdeleted.
    by apply (read_after_update id (JObj fields) now' trifle1 created.2).
  - rewrite Hdeleted, (updateTrifle_present _ _ _ _ _ Htrifle2). cbv zeta.
    cbn [snd]. unfold getTrifle, read. cbn [trifles with_trifles].
    rewrite lookup_insert_eq. unfold trifle1.
    by cbn [Trifle.owner_id Trifle.logical_clock].
  - intros Hclock. rewrite (increment_safe (Trifle.logical_clock trifle))
      by lia.
    rewrite increment_safe by lia. lia.
  - rewrite Hdeleted. apply updateTrifle_keeps.
    rewrite Hcreated. apply updateTrifle_keeps.
    unfold db1. cbn [content with_content]. by rewrite lookup_insert_eq.
Qed.

Lemma createFile_deleteFile_witness :
  let created :=
    Workspace.createFile (js "notes.py") (js "z = 2") 1005 false
      example_workspace example_db in
  is_Some
    (content
       (Workspace.deleteFile
          (Editor.File (js "notes.py") (computeHash (JStr (js "z = 2")))
             (js "z = 2"))
          true 1006 false created.1.2 created.2).2
     !! computeHash (JStr (js "z = 2"))).
Proof.
  edestruct (createFile_deleteFile (js "notes.py") (js "z = 2") 1005%Z 1006%Z
               false false example_workspace example_db)
    as ((_ & _ & _ & Hblob) & _).
  - vm_compute. reflexivity.
  - vm_compute. reflexivity.
  - reflexivity.
  - vm_compute. reflexivity.
  - by repeat constructor.
  - by repeat constructor.
  - apply (bool_decide_unpack _). vm_compute. exact I.
  - exact Hblob.
Defined.

(** ** The profile page *)

Lemma getCurrentUser_eq db :
  getCurrentUser db = (Resolved (head (records_by_id (users db))), db).
Proof. reflexivity. Qed.

Lemma head_records_by_id {V} (store : gmap jstring V) r :
  head (records_by_id store) = Some r → store !! r.1 = Some r.2.
Proof.
  intros Hhead. destruct r as [id v]. apply elem_of_records_by_id.
  destruct (records_by_id store) as [|first rest]; [done|].
  injection Hhead as ->. left.
Qed.

Lemma reachable_pointers_resolve db :
  Trace.reachable db → pointers_resolve db.
Proof.
  apply reachable_invariant.
  - apply write_pointers_resolve.
  - split; intros id x; cbn; by rewrite lookup_empty.
Qed.

(** [initUser] when the store has a user. *)
Lemma initUser_found random now displayName currentUser db r record :
  head (records_by_id (users db)) = Some r →
  content db !! User.current_hash r.2 = Some record →
  Profile.initUser random now displayName currentUser db
  = (Profile.display_name (Content.data record), Some r, db).
Proof.
  intros Hhead Hrecord. unfold Profile.initUser.
  rewrite getCurrentUser_eq, Hhead.
  rewrite getUserData_eq, (head_records_by_id _ _ Hhead).
  by rewrite Hrecord.
Qed.

(** X18.  [initUser] creates a user only when there is none.  On a database
    built by local calls it sets [currentUser]: with users in the store the
    database is unchanged and the user is the first record; without, one
    anonymous user is created and the name shown is the generated one.  Run
    again, with whatever name and time, it changes nothing and gives the
    same user and the same outcome. *)
Theorem initUser_once random now displayName currentUser db :
  Trace.reachable db →
  ∃ shown user db',
    Profile.initUser random now displayName currentUser db
    = (shown, Some user, db')
    ∧ users db' !! user.1 = Some user.2
    ∧ (users db ≠ ∅ → db' = db)
    ∧ (users db = ∅ →
       users db' = {[ user.1 := user.2 ]}
       ∧ user.1 = generateId (js "user") random
       ∧ User.email user.2 = None
       ∧ User.logical_clock user.2 = 1%Z
       ∧ shown = Resolved displayName)
    ∧ (∀ random' now' displayName' currentUser',
         Profile.initUser random' now' displayName' currentUser' db'
         = (shown, Some user, db')).
Proof.
  intros Hreach.
  destruct (head (records_by_id (users db))) as [r|] eqn:Hhead.
  - pose proof (head_records_by_id _ _ Hhead) as Hget.
    destruct (reachable_pointers_resolve db Hreach) as [Husers _].
    destruct (Husers _ _ Hget) as [record Hrecord].
    exists (Profile.display_name (Content.data record)), r, db.
    split_and!.
    + by apply initUser_found.
    + done.
    + done.
    + intros Hempty. by rewrite Hempty in Hget.
    + intros. by apply initUser_found.
  - assert (Hempty : users db = ∅).
    { apply records_by_id_nil. by destruct (records_by_id (users db)). }
    set (id := generateId (js "user") random).
    set (data := new_user_data displayName).
    set (user := User.Make None (computeHash data) now 1).
    set (db' := with_users (insert id user)
                  (with_content
                     (insert (computeHash data) (Content.Make data TypeUser))
                     db)).
    assert (Husers : users db' = {[ id := user ]}).
    { unfold db'. cbn [users with_users with_content].
      by rewrite Hempty, insert_empty. }
    assert (Hhead' : head (records_by_id (users db')) = Some (id, user)).
    { rewrite Husers. unfold records_by_id.
      by rewrite map_to_list_singleton. }
    assert (Hrecord : content db' !! User.current_hash user
                      = Some (Content.Make data TypeUser)).
    { unfold db'. cbn [content with_users with_content User.current_hash].
      by rewrite lookup_insert_eq. }
    exists (Resolved displayName), (id, user), db'. split_and!.
    + unfold Profile.initUser. rewrite getCurrentUser_eq, Hhead.
      rewrite createUser_run. cbv zeta. rewrite Hempty, lookup_empty.
      fold id data user db'. rewrite getUserData_eq. cbn [fst].
      rewrite Husers, lookup_singleton_eq, Hrecord. reflexivity.
    + rewrite Husers. apply lookup_singleton_eq.
    + intros Hne. by destruct Hne.
    + done.
    + intros random' now' displayName' currentUser'.
      by rewrite (initUser_found _ _ _ _ _ _ _ Hhead' Hrecord).
Qed.

Lemma initUser_once_witness :
  ∃ shown user,
    Profile.initUser [9; 9; 9; 9; 9; 9] 2000 (JStr (js "Amy")) None example_db
    = (shown, Some user, example_db).
Proof.
  destruct (initUser_once [9; 9; 9; 9; 9; 9] 2000%Z (JStr (js "Amy")) None
              example_db) as (shown & user & db' & Hrun & _ & Hsame & _).
  - by eexists.
  - exists shown, user. rewrite Hrun. f_equal. apply Hsame.
    intros Hempty.
    assert (is_Some (users example_db !! js "user_0102030405ff")) as [u Hu]
      by (apply (bool_decide_unpack _); vm_compute; exact I).
    by rewrite Hempty, lookup_empty in Hu.
Defined.

(** ** The terminal *)

(** In the table a code replaces exactly the styles of the group of its
    own style. *)
Lemma conflicts_group code style old :
  (code, style) ∈ Terminal.styleMap →
  old ∈ Terminal.styleMap.*2 →
  Terminal.conflicts code old = bool_decide (group_of old = group_of style).
Proof.
  intros Hcode Hold.
  pose proof (bool_decide_unpack
    (Forall (λ entry : jstring * jstring,
       Forall (λ old, Terminal.conflicts entry.1 old
                      = bool_decide (group_of old = group_of entry.2))
              Terminal.styleMap.*2) Terminal.styleMap)) as Hall.
  assert (Htable : Forall (λ entry : jstring * jstring,
       Forall (λ old, Terminal.conflicts entry.1 old
                      = bool_decide (group_of old = group_of entry.2))
              Terminal.styleMap.*2) Terminal.styleMap).
  { apply Hall. vm_compute. exact I. }
  rewrite Forall_forall in Htable. specialize (Htable _ Hcode).
  rewrite Forall_forall in Htable. by apply Htable.
Qed.

Lemma styleMap_group code style :
  (code, style) ∈ Terminal.styleMap → is_Some (group_of style).
Proof.
  intros Hcode.
  assert (Htable : Forall (λ entry : jstring * jstring,
                             is_Some (group_of entry.2)) Terminal.styleMap).
  { apply (bool_decide_unpack _). vm_compute. exact I. }
  rewrite Forall_forall in Htable. by apply (Htable _ Hcode).
Qed.

Lemma apply_code_well_styled styles code :
  well_styled styles → well_styled (Terminal.apply_code styles code).
Proof.
  intros [Htable Hgroups]. unfold Terminal.apply_code.
  destruct (_ || _); [split; constructor|].
  destruct (prop_get Terminal.styleMap code) as [style|] eqn:Hcode;
    [|by split].
  apply prop_get_Some in Hcode.
  assert (Hkept : ∀ old,
    old ∈ filter (λ s, Terminal.conflicts code s = false) styles →
    old ∈ styles ∧ group_of old ≠ group_of style).
  { intros old Hold. apply list_elem_of_filter in Hold as [Hfree Hold].
    split; [done|]. intros Hsame.
    rewrite (conflicts_group code style old Hcode) in Hfree.
    - by rewrite bool_decide_eq_true_2 in Hfree.
    - rewrite Forall_forall in Htable. by apply Htable. }
  split.
  - apply Forall_app. split.
    + apply Forall_forall. intros old Hold.
      rewrite Forall_forall in Htable. apply Htable. by apply Hkept.
    + constructor; [|constructor].
      by apply (list_elem_of_fmap_2 snd _ (code, style)).
  - rewrite fmap_app. apply NoDup_app. split_and!.
    + eapply sublist_NoDup; [exact Hgroups|apply fmap_sublist, sublist_filter].
    + intros group Hin Hnew. apply list_elem_of_fmap in Hin as (old & -> & Hold).
      apply list_elem_of_singleton in Hnew.
      by destruct (Hkept old Hold).
    + apply NoDup_singleton.
Qed.

Lemma foldl_apply_code_well_styled codes styles :
  well_styled styles → well_styled (foldl Terminal.apply_code styles codes).
Proof.
  revert styles. induction codes as [|code codes IH]; intros styles Hs; [done|].
  apply IH. by apply apply_code_well_styled.
Qed.

Lemma step_styles l c :
  well_styled (Terminal.currentStyles (Terminal.term l)) →
  well_styled (Terminal.currentStyles (Terminal.term (Terminal.step l c))).
Proof.
  intros Hs. unfold Terminal.step.
  destruct (Terminal.state l).
  - destruct (c =? 27); [done|]. by destruct (c =? 10).
  - by destruct (c =? 91).
  - destruct (_ || _); [done|]. destruct (c =? 109); [|done].
    cbv zeta. cbn [Terminal.term Terminal.currentStyles].
    by apply foldl_apply_code_well_styled.
Qed.

Lemma loop_styles text l :
  well_styled (Terminal.currentStyles (Terminal.term l)) →
  well_styled
    (Terminal.currentStyles (Terminal.term (foldl Terminal.step l text))).
Proof.
  revert l. induction text as [|c text IH]; intros l Hs; [done|].
  apply IH. by apply step_styles.
Qed.

Lemma flush_styles l :
  Terminal.currentStyles (Terminal.flush l)
  = Terminal.currentStyles (Terminal.term l).
Proof. unfold Terminal.flush. by destruct (_ || _). Qed.

Lemma writeWithAnsi_styles text term :
  well_styled (Terminal.currentStyles term) →
  well_styled (Terminal.currentStyles (Terminal.writeWithAnsi text term)).
Proof.
  intros Hs. unfold Terminal.writeWithAnsi. cbv zeta.
  rewrite flush_styles. by apply loop_styles.
Qed.

Lemma write_styles text type term :
  well_styled (Terminal.currentStyles term) →
  well_styled (Terminal.currentStyles (Terminal.write text type term)).
Proof.
  intros Hs. unfold Terminal.write. destruct text as [|c text]; [done|].
  case_bool_decide; [by apply writeWithAnsi_styles|done].
Qed.

Lemma well_styled_length styles : well_styled styles → (length styles <= 5)%nat.
Proof.
  intros [Htable Hgroups].
  rewrite <-(length_fmap group_of styles).
  change 5%nat with
    (length [Some Background; Some Foreground; Some Weight; Some Slant;
             Some Decoration]).
  apply submseteq_length, NoDup_submseteq; [done|].
  intros group Hin. apply list_elem_of_fmap in Hin as (style & -> & Hstyle).
  rewrite Forall_forall in Htable.
  apply Htable, list_elem_of_fmap in Hstyle as ([code style'] & -> & Hentry).
  destruct (styleMap_group _ _ Hentry) as [group Hgroup]. cbn [snd].
  rewrite Hgroup. destruct group; by repeat constructor.
Qed.


(** *** Text without escape sequences *)

Lemma split_nonempty sep s : Terminal.split sep s ≠ [].
Proof.
  destruct s as [|c s]; [done|]. cbn [Terminal.split].
  destruct (c =? sep); [done|]. by destruct (Terminal.split sep s).
Qed.

Lemma split_cons_other sep c s :
  c ≠ sep →
  Terminal.split sep (c :: s)
  = (c :: default [] (head (Terminal.split sep s)))
    :: tail (Terminal.split sep s).
Proof.
  intros Hc. cbn [Terminal.split]. rewrite (proj2 (N.eqb_neq c sep) Hc).
  pose proof (split_nonempty sep s).
  by destruct (Terminal.split sep s).
Qed.

Lemma split_cons_sep sep s :
  Terminal.split sep (sep :: s) = [] :: Terminal.split sep s.
Proof. cbn [Terminal.split]. by rewrite N.eqb_refl. Qed.

(** The pieces of [prefix ++ s] when [prefix] holds no separator. *)
Lemma split_prefix sep prefix s :
  sep ∉ prefix →
  Terminal.split sep (prefix ++ s)
  = (prefix ++ default [] (head (Terminal.split sep s)))
    :: tail (Terminal.split sep s).
Proof.
  induction prefix as [|c prefix IH]; intros Hsep.
  - pose proof (split_nonempty sep s). cbn [app].
    by destruct (Terminal.split sep s).
  - apply not_elem_of_cons in Hsep as [Hc Hprefix].
    cbn [app]. rewrite split_cons_other by done. by rewrite IH.
Qed.

Lemma split_no_sep sep s : sep ∉ s → Terminal.split sep s = [s].
Proof.
  intros Hsep. rewrite <-(app_nil_r s) at 1.
  rewrite split_prefix by done. cbn [Terminal.split head default tail].
  by rewrite app_nil_r.
Qed.

Lemma escapeHtml_app a b :
  Terminal.escapeHtml (a ++ b)
  = Terminal.escapeHtml a ++ Terminal.escapeHtml b.
Proof. unfold Terminal.escapeHtml. apply flat_map_app. Qed.

Lemma escape_unit_nonempty c : Terminal.escape_unit c ≠ [].
Proof.
  unfold Terminal.escape_unit.
  by repeat (destruct (c =? _); [done|]).
Qed.

Lemma escapeHtml_nil s : Terminal.escapeHtml s = [] ↔ s = [].
Proof.
  split; [|by intros ->]. destruct s as [|c s]; [done|].
  unfold Terminal.escapeHtml. cbn [flat_map]. intros Hnil.
  apply app_eq_nil in Hnil as [Hc _]. by apply escape_unit_nonempty in Hc.
Qed.

(** The loop on text without the escape character: it stays in the normal
    state, emits a line for every piece but the last, and holds the last
    piece in [currentLine]. *)
Lemma loop_plain text term prefix buffer :
  27 ∉ text → 10 ∉ prefix →
  let styles := Terminal.currentStyles term in
  let pieces := Terminal.split 10 (prefix ++ text) in
  foldl Terminal.step
    (Terminal.Loop term
       (Terminal.line_start styles ++ Terminal.escapeHtml prefix)
       (Terminal.has_styles styles) Terminal.STATE_NORMAL buffer)
    text
  = Terminal.Loop
      (Terminal.Make
         (Terminal.lines term
          ++ map (λ piece, markup_line (styled_line styles piece))
                 (removelast pieces))
         styles)
      (Terminal.line_start styles
       ++ Terminal.escapeHtml (List.last pieces []))
      (Terminal.has_styles styles) Terminal.STATE_NORMAL buffer.
Proof.
  revert term prefix.
  induction text as [|c text IH]; intros term prefix Hesc Hprefix styles pieces.
  - unfold pieces. rewrite app_nil_r, split_no_sep by done.
    cbn [removelast map List.last foldl]. rewrite app_nil_r.
    by destruct term.
  - apply not_elem_of_cons in Hesc as [Hc Hesc].
    cbn [foldl]. unfold Terminal.step at 2.
    cbn [Terminal.state Terminal.term Terminal.currentLine Terminal.inSpan
         Terminal.escapeBuffer].
    rewrite (proj2 (N.eqb_neq c 27)) by done.
    destruct (N.eqb_spec c 10) as [->|Hnl].
    + cbv zeta. fold styles.
      change (Terminal.currentStyles (Terminal.emit _ term)) with styles.
      specialize (IH (Terminal.emit
                        (if Terminal.has_styles styles
                         then (Terminal.line_start styles
                               ++ Terminal.escapeHtml prefix)
                              ++ Terminal.span_close
                         else Terminal.line_start styles
                              ++ Terminal.escapeHtml prefix) term)
                     [] Hesc (not_elem_of_nil _)).
      cbv zeta in IH. cbn [app Terminal.escapeHtml flat_map] in IH.
      rewrite app_nil_r in IH.
      change (Terminal.currentStyles (Terminal.emit _ term)) with styles in IH.
      etrans; [exact IH|]. unfold pieces.
      rewrite split_prefix by done. rewrite split_cons_sep.
      cbn [head default tail]. rewrite app_nil_r.
      pose proof (split_nonempty 10 text) as Hne.
      destruct (Terminal.split 10 text) as [|piece others] eqn:Hsplit; [done|].
      cbn [removelast List.last map Terminal.lines Terminal.emit].
      f_equal. f_equal. rewrite <-app_assoc. f_equal. cbn [app]. f_equal.
      unfold markup_line, styled_line. do 2 f_equal.
      destruct (Terminal.has_styles styles); by rewrite <-?app_assoc, ?app_nil_r.
    + assert (Hp : 10 ∉ prefix ++ [c]).
      { rewrite elem_of_app, list_elem_of_singleton.
        intros [?|?]; [done|]. by subst. }
      specialize (IH term (prefix ++ [c]) Hesc Hp).
      cbv zeta in IH. fold styles in IH. unfold pieces.
      replace (prefix ++ c :: text) with ((prefix ++ [c]) ++ text)
        by (by rewrite <-app_assoc).
      rewrite <-IH. do 2 f_equal.
      by rewrite escapeHtml_app, app_assoc.
Qed.

Lemma last_default {A} (l : list A) d : l ≠ [] → last l = Some (List.last l d).
Proof.
  induction l as [|x l IH]; [done|]. intros _.
  destruct l as [|y l]; [done|]. by apply IH.
Qed.

Lemma has_styles_line_start styles :
  Terminal.has_styles styles = false → Terminal.line_start styles = [].
Proof. by destruct styles. Qed.

(** [writeWithAnsi] on text without the escape character. *)
Lemma writeWithAnsi_plain_eq text term :
  27 ∉ text →
  let styles := Terminal.currentStyles term in
  Terminal.writeWithAnsi text term
  = Terminal.Make
      (Terminal.lines term
       ++ map (λ piece, markup_line (styled_line styles piece))
              (if Terminal.has_styles styles then Terminal.split 10 text
               else Terminal.text_lines text))
      styles.
Proof.
  intros Hesc styles. unfold Terminal.writeWithAnsi. cbv zeta. fold styles.
  pose proof (loop_plain text term [] [] Hesc (not_elem_of_nil _)) as Hloop.
  cbv zeta in Hloop. fold styles in Hloop.
  cbn [app Terminal.escapeHtml flat_map] in Hloop.
  rewrite app_nil_r in Hloop. rewrite Hloop. clear Hloop.
  pose proof (split_nonempty 10 text) as Hne.
  set (pieces := Terminal.split 10 text) in *.
  rewrite (app_removelast_last [] Hne) at 3.
  unfold Terminal.flush, Terminal.text_lines. fold pieces.
  cbn [Terminal.currentLine Terminal.inSpan Terminal.term].
  rewrite (last_default pieces [] Hne).
  destruct (Terminal.has_styles styles) eqn:Hstyles.
  - rewrite orb_true_r. unfold Terminal.emit.
    cbn [Terminal.lines Terminal.currentStyles].
    rewrite map_app, app_assoc. cbn [map]. unfold styled_line.
    rewrite Hstyles. unfold markup_line.
    by rewrite <-(app_assoc (Terminal.line_start styles)).
  - rewrite orb_false_r, (has_styles_line_start _ Hstyles). cbn [app].
    destruct (List.last pieces []) as [|c piece] eqn:Hlast.
    + cbn [Terminal.escapeHtml flat_map].
      by rewrite bool_decide_eq_true_2.
    + rewrite bool_decide_eq_false_2;
        [|rewrite escapeHtml_nil; discriminate].
      cbn [negb]. unfold Terminal.emit.
      cbn [Terminal.lines Terminal.currentStyles].
      assert (Hpieces : pieces = removelast pieces ++ [c :: piece]).
      { rewrite <-Hlast. by apply app_removelast_last. }
      f_equal. rewrite <-app_assoc. f_equal.
      rewrite Hpieces at 2.
      rewrite map_app. cbn [map]. unfold styled_line.
      rewrite Hstyles, (has_styles_line_start _ Hstyles). cbn [app].
      by rewrite app_nil_r.
Qed.

(** *** The markup of the lines *)

Lemma balanced_app a b : balanced a → balanced b → balanced (a ++ b).
Proof.
  induction 1 as [|s rest Hs _ IH|styles s rest Hs _ IH]; intros Hb; [done| |].
  - rewrite <-app_assoc. by constructor; [|apply IH].
  - rewrite <-!app_assoc. by constructor; [|apply IH].
Qed.

Lemma balanced_plain s : plain s → balanced s.
Proof.
  intros Hs. rewrite <-(app_nil_r s). by constructor; [|constructor].
Qed.

Lemma plain_escape_unit c : plain (Terminal.escape_unit c).
Proof.
  unfold Terminal.escape_unit, plain.
  destruct (N.eqb_spec c 38); [by repeat constructor|].
  destruct (N.eqb_spec c 60); [by repeat constructor|].
  destruct (N.eqb_spec c 62); [by repeat constructor|].
  destruct (N.eqb_spec c 160); by repeat constructor.
Qed.

Lemma plain_escapeHtml s : plain (Terminal.escapeHtml s).
Proof.
  unfold plain, Terminal.escapeHtml.
  induction s as [|c s IH]; [constructor|].
  cbn [flat_map]. apply Forall_app. split; [apply plain_escape_unit|done].
Qed.

Lemma open_line_close inSpan line :
  open_line inSpan line →
  balanced (if inSpan then line ++ Terminal.span_close else line).
Proof.
  destruct inSpan; [|done]. intros (done & styles & s & -> & Hdone & Hs).
  rewrite <-!app_assoc. apply balanced_app; [done|].
  rewrite <-(app_nil_r Terminal.span_close).
  by constructor; [|constructor].
Qed.

Lemma open_line_start styles :
  open_line (Terminal.has_styles styles) (Terminal.line_start styles).
Proof.
  destruct styles as [|style styles]; [constructor|].
  exists [], (style :: styles), []. cbn [app Terminal.line_start].
  rewrite app_nil_r. by repeat constructor.
Qed.

Lemma open_line_text inSpan line s :
  open_line inSpan line → plain s → open_line inSpan (line ++ s).
Proof.
  destruct inSpan.
  - intros (done & styles & s' & -> & Hdone & Hs') Hs.
    exists done, styles, (s' ++ s). rewrite <-!app_assoc.
    split_and!; [done..|]. by apply Forall_app.
  - intros Hline Hs. apply balanced_app; [done|by apply balanced_plain].
Qed.

Lemma open_line_restart closed styles :
  balanced closed →
  open_line (Terminal.has_styles styles)
    (closed ++ Terminal.line_start styles).
Proof.
  intros Hclosed. destruct styles as [|style styles].
  - cbn [Terminal.has_styles Terminal.line_start]. by rewrite app_nil_r.
  - exists closed, (style :: styles), []. cbn [Terminal.line_start].
    rewrite app_nil_r. by repeat constructor.
Qed.

Lemma emit_balanced markup term :
  balanced markup →
  Forall balanced_line (Terminal.lines term) →
  Forall balanced_line (Terminal.lines (Terminal.emit markup term)).
Proof.
  intros Hmarkup Hlines. unfold Terminal.emit. cbn [Terminal.lines].
  apply Forall_app. split; [done|]. by repeat constructor.
Qed.

(** What the loop keeps: the lines are balanced and the line under
    construction is well begun. *)
Lemma step_balanced l c :
  Forall balanced_line (Terminal.lines (Terminal.term l)) →
  open_line (Terminal.inSpan l) (Terminal.currentLine l) →
  Forall balanced_line (Terminal.lines (Terminal.term (Terminal.step l c)))
  ∧ open_line (Terminal.inSpan (Terminal.step l c))
      (Terminal.currentLine (Terminal.step l c)).
Proof.
  intros Hlines Hopen. unfold Terminal.step.
  destruct (Terminal.state l).
  - destruct (c =? 27); [done|]. destruct (c =? 10).
    + cbv zeta. cbn [Terminal.term Terminal.inSpan Terminal.currentLine].
      split; [|apply open_line_start].
      apply emit_balanced; [|done]. by apply open_line_close.
    + cbn [Terminal.term Terminal.inSpan Terminal.currentLine].
      split; [done|]. apply open_line_text; [done|apply plain_escapeHtml].
  - destruct (c =? 91); [done|].
    cbn [Terminal.term Terminal.inSpan Terminal.currentLine].
    split; [done|]. apply open_line_text; [done|apply plain_escapeHtml].
  - destruct (_ || _); [done|]. destruct (c =? 109); [|done].
    cbv zeta. cbn [Terminal.term Terminal.inSpan Terminal.currentLine
                   Terminal.lines].
    split; [done|]. apply open_line_restart. by apply open_line_close.
Qed.

Lemma loop_balanced text l :
  Forall balanced_line (Terminal.lines (Terminal.term l)) →
  open_line (Terminal.inSpan l) (Terminal.currentLine l) →
  Forall balanced_line
    (Terminal.lines (Terminal.term (foldl Terminal.step l text)))
  ∧ open_line (Terminal.inSpan (foldl Terminal.step l text))
      (Terminal.currentLine (foldl Terminal.step l text)).
Proof.
  revert l. induction text as [|c text IH]; intros l Hlines Hopen; [done|].
  cbn [foldl]. destruct (step_balanced l c Hlines Hopen). by apply IH.
Qed.

Lemma writeWithAnsi_balanced text term :
  Forall balanced_line (Terminal.lines term) →
  Forall balanced_line (Terminal.lines (Terminal.writeWithAnsi text term)).
Proof.
  intros Hlines. unfold Terminal.writeWithAnsi. cbv zeta.
  match goal with
  | |- context [foldl Terminal.step ?l text] =>
      destruct (loop_balanced text l) as [Hdone Hopen];
      [done|apply open_line_start|]
  end.
  unfold Terminal.flush. destruct (_ || _); [|done].
  apply emit_balanced; [|done]. by apply open_line_close.
Qed.

Lemma write_balanced text type term :
  Forall balanced_line (Terminal.lines term) →
  Forall balanced_line (Terminal.lines (Terminal.write text type term)).
Proof.
  intros Hlines. unfold Terminal.write. destruct text as [|c text]; [done|].
  case_bool_decide; [by apply writeWithAnsi_balanced|].
  cbn [Terminal.lines]. apply Forall_app. split; [done|].
  apply Forall_forall. intros line Hin.
  apply list_elem_of_fmap in Hin as (piece & -> & _). exact I.
Qed.

(** *** Output written in pieces *)

Lemma split_app_sep sep a b :
  Terminal.split sep (a ++ sep :: b)
  = Terminal.split sep a ++ Terminal.split sep b.
Proof.
  induction a as [|c a IH]; cbn [app].
  - by rewrite split_cons_sep.
  - destruct (decide (c = sep)) as [->|Hc].
    + by rewrite !split_cons_sep, IH.
    + rewrite !split_cons_other, IH by done.
      pose proof (split_nonempty sep a).
      by destruct (Terminal.split sep a).
Qed.

Lemma length_split sep (s : list N) :
  length (Terminal.split sep s) = S (length (filter (λ c, c = sep) s)).
Proof.
  induction s as [|c s IH]; [done|].
  rewrite filter_cons. destruct (decide (c = sep)) as [->|Hc].
  - rewrite split_cons_sep. cbn [length]. by rewrite IH.
  - rewrite split_cons_other by done. cbn [length].
    pose proof (split_nonempty sep s).
    destruct (Terminal.split sep s); [done|]. by rewrite <-IH.
Qed.

Lemma last_split sep (s : list N) :
  List.last (Terminal.split sep s) [] = []
  ↔ s = [] ∨ last s = Some sep.
Proof.
  induction s as [|c s IH] using rev_ind; [by split; [left|]|].
  rewrite last_snoc. destruct (decide (c = sep)) as [->|Hc].
  - rewrite split_app_sep. cbn [Terminal.split].
    rewrite last_last. split; [by right|done].
  - split.
    2:{ intros [Hnil|Heq]; [by apply app_eq_nil in Hnil as [_ ?]|].
        by injection Heq. }
    intros Hlast. exfalso. revert Hlast. clear IH.
    induction s as [|d s IH]; cbn [app].
    + rewrite split_cons_other by done. done.
    + destruct (decide (d = sep)) as [->|Hd].
      * rewrite split_cons_sep.
        pose proof (split_nonempty sep (s ++ [c])).
        destruct (Terminal.split sep (s ++ [c])); [done|]. exact IH.
      * rewrite split_cons_other by done.
        pose proof (split_nonempty sep (s ++ [c])).
        destruct (Terminal.split sep (s ++ [c])) as [|p [|q ps]];
          [done|done|exact IH].
Qed.

(** The number of lines that [write] shows for a type other than
    ['output'], and for plain output without styles. *)
Lemma length_text_lines (s : list N) :
  length (Terminal.text_lines s)
  = (S (length (filter (λ c, c = 10%N) s))
     - (if decide (s = [] ∨ last s = Some 10%N) then 1 else 0))%nat.
Proof.
  unfold Terminal.text_lines. cbv zeta.
  pose proof (split_nonempty 10 s) as Hne.
  pose proof (last_split 10 s) as Hlast.
  pose proof (length_split 10 s) as Hlen.
  rewrite (last_default (Terminal.split 10 s) [] Hne).
  destruct (List.last (Terminal.split 10 s) []) as [|c piece].
  - rewrite decide_True by tauto.
    pose proof (f_equal length
                  (app_removelast_last (A:=jstring) [] Hne)) as Hparts.
    rewrite length_app in Hparts. cbn [length] in Hparts. lia.
  - rewrite decide_False; [lia|]. intros H. by apply Hlast in H.
Qed.

Lemma write_output text term :
  text ≠ [] →
  Terminal.write text (js "output") term = Terminal.writeWithAnsi text term.
Proof.
  intros Htext. unfold Terminal.write. destruct text; [done|].
  by rewrite bool_decide_eq_true_2.
Qed.

Lemma styled_line_plain styles piece :
  styles = [] → styled_line styles piece = Terminal.escapeHtml piece.
Proof. intros ->. unfold styled_line. cbn. by rewrite app_nil_r. Qed.

Lemma styled_line_span styles piece :
  styles ≠ [] →
  styled_line styles piece
  = Terminal.span_open styles ++ Terminal.escapeHtml piece
    ++ Terminal.span_close.
Proof. by destruct styles. Qed.

(** X19.  The styles in force stay within the table.  After any sequence of
    writes to a new terminal, the styles are entries of the table of
    [writeWithAnsi] with at most one for the background, one for the
    colour, one of bold and dim, one for italic and one of underline and
    strike-through: there are never more than five, however many escape
    sequences the output holds.  Writes of another type than ['output'] and
    output without the escape character leave the styles as they are, and
    [clear] removes them. *)
Theorem styles_bounded calls :
  let term := writes calls Terminal.empty in
  well_styled (Terminal.currentStyles term)
  ∧ (length (Terminal.currentStyles term) <= 5)%nat
  ∧ (∀ text type,
       type ≠ js "output" ∨ 27 ∉ text →
       Terminal.currentStyles (Terminal.write text type term)
       = Terminal.currentStyles term)
  ∧ Terminal.currentStyles (Terminal.clear term) = [].
Proof.
  intros term.
  assert (Hs : well_styled (Terminal.currentStyles term)).
  { unfold term, writes.
    assert (Hempty : well_styled (Terminal.currentStyles Terminal.empty))
      by (split; constructor).
    revert Hempty. generalize Terminal.empty.
    induction calls as [|[text type] calls IH]; intros start Hstart; [done|].
    apply IH. by apply write_styles. }
  split_and!; [done|by apply well_styled_length| |done].
  intros text type Hcase. unfold Terminal.write.
  destruct text as [|c text]; [done|].
  case_bool_decide as Htype; [|done].
  destruct Hcase as [?|Hesc]; [done|].
  by rewrite (writeWithAnsi_plain_eq _ term Hesc).
Qed.

Lemma styles_bounded_witness :
  Terminal.currentStyles
    (Terminal.write (js "done") (js "info")
       (writes [([27; 91] ++ js "1;31mred", js "output")] Terminal.empty))
  = [js "font-weight: bold"; js "color: #cd3131"].
Proof.
  destruct (styles_bounded [([27; 91] ++ js "1;31mred", js "output")])
    as (_ & _ & Hkeep & _).
  rewrite Hkeep; [reflexivity|]. left. discriminate.
Defined.

(** X20.  Output without the escape character.  With no style in force,
    [write] shows the pieces of the text between newlines, escaped, one
    line each, leaving out the last piece when it is empty: the same
    pieces as for the types ['error'] and ['info'].  With styles in force
    every piece is wrapped in a [span], and the last piece is shown even
    when it is empty, so output that ends in a newline is followed by a
    line that holds an empty [span]. *)
Theorem plain_output_lines text term :
  27 ∉ text → text ≠ [] →
  let styles := Terminal.currentStyles term in
  let shown := Terminal.write text (js "output") term in
  (styles = [] →
   shown
   = Terminal.Make
       (Terminal.lines term
        ++ map (λ piece, markup_line (Terminal.escapeHtml piece))
               (Terminal.text_lines text))
       []
   ∧ Terminal.lines (Terminal.write text (js "error") term)
     = Terminal.lines term
       ++ map (λ piece,
                 Terminal.Line [js "terminal-line"; js "terminal-error"]
                   (Terminal.TextContent piece))
              (Terminal.text_lines text))
  ∧ (styles ≠ [] →
     shown
     = Terminal.Make
         (Terminal.lines term
          ++ map (λ piece,
                    markup_line
                      (Terminal.span_open styles ++ Terminal.escapeHtml piece
                       ++ Terminal.span_close))
                 (Terminal.split 10 text))
         styles
     ∧ length (Terminal.lines shown)
       = (length (Terminal.lines term)
          + S (length (filter (λ c, c = 10%N) text)))%nat
     ∧ (last text = Some 10 →
        last (Terminal.lines shown)
        = Some (markup_line
                  (Terminal.span_open styles ++ Terminal.span_close)))).
Proof.
  intros Hesc Htext styles shown.
  assert (Hshown : shown = Terminal.writeWithAnsi text term)
    by by apply write_output.
  rewrite (writeWithAnsi_plain_eq text term Hesc) in Hshown.
  cbv zeta in Hshown. fold styles in Hshown.
  split.
  - intros Hstyles. rewrite Hstyles in Hshown. cbn [Terminal.has_styles] in Hshown.
    split.
    + rewrite Hshown. do 2 f_equal. apply map_ext. intros piece.
      by rewrite styled_line_plain.
    + unfold Terminal.write. destruct text as [|c text]; [done|].
      by rewrite bool_decide_eq_false_2.
  - intros Hstyles.
    assert (Hhas : Terminal.has_styles styles = true) by by destruct styles.
    rewrite Hhas in Hshown.
    assert (Heq : shown
      = Terminal.Make
          (Terminal.lines term
           ++ map (λ piece,
                     markup_line
                       (Terminal.span_open styles ++ Terminal.escapeHtml piece
                        ++ Terminal.span_close))
                  (Terminal.split 10 text))
          styles).
    { rewrite Hshown. do 2 f_equal. apply map_ext. intros piece.
      by rewrite styled_line_span. }
    split_and!; [done| |].
    + rewrite Heq. cbn [Terminal.lines].
      by rewrite length_app, length_map, length_split.
    + intros Hlast. rewrite Heq. cbn [Terminal.lines].
      pose proof (split_nonempty 10 text) as Hne.
      assert (Hempty : List.last (Terminal.split 10 text) [] = [])
        by (apply last_split; by right).
      rewrite (app_removelast_last (A:=jstring) [] Hne), Hempty.
      rewrite map_app, app_assoc. cbn [map]. by rewrite last_snoc.
Qed.

Lemma plain_output_lines_witness :
  Terminal.lines
    (Terminal.write (js "a<b" ++ [10]) (js "output") Terminal.empty)
  = [markup_line (js "a&lt;b")].
Proof.
  destruct (plain_output_lines (js "a<b" ++ [10]) Terminal.empty)
    as [Hplain _].
  - apply (bool_decide_unpack _). vm_compute. exact I.
  - discriminate.
  - destruct Hplain as [Hshown _]; [reflexivity|]. by rewrite Hshown.
Defined.

(** X21.  Every line that the terminal shows as markup is balanced: it is
    text without angle brackets and [span] elements that are opened and
    closed in turn, whatever the text that is written, with or without
    escape sequences, complete or cut off.  A [<] or [>] of the output
    never reaches the markup. *)
Theorem lines_balanced calls :
  Forall balanced_line (Terminal.lines (writes calls Terminal.empty))
  ∧ (∀ text term,
       Forall balanced_line (Terminal.lines term) →
       Forall balanced_line
         (Terminal.lines (Terminal.writeWithAnsi text term)))
  ∧ (∀ text, plain (Terminal.escapeHtml text)).
Proof.
  split_and!.
  - unfold writes.
    assert (Hempty : Forall balanced_line (Terminal.lines Terminal.empty))
      by constructor.
    revert Hempty. generalize Terminal.empty.
    induction calls as [|[text type] calls IH]; intros start Hstart; [done|].
    apply IH. by apply write_balanced.
  - intros text term. apply writeWithAnsi_balanced.
  - apply plain_escapeHtml.
Qed.

Lemma lines_balanced_witness :
  Forall balanced_line
    (Terminal.lines
       (Terminal.writeWithAnsi ([27; 91] ++ js "31m<b>" ++ [10; 27])
          Terminal.empty)).
Proof.
  destruct (lines_balanced []) as (_ & Hwrite & _).
  apply Hwrite. constructor.
Defined.

(** X22.  Output written in pieces.  For output without the escape
    character, written as two texts one after the other: with no style in
    force and the first text ending in a newline, the terminal shows what
    it shows for the whole text written at once; when the first text stops
    inside a line, or when a style is in force, it shows one line more. *)
Theorem write_in_pieces (first second : list N) term :
  27 ∉ first → 27 ∉ second → first ≠ [] → second ≠ [] →
  let styles := Terminal.currentStyles term in
  let two :=
    Terminal.write second (js "output")
      (Terminal.write first (js "output") term) in
  let one := Terminal.write (first ++ second) (js "output") term in
  (styles = [] → last first = Some 10 → two = one)
  ∧ (styles ≠ [] ∨ last first ≠ Some 10 →
     length (Terminal.lines two) = S (length (Terminal.lines one))).
Proof.
  intros Hfirst Hsecond Hne1 Hne2 styles two one.
  assert (Hboth : 27 ∉ first ++ second).
  { rewrite elem_of_app. tauto. }
  assert (Hne : first ++ second ≠ []).
  { intros Hnil. by apply app_eq_nil in Hnil as [? _]. }
  assert (Htwo : two
    = Terminal.writeWithAnsi second (Terminal.writeWithAnsi first term)).
  { unfold two. by rewrite !write_output. }
  assert (Hone : one = Terminal.writeWithAnsi (first ++ second) term).
  { unfold one. by rewrite write_output. }
  rewrite (writeWithAnsi_plain_eq first term Hfirst) in Htwo.
  rewrite (writeWithAnsi_plain_eq second _ Hsecond) in Htwo.
  rewrite (writeWithAnsi_plain_eq _ term Hboth) in Hone.
  cbv zeta in Htwo, Hone. cbn [Terminal.currentStyles Terminal.lines] in Htwo.
  fold styles in Htwo, Hone.
  assert (Hlast : last (first ++ second) = Some 10 ↔ last second = Some 10).
  { destruct second as [|c second] using rev_ind; [done|].
    by rewrite app_assoc, !last_snoc. }
  split.
  - intros Hstyles Hnl. rewrite Htwo, Hone, Hstyles.
    cbn [Terminal.has_styles]. f_equal. rewrite <-app_assoc. f_equal.
    rewrite <-map_app. f_equal.
    destruct first as [|c body _] using rev_ind; [done|].
    rewrite last_snoc in Hnl. injection Hnl as ->.
    unfold Terminal.text_lines. cbv zeta.
    rewrite <-(app_assoc body [10] second). cbn [app].
    rewrite !split_app_sep. cbn [Terminal.split].
    pose proof (split_nonempty 10 body) as Hbody.
    pose proof (split_nonempty 10 second) as Hpieces.
    rewrite !last_app. cbn [last].
    rewrite (last_default (Terminal.split 10 second) [] Hpieces).
    rewrite removelast_last.
    destruct (List.last (Terminal.split 10 second) []); [|done].
    by rewrite removelast_app.
  - intros Hcase. rewrite Htwo, Hone. cbn [Terminal.lines].
    rewrite !length_app, !length_map.
    destruct (Terminal.has_styles styles) eqn:Hhas.
    + rewrite !length_split, filter_app, length_app. lia.
    + destruct Hcase as [Hstyles|Hnl]; [by destruct styles|].
      rewrite !length_text_lines, filter_app, length_app.
      rewrite (decide_False (P:=first = [] ∨ _)) by tauto.
      destruct (decide (second = [] ∨ last second = Some 10)) as [Hs|Hs].
      * rewrite decide_True by tauto. lia.
      * rewrite decide_False; [lia|]. intros [?|?]; [done|]. tauto.
Qed.

Lemma write_in_pieces_witness :
  length
    (Terminal.lines
       (Terminal.write (js "lo") (js "output")
          (Terminal.write (js "hel") (js "output") Terminal.empty)))
  = 2%nat.
Proof.
  destruct (write_in_pieces (js "hel") (js "lo") Terminal.empty)
    as [_ Hmore].
  - apply (bool_decide_unpack _). vm_compute. exact I.
  - apply (bool_decide_unpack _). vm_compute. exact I.
  - discriminate.
  - discriminate.
  - rewrite Hmore; [reflexivity|]. right. discriminate.
Defined.

(** ** Files written by the program *)

Lemma sync_loop_skip workerFiles known p :
  (∀ file, file ∈ workerFiles → Sync.map_get known file.1 = Some file.2) →
  Sync.sync_loop workerFiles known p = (true, p).
Proof.
  induction workerFiles as [|[path content] rest IH]; intros Hknown; [done|].
  cbn [Sync.sync_loop]. rewrite decide_True.
  - apply IH. intros file Hin. apply Hknown. by right.
  - apply (Hknown (path, content)). left.
Qed.

Lemma syncFilesFromWorker_skip workerFiles now st db :
  (∀ file, file ∈ workerFiles →
           Sync.map_get (Sync.entries st) file.1 = Some file.2) →
  Sync.syncFilesFromWorker workerFiles now st db = (true, st, db).
Proof.
  intros Hknown. unfold Sync.syncFilesFromWorker. cbv zeta.
  rewrite getTrifleData_eq. by rewrite sync_loop_skip.
Qed.

(** The loop writes to the content store only. *)
Lemma sync_loop_frame workerFiles known p :
  let db := Sync.database p in
  let db' := Sync.database (Sync.sync_loop workerFiles known p).2 in
  users db' = users db ∧ trifles db' = trifles db
  ∧ versions db' = versions db
  ∧ versions_next_key db' = versions_next_key db
  ∧ (∀ hash, is_Some (content db !! hash) → is_Some (content db' !! hash)).
Proof.
  revert p. induction workerFiles as [|[path text] rest IH]; intros p; [done|].
  cbn [Sync.sync_loop]. case_decide; [apply IH|]. cbv zeta.
  rewrite storeContent_eq. cbn [snd].
  set (db1 := with_content _ (Sync.database p)).
  assert (Hstep : ∀ hash, is_Some (content (Sync.database p) !! hash) →
                          is_Some (content db1 !! hash)).
  { intros hash Hsome. unfold db1. cbn [content with_content].
    rewrite lookup_insert. by case_decide. }
  destruct (Sync.sync_entry _ _ _) as [data|e].
  - specialize (IH (Sync.Progress data true
                      (Sync.sync_local (Sync.state p) path text
                         (computeHash (JStr text))) db1)).
    cbv zeta in IH. cbn [Sync.database] in IH.
    destruct IH as (-> & -> & -> & -> & Hcontent).
    split_and!; try done. intros hash Hsome. by apply Hcontent, Hstep.
  - cbn [snd Sync.database]. by split_and!.
Qed.

(** The state after a loop that went through. *)
Lemma sync_loop_state workerFiles known p p' :
  Sync.sync_loop workerFiles known p = (true, p') →
  Sync.state p' = synced workerFiles known (Sync.state p).
Proof.
  revert p. induction workerFiles as [|[path text] rest IH]; intros p.
  { by intros [= <-]. }
  cbn [Sync.sync_loop]. unfold synced. cbn [foldl fst snd].
  case_decide; [apply IH|]. cbv zeta.
  destruct (Sync.sync_entry _ _ _) as [data|e]; [|done].
  intros Hloop. by apply IH in Hloop.
Qed.

Lemma map_get_elem (l : list (jstring * jstring)) path text :
  NoDup l.*1 → Sync.map_get l path = Some text ↔ (path, text) ∈ l.
Proof.
  intros Hkeys. unfold Sync.map_get. split.
  - intros Hget.
    destruct (last (filter (λ entry, entry.1 = path) l)) as [[k v]|] eqn:Hlast;
      [|done].
    injection Hget as ->. apply last_Some_elem_of in Hlast.
    apply list_elem_of_filter in Hlast as [Hk Hin]. cbn [fst] in Hk.
    by subst k.
  - intros Hin. by rewrite (filter_key_unique l path text Hkeys Hin).
Qed.

Lemma omap_key_inj {A K V} (g : A → option (K * V)) (l : list A) x y a b :
  NoDup (omap g l).*1 →
  x ∈ l → y ∈ l → g x = Some a → g y = Some b → a.1 = b.1 → x = y.
Proof.
  induction l as [|z l IH]; [by rewrite elem_of_nil|].
  cbn [omap list_omap]. intros Hkeys Hx Hy Hgx Hgy Hab.
  assert (Htail : ∀ u c, u ∈ l → g u = Some c → c.1 ∈ (omap g l).*1).
  { intros u c Hu Hgu. apply (list_elem_of_fmap_2 fst).
    apply list_elem_of_omap. by exists u. }
  apply elem_of_cons in Hx as [->|Hx]; apply elem_of_cons in Hy as [->|Hy].
  - done.
  - rewrite Hgx in Hkeys. cbn [fmap list_fmap] in Hkeys.
    apply NoDup_cons in Hkeys as [Hhead _]. destruct Hhead.
    rewrite Hab. by apply (Htail y).
  - rewrite Hgy in Hkeys. cbn [fmap list_fmap] in Hkeys.
    apply NoDup_cons in Hkeys as [Hhead _]. destruct Hhead.
    rewrite <-Hab. by apply (Htail x).
  - apply IH; try done. destruct (g z); [|done].
    cbn [fmap list_fmap] in Hkeys. by apply NoDup_cons in Hkeys as [_ ?].
Qed.

Lemma local_find_Some st path ref :
  Sync.local_find st path = Some ref →
  ref ∈ Workspace.files st ∧ Workspace.path_of st ref = Some path.
Proof.
  intros Hfind. apply find_some in Hfind as [Hin Hpath].
  split; [by apply list_elem_of_In|]. by apply bool_decide_eq_true in Hpath.
Qed.

Lemma local_find_None st path ref :
  Sync.local_find st path = None →
  ref ∈ Workspace.files st → Workspace.path_of st ref ≠ Some path.
Proof.
  intros Hfind Hin. apply list_elem_of_In in Hin.
  pose proof (find_none _ _ Hfind ref Hin) as Hpath.
  by apply bool_decide_eq_false in Hpath.
Qed.

Lemma elem_of_entries st path text :
  (path, text) ∈ Sync.entries st
  ↔ ∃ ref f, ref ∈ Workspace.files st
             ∧ Workspace.objects st !! ref = Some f
             ∧ Editor.path f = path ∧ Editor.content f = text.
Proof.
  unfold Sync.entries. rewrite list_elem_of_omap. split.
  - intros (ref & Hin & Hproj).
    destruct (Workspace.objects st !! ref) as [f|] eqn:Hf; [|done].
    injection Hproj as <- <-. by exists ref, f.
  - intros (ref & f & Hin & Hf & <- & <-). exists ref. by rewrite Hf.
Qed.

(** The entries after the file of [path] has got its content: in place
    when the path is listed, at the end otherwise. *)
Lemma entries_sync_local st path text hash :
  references_valid st →
  NoDup (Sync.entries st).*1 →
  let st' := Sync.sync_local st path text hash in
  references_valid st'
  ∧ NoDup (Sync.entries st').*1
  ∧ (path, text) ∈ Sync.entries st'
  ∧ (∀ other v, other ≠ path →
                (other, v) ∈ Sync.entries st' ↔ (other, v) ∈ Sync.entries st).
Proof.
  intros [Hcurrent Hvalid] Hkeys st'. unfold st', Sync.sync_local.
  destruct (Sync.local_find st path) as [ref|] eqn:Hfind.
  - apply local_find_Some in Hfind as [Hin Hpath].
    unfold Workspace.path_of in Hpath.
    destruct (Workspace.objects st !! ref) as [f0|] eqn:Hf0; [|done].
    injection Hpath as Hpath.
    set (update := λ f, Editor.File (Editor.path f) hash text).
    set (replace := λ entry : jstring * jstring,
                      if decide (entry.1 = path) then (path, text) else entry).
    assert (Hentries : Sync.entries
                         (Workspace.set_objects
                            (alter update ref (Workspace.objects st)) st)
                       = replace <$> Sync.entries st).
    { unfold Sync.entries.
      cbn [Workspace.objects Workspace.files Workspace.set_objects].
      assert (Hsingle : ∀ r f, r ∈ Workspace.files st →
                Workspace.objects st !! r = Some f →
                Editor.path f = path → r = ref).
      { intros r f Hr Hf Hp.
        eapply (omap_key_inj _ _ r ref _ _ Hkeys Hr Hin).
        - by rewrite Hf.
        - by rewrite Hf0.
        - cbn [fst]. congruence. }
      revert Hsingle. generalize (Workspace.files st) as refs.
      induction refs as [|r refs IH]; intros Hsingle; [done|].
      cbn [omap list_omap].
      rewrite IH by (intros; eapply Hsingle; [by right|done..]).
      destruct (decide (r = ref)) as [->|Hr].
      + rewrite list_lookup_alter_eq, Hf0. cbn [fmap option_fmap option_map].
        cbn [fmap list_fmap]. f_equal. unfold replace, update.
        cbn [fst Editor.path Editor.content].
        rewrite decide_True by done. by rewrite Hpath.
      + rewrite list_lookup_alter_ne by done.
        destruct (Workspace.objects st !! r) as [f|] eqn:Hf; [|done].
        cbn [fmap option_fmap option_map list_fmap]. f_equal.
        unfold replace. cbn [fst]. rewrite decide_False; [done|].
        intros Hp. apply Hr. eapply Hsingle; [left|done..]. }
    rewrite Hentries. split_and!.
    + split; intros r Hr;
        cbn [Workspace.objects Workspace.files Workspace.currentFile
             Workspace.set_objects] in *.
      * apply lookup_lt_is_Some. rewrite length_alter.
        by apply lookup_lt_is_Some, Hcurrent.
      * apply lookup_lt_is_Some. rewrite length_alter.
        by apply lookup_lt_is_Some, Hvalid.
    + replace ((replace <$> Sync.entries st).*1) with (Sync.entries st).*1;
        [done|].
      rewrite <-list_fmap_compose. apply list_fmap_ext.
      intros i [k v] _. unfold replace. cbn [compose fst].
      by case_decide.
    + apply list_elem_of_fmap.
      exists (path, Editor.content f0). split.
      * unfold replace. cbn [fst]. by rewrite decide_True.
      * apply elem_of_entries. by exists ref, f0.
    + intros other v Hother. rewrite list_elem_of_fmap. split.
      * intros ([k x] & Heq & Hentry). unfold replace in Heq.
        cbn [fst] in Heq. case_decide; by simplify_eq.
      * intros Hentry. exists (other, v). split; [|done].
        unfold replace. cbn [fst]. by rewrite decide_False.
  - set (n := length (Workspace.objects st)).
    assert (Hentries : Sync.entries
      (Workspace.set_files (Workspace.files st ++ [n])
         (Workspace.set_objects
            (Workspace.objects st ++ [Editor.File path hash text]) st))
      = Sync.entries st ++ [(path, text)]).
    { unfold Sync.entries.
      cbn [Workspace.objects Workspace.files Workspace.set_objects
           Workspace.set_files].
      rewrite omap_app. f_equal.
      - apply list_omap_ext. apply Forall2_same_length_lookup_2; [done|].
        intros i r r' Hr Hr'. simplify_eq.
        rewrite lookup_app_l; [done|].
        apply lookup_lt_is_Some, Hvalid. by eapply list_elem_of_lookup_2.
      - cbn [omap list_omap]. rewrite lookup_app_r by done.
        unfold n. by rewrite Nat.sub_diag. }
    rewrite Hentries. split_and!.
    + split; intros r Hr;
        cbn [Workspace.objects Workspace.files Workspace.currentFile
             Workspace.set_objects Workspace.set_files] in *.
      * apply lookup_lt_is_Some. rewrite length_app.
        specialize (Hcurrent r Hr). apply lookup_lt_is_Some in Hcurrent. lia.
      * apply lookup_lt_is_Some. rewrite length_app. cbn [length].
        apply elem_of_app in Hr as [Hr|Hr].
        -- specialize (Hvalid r Hr). apply lookup_lt_is_Some in Hvalid. lia.
        -- apply list_elem_of_singleton in Hr. subst r. unfold n. lia.
    + rewrite fmap_app. apply NoDup_app. split_and!; [done| |].
      * intros k Hk Hnew. apply list_elem_of_singleton in Hnew. subst k.
        apply list_elem_of_fmap in Hk as ([k v] & Hkey & Hentry).
        cbn [fst] in Hkey. subst k.
        apply elem_of_entries in Hentry as (r & f & Hr & Hf & Hp & _).
        apply (local_find_None st path r Hfind Hr).
        unfold Workspace.path_of. rewrite Hf. cbn. by rewrite Hp.
      * apply NoDup_singleton.
    + rewrite elem_of_app, list_elem_of_singleton. by right.
    + intros other v Hother. rewrite elem_of_app, list_elem_of_singleton.
      split; [|by left]. intros [?|Heq]; [done|]. by injection Heq.
Qed.

(** The entries after the loop: every worker file is listed with its
    content, and the paths that no worker file has are as before. *)
Lemma synced_entries workerFiles known st :
  references_valid st →
  NoDup (Sync.entries st).*1 →
  NoDup workerFiles.*1 →
  (∀ path text, path ∈ workerFiles.*1 →
                (path, text) ∈ Sync.entries st
                ↔ Sync.map_get known path = Some text) →
  let st' := synced workerFiles known st in
  references_valid st'
  ∧ NoDup (Sync.entries st').*1
  ∧ (∀ file, file ∈ workerFiles → file ∈ Sync.entries st')
  ∧ (∀ path text, path ∉ workerFiles.*1 →
                  (path, text) ∈ Sync.entries st'
                  ↔ (path, text) ∈ Sync.entries st).
Proof.
  revert st.
  induction workerFiles as [|[path text] rest IH];
    intros st Hvalid Hkeys Hpaths Hknown.
  { cbn. split_and!; try done. intros file Hin. by apply elem_of_nil in Hin. }
  cbn [fmap list_fmap fst] in Hpaths.
  apply NoDup_cons in Hpaths as [Hfresh Hrest].
  unfold synced. cbn [foldl fst snd].
  set (st1 := if decide (Sync.map_get known path = Some text) then st
              else Sync.sync_local st path text (computeHash (JStr text))).
  assert (Hstep : references_valid st1
                  ∧ NoDup (Sync.entries st1).*1
                  ∧ (path, text) ∈ Sync.entries st1
                  ∧ (∀ other v, other ≠ path →
                        (other, v) ∈ Sync.entries st1
                        ↔ (other, v) ∈ Sync.entries st)).
  { unfold st1. case_decide as Hsame.
    - split_and!; try done. apply Hknown; [|done]. left.
    - by apply entries_sync_local. }
  destruct Hstep as (Hvalid1 & Hkeys1 & Hfile & Hothers).
  destruct (IH st1 Hvalid1 Hkeys1 Hrest) as (Hvalid' & Hkeys' & Hfiles & Hframe).
  { intros other v Hother. rewrite Hothers.
    - apply Hknown. by right.
    - intros ->. done. }
  fold (synced rest known st1). split_and!; try done.
  - intros file Hin. apply elem_of_cons in Hin as [->|Hin].
    + by apply Hframe.
    + by apply Hfiles.
  - intros other v Hother. cbn [fmap list_fmap fst] in Hother.
    apply not_elem_of_cons in Hother as [Hne Hother].
    rewrite Hframe by done. by apply Hothers.
Qed.

(** What a sync leaves alone, whatever it does. *)
Lemma syncFilesFromWorker_frame workerFiles now st db :
  let id := Workspace.trifleId st in
  let db' := (Sync.syncFilesFromWorker workerFiles now st db).2 in
  users db' = users db
  ∧ versions db' = versions db
  ∧ versions_next_key db' = versions_next_key db
  ∧ (∀ other, other ≠ id → trifles db' !! other = trifles db !! other)
  ∧ (∀ hash, is_Some (content db !! hash) → is_Some (content db' !! hash))
  ∧ match trifles db !! id with
    | Some trifle =>
        trifles db' !! id = Some trifle
        ∨ ∃ hash, trifles db' !! id
                  = Some (Trifle.Make (Trifle.owner_id trifle) hash now
                            (increment (Trifle.logical_clock trifle)))
    | None => trifles db' !! id = None
    end.
Proof.
  intros id db'. unfold db', Sync.syncFilesFromWorker. cbv zeta.
  rewrite getTrifleData_eq. fold id.
  set (data := match trifles db !! id with Some _ => _ | None => _ end).
  pose proof (sync_loop_frame workerFiles (Sync.entries st)
                (Sync.Progress data false st db)) as Hloop.
  cbv zeta in Hloop. cbn [Sync.database] in Hloop.
  destruct (Sync.sync_loop _ _ _) as [[] p]; cbn [snd] in Hloop.
  2:{ destruct Hloop as (Husers & Htrifles & Hversions & Hnext & Hcontent).
      cbn [snd]. rewrite Husers, Htrifles, Hversions, Hnext.
      split_and!; try done. destruct (trifles db !! id); [by left|done]. }
  destruct Hloop as (Husers & Htrifles & Hversions & Hnext & Hcontent).
  destruct (Sync.hasChanges p).
  2:{ cbn [snd]. rewrite Husers, Htrifles, Hversions, Hnext.
      split_and!; try done. destruct (trifles db !! id); [by left|done]. }
  destruct (trifles db !! id) as [trifle|] eqn:Htrifle.
  - rewrite <-Htrifles in Htrifle.
    rewrite (updateTrifle_present _ _ _ _ _ Htrifle). cbv zeta.
    cbn [snd users trifles versions versions_next_key content
         with_trifles with_content].
    rewrite Htrifles in *. split_and!; try done.
    + intros other Hother. by rewrite lookup_insert_ne.
    + intros hash Hsome. rewrite lookup_insert. case_decide; [done|].
      by apply Hcontent.
    + right. eexists. apply lookup_insert_eq.
  - rewrite <-Htrifles in Htrifle.
    rewrite (updateTrifle_absent _ _ _ _ Htrifle). cbn [snd].
    rewrite Htrifles in *. by split_and!.
Qed.

Lemma findIndex_path_resolves entries path start :
  Forall (λ entry, entry ≠ JNull ∧ entry ≠ JUndefined) entries →
  ∃ i, Editor.findIndex_path entries path start = Resolved i.
Proof.
  intros Hentries. revert start.
  induction Hentries as [|entry entries [Hnull Hundef] _ IH]; intros start.
  { by eexists. }
  cbn [Editor.findIndex_path].
  destruct entry as [| |b|n|s|items|fields]; try done; try apply IH.
  destruct (obj_get fields (js "path")) as [| |b|n|p|items|ff]; try apply IH.
  destruct (decide (p = path)); [by eexists|apply IH].
Qed.

Lemma sync_entry_listing data path hash :
  listing data →
  ∃ data', Sync.sync_entry data path hash = Resolved data' ∧ listing data'.
Proof.
  intros (fields & entries & -> & Hfiles & Hentries).
  unfold Sync.sync_entry. rewrite Hfiles.
  destruct (findIndex_path_resolves entries path 0 Hentries) as [i ->].
  eexists. split; [reflexivity|].
  eexists _, _. split; [reflexivity|]. split.
  - by rewrite obj_get_obj_set, decide_True.
  - destruct (0 <=? i)%Z.
    + apply Forall_alter; [done|].
      intros entry _ [Hnull Hundef]. by destruct entry.
    + apply Forall_app. split; [done|]. by repeat constructor.
Qed.

Lemma sync_loop_through workerFiles known p :
  listing (Sync.trifleData p) →
  ∃ p', Sync.sync_loop workerFiles known p = (true, p')
        ∧ listing (Sync.trifleData p').
Proof.
  revert p. induction workerFiles as [|[path text] rest IH]; intros p Hdata.
  { by eexists. }
  cbn [Sync.sync_loop]. case_decide; [by apply IH|]. cbv zeta.
  destruct (sync_entry_listing _ path (computeHash (JStr text)) Hdata)
    as (data' & -> & Hdata').
  by apply IH.
Qed.

(** X23.  [syncFilesFromWorker] writes nothing when it has nothing new.
    When every file of the worker is in [state.files] with the same
    content, the state and the database are left as they are and no error is
    shown, also when the trifle no longer exists. *)
Theorem sync_nothing_new workerFiles now st db :
  (∀ file, file ∈ workerFiles →
           Sync.map_get (Sync.entries st) file.1 = Some file.2) →
  Sync.syncFilesFromWorker workerFiles now st db = (true, st, db).
Proof. apply syncFilesFromWorker_skip. Qed.

Lemma sync_nothing_new_witness :
  Sync.syncFilesFromWorker [(js "util.py", js "y = 0")] 1005
    example_workspace empty_db
  = (true, example_workspace, empty_db).
Proof.
  apply (sync_nothing_new [(js "util.py", js "y = 0")]).
  intros file Hin. apply list_elem_of_singleton in Hin. by subst file.
Defined.

(** X24.  What a sync leaves alone.  Whatever the files of the worker and
    whether or not the sync goes through, it changes no user, no version
    and no other trifle, and it removes no blob; the pointer of the trifle
    is left as it is or updated once, its clock incremented, however many
    files have changed. *)
Theorem sync_frame workerFiles now st db :
  let id := Workspace.trifleId st in
  let db' := (Sync.syncFilesFromWorker workerFiles now st db).2 in
  users db' = users db
  ∧ versions db' = versions db
  ∧ versions_next_key db' = versions_next_key db
  ∧ (∀ other, other ≠ id → trifles db' !! other = trifles db !! other)
  ∧ (∀ hash, is_Some (content db !! hash) → is_Some (content db' !! hash))
  ∧ match trifles db !! id with
    | Some trifle =>
        trifles db' !! id = Some trifle
        ∨ ∃ hash, trifles db' !! id
                  = Some (Trifle.Make (Trifle.owner_id trifle) hash now
                            (increment (Trifle.logical_clock trifle)))
    | None => trifles db' !! id = None
    end.
Proof. apply syncFilesFromWorker_frame. Qed.

Lemma sync_frame_witness :
  trifles
    (Sync.syncFilesFromWorker [(js "out.txt", js "1")] 1005
       example_workspace example_db).2
  !! js "trifle_9"
  = trifles example_db !! js "trifle_9".
Proof.
  destruct (sync_frame [(js "out.txt", js "1")] 1005%Z example_workspace
              example_db) as (_ & _ & _ & Hothers & _).
  apply Hothers. discriminate.
Defined.

(** X25.  A sync that went through is not repeated.  When [state.files]
    has no path twice, the worker has no path twice, and the data of the
    trifle has its list of files, the sync goes through; afterwards every
    file of the worker is in [state.files] with its content, the files of
    other paths are as before, and a second sync of the same files changes
    neither the state nor the database. *)
Theorem sync_idempotent workerFiles now st db trifle record :
  references_valid st →
  NoDup (Sync.entries st).*1 →
  NoDup workerFiles.*1 →
  trifles db !! Workspace.trifleId st = Some trifle →
  content db !! Trifle.current_hash trifle = Some record →
  listing (Content.data record) →
  let first := Sync.syncFilesFromWorker workerFiles now st db in
  first.1.1 = true
  ∧ references_valid first.1.2
  ∧ NoDup (Sync.entries first.1.2).*1
  ∧ (∀ file, file ∈ workerFiles → file ∈ Sync.entries first.1.2)
  ∧ (∀ path text, path ∉ workerFiles.*1 →
                  (path, text) ∈ Sync.entries first.1.2
                  ↔ (path, text) ∈ Sync.entries st)
  ∧ (∀ now',
       Sync.syncFilesFromWorker workerFiles now' first.1.2 first.2
       = (true, first.1.2, first.2)).
Proof.
  intros Hvalid Hkeys Hpaths Htrifle Hrecord Hdata first.
  assert (Hfirst : ∃ db', first = (true, synced workerFiles (Sync.entries st) st,
                                   db')).
  { unfold first, Sync.syncFilesFromWorker. cbv zeta.
    rewrite getTrifleData_eq, Htrifle, Hrecord.
    destruct (sync_loop_through workerFiles (Sync.entries st)
                (Sync.Progress (Content.data record) false st db) Hdata)
      as (p' & Hloop & _).
    rewrite Hloop. apply sync_loop_state in Hloop as Hstate.
    cbn [Sync.state] in Hstate. rewrite Hstate.
    destruct (Sync.hasChanges p'); [|by eexists].
    pose proof (sync_loop_frame workerFiles (Sync.entries st)
                  (Sync.Progress (Content.data record) false st db))
      as (_ & Htrifles & _).
    rewrite Hloop in Htrifles. cbn [snd Sync.database] in Htrifles.
    rewrite <-Htrifles in Htrifle.
    rewrite (updateTrifle_present _ _ _ _ _ Htrifle). by eexists. }
  destruct Hfirst as [db' Hfirst]. rewrite Hfirst. cbn [fst snd].
  destruct (synced_entries workerFiles (Sync.entries st) st Hvalid Hkeys Hpaths)
    as (Hvalid' & Hkeys' & Hfiles & Hframe).
  { intros path text _. symmetry. by apply map_get_elem. }
  split_and!; try done.
  intros now'. apply syncFilesFromWorker_skip.
  intros [path text] Hin. apply map_get_elem; [done|]. by apply Hfiles.
Qed.

Lemma sync_idempotent_witness :
  (Sync.syncFilesFromWorker [(js "out.txt", js "1")] 1005 example_workspace
     example_db).1.1
  = true.
Proof.
  edestruct (sync_idempotent [(js "out.txt", js "1")] 1005%Z example_workspace
               example_db) as (Hthrough & _).
  - split.
    + intros ref [= <-]. by eexists.
    + intros ref Href. apply (bool_decide_unpack _).
      revert ref Href. apply Forall_forall. by repeat constructor.
  - apply (bool_decide_unpack _). vm_compute. exact I.
  - apply (bool_decide_unpack _). vm_compute. exact I.
  - vm_compute. reflexivity.
  - vm_compute. reflexivity.
  - eexists _, _. split; [reflexivity|]. split; [vm_compute; reflexivity|].
    by repeat constructor.
  - exact Hthrough.
Defined.

(** ** The order of versions with the same time *)

Lemma sort_insert_stable {A} (le : A → A → bool) (before : relation A) x l :
  (∀ a b, le a b = true ∨ le b a = true) →
  (∀ a b c, le a b = true → le b c = true → le a c = true) →
  StronglySorted (stably le before) l →
  Forall (before x) l →
  StronglySorted (stably le before) (sort_insert le x l).
Proof.
  intros Htotal Htrans. induction 1 as [|y l Hl IH Hy]; intros Hx.
  { repeat constructor. }
  apply Forall_cons in Hx as [Hxy Hxl]. cbn [sort_insert].
  destruct (le x y) eqn:Hle.
  - constructor; [by constructor|]. constructor; [by split|].
    rewrite Forall_forall in Hy, Hxl. apply Forall_forall. intros z Hz.
    destruct (Hy z Hz) as [Hyz _]. split; [by eapply Htrans|].
    intros _. by apply Hxl.
  - constructor; [by apply IH|].
    apply Forall_forall. intros z Hz.
    rewrite sort_insert_perm in Hz. apply elem_of_cons in Hz as [->|Hz].
    + split; [by destruct (Htotal x y) as [?|?]; [congruence|]|].
      intros ?. congruence.
    + rewrite Forall_forall in Hy. by apply Hy.
Qed.

Lemma sort_stable {A} (le : A → A → bool) (before : relation A) l :
  (∀ a b, le a b = true ∨ le b a = true) →
  (∀ a b c, le a b = true → le b c = true → le a c = true) →
  StronglySorted before l →
  StronglySorted (stably le before) (sort le l).
Proof.
  intros Htotal Htrans. induction 1 as [|x l Hl IH Hx]; [constructor|].
  cbn [sort]. apply sort_insert_stable; [done..|].
  apply Forall_forall. intros z Hz. rewrite sort_perm in Hz.
  rewrite Forall_forall in Hx. by apply Hx.
Qed.

Lemma StronglySorted_filter {A} (R : relation A) (P : A → Prop)
    `{!∀ x, Decision (P x)} l :
  StronglySorted R l → StronglySorted R (filter P l).
Proof.
  induction 1 as [|x l Hl IH Hx]; [constructor|].
  rewrite filter_cons. destruct (decide (P x)); [|done].
  constructor; [done|].
  apply Forall_forall. intros y Hy. apply list_elem_of_filter in Hy as [_ Hy].
  rewrite Forall_forall in Hx. by apply Hx.
Qed.

Lemma StronglySorted_weaken {A} (R R' : relation A) l :
  (∀ a b, R a b → R' a b) → StronglySorted R l → StronglySorted R' l.
Proof.
  intros Himpl. induction 1 as [|x l Hl IH Hx]; constructor; [done|].
  eapply Forall_impl; [exact Hx|]. intros y. apply Himpl.
Qed.

Lemma StronglySorted_lookup {A} (R : relation A) l i j a b :
  StronglySorted R l → l !! i = Some a → l !! j = Some b → (i < j)%nat →
  R a b.
Proof.
  intros Hsorted. revert i j.
  induction Hsorted as [|x l Hl IH Hx]; intros i j Ha Hb Hij; [done|].
  destruct i as [|i], j as [|j]; try lia.
  - cbn in Ha, Hb. injection Ha as ->.
    rewrite Forall_forall in Hx. apply Hx. by eapply list_elem_of_lookup_2.
  - cbn in Ha, Hb. apply (IH i j); [done..|lia].
Qed.

Lemma records_strictly_sorted {V} (store : gmap N V) :
  StronglySorted (λ a b, a.1 < b.1) (records store).
Proof.
  pose proof (NoDup_records_keys store) as Hkeys.
  assert (Hsorted : StronglySorted (precedes key_le) (records store)).
  { unfold records. apply sort_sorted; [apply key_le_total|apply key_le_trans]. }
  induction Hsorted as [|x l Hl IH Hx]; [constructor|].
  cbn [fmap list_fmap] in Hkeys. apply NoDup_cons in Hkeys as [Hfresh Hkeys].
  constructor; [by apply IH|].
  apply Forall_forall. intros y Hy. rewrite Forall_forall in Hx.
  specialize (Hx y Hy). unfold precedes, key_le in Hx.
  apply N.leb_le in Hx.
  assert (x.1 ≠ y.1); [|lia].
  intros Heq. apply Hfresh. rewrite Heq. by apply list_elem_of_fmap_2.
Qed.

(** X26.  [getVersions] lists versions of the same time in the order of
    their ids.  The listing is read-only and goes from the newest time to
    the oldest; of two versions with equal timestamps the one with the
    smaller id, which was created first, comes first, so it is the later
    one that [cleanupVersions] removes first. *)
Theorem getVersions_ties trifleId db :
  ∃ newest,
    getVersions trifleId db = (Resolved newest, db)
    ∧ StronglySorted
        (λ a b,
           (Version.timestamp b.2 ≤ Version.timestamp a.2)%Z
           ∧ (Version.timestamp a.2 = Version.timestamp b.2 → a.1 < b.1))
        newest
    ∧ (∀ keepCount a b i j,
         (0 ≤ default 10%Z keepCount)%Z →
         let sessions := filter (λ r, Version.label r.2 = Session) newest in
         sessions !! i = Some a → sessions !! j = Some b →
         Version.timestamp a.2 = Version.timestamp b.2 →
         a.1 < b.1 →
         versions (cleanupVersions trifleId keepCount db).2 !! b.1
         = Some b.2 →
         versions (cleanupVersions trifleId keepCount db).2 !! a.1
         = Some a.2).
Proof.
  eexists. split; [apply getVersions_eq|].
  set (newest := sort newer_first (versions_of trifleId (versions db))).
  assert (Hstable : StronglySorted (stably newer_first (λ a b, a.1 < b.1))
                      newest).
  { apply sort_stable; [apply newer_first_total|apply newer_first_trans|].
    unfold versions_of. apply StronglySorted_filter, records_strictly_sorted. }
  assert (Hsorted : StronglySorted
            (λ a b,
               (Version.timestamp b.2 ≤ Version.timestamp a.2)%Z
               ∧ (Version.timestamp a.2 = Version.timestamp b.2 → a.1 < b.1))
            newest).
  { eapply StronglySorted_weaken; [|exact Hstable].
    intros a b [Hle Hties]. unfold newer_first in *.
    rewrite Z.leb_le in Hle. split; [lia|].
    intros Heq. apply Hties. apply Z.leb_le. lia. }
  split; [exact Hsorted|].
  intros keepCount a b i j Hkeep sessions Ha Hb Hsame Hlt.
  assert (Hsessions : StronglySorted
            (λ a b,
               (Version.timestamp b.2 ≤ Version.timestamp a.2)%Z
               ∧ (Version.timestamp a.2 = Version.timestamp b.2 → a.1 < b.1))
            sessions) by by apply StronglySorted_filter.
  assert (Hij : (i < j)%nat).
  { destruct (decide (i < j)%nat) as [|Hge]; [done|]. exfalso.
    destruct (decide (i = j)) as [->|Hne].
    - rewrite Ha in Hb. injection Hb as ->. lia.
    - assert (Hji : (j < i)%nat) by lia.
      destruct (StronglySorted_lookup _ sessions j i b a Hsessions Hb Ha Hji)
        as [_ Hties].
      specialize (Hties (eq_sym Hsame)). lia. }
  rewrite cleanupVersions_delete. cbv zeta. cbn [snd versions with_versions].
  fold newest. fold sessions. rewrite slice_nonneg by done.
  rewrite !lookup_foldl_delete.
  set (n := Z.to_nat (default 10%Z keepCount)).
  assert (Hkeys : NoDup sessions.*1).
  { apply NoDup_keys_filter, NoDup_versions_of_keys. }
  assert (Hin : ∀ k r, sessions !! k = Some r →
                       r.1 ∈ (drop n sessions).*1 → (n <= k)%nat).
  { intros k r Hk Hdrop.
    apply list_elem_of_fmap in Hdrop as (r' & Hkey & Hr').
    apply list_elem_of_lookup in Hr' as [k' Hk'].
    rewrite lookup_drop in Hk'.
    assert (Heq : (n + k')%nat = k); [|lia].
    eapply NoDup_lookup; [exact Hkeys| |].
    - by rewrite list_lookup_fmap, Hk'.
    - rewrite list_lookup_fmap, Hk. cbn. by rewrite Hkey. }
  case_decide as Hb_in; [done|]. intros Hb_kept.
  rewrite decide_False.
  - assert (Ha_in : a ∈ newest).
    { apply list_elem_of_lookup_2 in Ha.
      apply list_elem_of_filter in Ha. tauto. }
    unfold newest in Ha_in. rewrite elem_of_sort in Ha_in.
    destruct a as [ka va]. apply elem_of_versions_of in Ha_in. tauto.
  - intros Ha_in. apply Hb_in.
    apply (list_elem_of_fmap_2 fst). apply list_elem_of_lookup.
    exists (j - n)%nat. rewrite lookup_drop.
    replace (n + (j - n))%nat with j; [done|].
    pose proof (Hin i a Ha Ha_in). lia.
Qed.

Lemma getVersions_ties_witness :
  versions (cleanupVersions (js "trifle_1") (Some 2%Z) example_ties).2 !! 1
  = Some (Version.Make (js "trifle_1") (js "h1") 7 Session).
Proof.
  destruct (getVersions_ties (js "trifle_1") example_ties)
    as (newest & Hget & _ & Hties).
  rewrite getVersions_eq in Hget. injection Hget as <-.
  apply (Hties (Some 2%Z)
           (1, Version.Make (js "trifle_1") (js "h1") 7%Z Session)
           (2, Version.Make (js "trifle_1") (js "h2") 7%Z Session)
           0%nat 1%nat).
  - done.
  - reflexivity.
  - reflexivity.
  - reflexivity.
  - reflexivity.
  - reflexivity.
Defined.
